(** * stackbit/utils: a shallow embedding and its verified properties

    The development follows the layout of the package:
    - [Js]            the JavaScript values the utilities work on;
    - [PromiseUtils]  forEachPromise, mapPromise, reducePromise, findPromise;
    - [Lodash]        the part of lodash the object utilities call;
    - [ObjectUtils]   getFirst, copy, copyIfNotSet, mapDeep;
    - [FileUtils]     parseMarkdownWithFrontMatter;
    - [TaskQueue]     the throttled task queue.

    Definitions come first, the lemmas and theorems about them follow. *)

From Stdlib Require Import ZArith NArith Lia Bool Ascii String DecimalString.
From stdpp Require Import base option list strings.

Set Warnings "-register-all".

Local Open Scope nat_scope.
Local Open Scope list_scope.

(* ===================================================================== *)
(** ** JavaScript values *)
(* ===================================================================== *)

Module Js.

(** JSON-like data plus [undefined].  Numbers are the integers; functions,
    class instances and other exotic objects are not part of the model. *)
Inductive value : Type :=
| JUndefined
| JNull
| JBool (b : bool)
| JNum (n : Z)
| JStr (s : string)
| JArr (elems : list value)
| JObj (props : list (string * value)).

(** [if (v)]: JavaScript truthiness. *)
Definition truthy (v : value) : bool :=
  match v with
  | JUndefined | JNull => false
  | JBool b => b
  | JNum n => negb (n =? 0)%Z
  | JStr s => negb (String.eqb s EmptyString)
  | JArr _ | JObj _ => true
  end.

(** [v === false]. *)
Definition is_false (v : value) : bool :=
  match v with
  | JBool false => true
  | _ => false
  end.

(** [_.isUndefined]. *)
Definition isUndefined (v : value) : bool :=
  match v with
  | JUndefined => true
  | _ => false
  end.

(** [array[index]]: reading past the end yields [undefined]. *)
Definition array_get (array : list value) (index : nat) : value :=
  default JUndefined (array !! index).

(** [array[index] = v]: writing past the end extends the array, the skipped
    slots read as [undefined]. *)
Definition array_set (array : list value) (index : nat) (v : value) : list value :=
  if index <? length array
  then <[index := v]> array
  else array ++ replicate (index - length array) JUndefined ++ [v].

End Js.
Import Js.

(* ===================================================================== *)
(** ** promise-utils: the sequential helpers *)
(* ===================================================================== *)

Module PromiseUtils.

(** How the promise returned by one callback invocation settles.  The
    callback is the environment of a helper: the helper calls it, the call
    returns a promise, and later that promise settles one way or the other. *)
Inductive settlement : Type :=
| Resolves (result : value)
| Rejects (error : value).

(** State of the promise a helper returns. *)
Inductive promise : Type :=
| Pending
| Fulfilled (v : value)
| Rejected (error : value).

(** One call [callback.call(thisArg, [accumulator,] array[index], index, array)]. *)
Record invocation : Type := mkInvocation {
  inv_accumulator : option value;
  inv_value : value;
  inv_index : nat
}.

(** A helper between two turns of the event loop: the calls made so far, the
    closure waiting on the promise of the last call (its [index] and the
    variable the closure holds: [results] for mapPromise, [accumulator] for
    reducePromise), and the returned promise. *)
Record run : Type := mkRun {
  called : list invocation;
  waiting : option (nat * value);
  returned : promise
}.

(** What a [.then] handler does with the callback's result. *)
Inductive verdict : Type :=
| Next (held : value)
| ResolveWith (v : value).

(** The four helpers share the shape
    [function next(index) { if (index < array.length) callback(..).then(H).catch(reject) else resolve(F) }]
    and differ in the handler [H], in the final value [F] and in whether
    the accumulator is passed to the callback. *)
Record helper : Type := mkHelper {
  on_then : list value -> nat -> value -> value -> verdict;
  on_end : value -> value;
  passes_accumulator : bool
}.

(** [next(index)]. *)
Definition next (h : helper) (array : list value) (index : nat) (held : value) (r : run) : run :=
  if index <? length array
  then {| called := called r ++
            [mkInvocation (if passes_accumulator h then Some held else None)
                          (array_get array index) index];
          waiting := Some (index, held);
          returned := Pending |}
  else {| called := called r; waiting := None; returned := Fulfilled (on_end h held) |}.

(** The promise of the pending callback settles: [.then(H).catch(reject)]. *)
Definition settle (h : helper) (array : list value) (s : settlement) (r : run) : run :=
  match waiting r with
  | None => r
  | Some (index, held) =>
      match s with
      | Resolves result =>
          match on_then h array index held result with
          | Next held' => next h array (index + 1) held' r
          | ResolveWith v => {| called := called r; waiting := None; returned := Fulfilled v |}
          end
      | Rejects error => {| called := called r; waiting := None; returned := Rejected error |}
      end
  end.

(** [new Promise((resolve, reject) => { ...; next(0) })]. *)
Definition start (h : helper) (array : list value) (held : value) : run :=
  next h array 0 held {| called := []; waiting := None; returned := Pending |}.

(** The settlements delivered by the event loop, oldest first. *)
Definition deliver (h : helper) (array : list value) (ss : list settlement) (r : run) : run :=
  fold_left (fun r s => settle h array s r) ss r.

(** forEachPromise of promise-utils.ts: a callback result [=== false] stops
    the iteration. *)
Definition forEach_helper : helper :=
  {| on_then := fun _ _ _ result =>
       if is_false result then ResolveWith JUndefined else Next JUndefined;
     on_end := fun _ => JUndefined;
     passes_accumulator := false |}.

(** forEachPromise of the earlier index.js: the result is ignored. *)
Definition forEach_legacy_helper : helper :=
  {| on_then := fun _ _ _ _ => Next JUndefined;
     on_end := fun _ => JUndefined;
     passes_accumulator := false |}.

(** mapPromise: [results[index] = result; next(index + 1)]. *)
Definition map_helper : helper :=
  {| on_then := fun _ index held result =>
       match held with
       | JArr results => Next (JArr (array_set results index result))
       | _ => Next held
       end;
     on_end := fun held => held;
     passes_accumulator := false |}.

(** reducePromise: [next(index + 1, result)]. *)
Definition reduce_helper : helper :=
  {| on_then := fun _ _ _ result => Next result;
     on_end := fun held => held;
     passes_accumulator := true |}.

(** findPromise: [if (result) resolve(array[index]) else next(index + 1)]. *)
Definition find_helper : helper :=
  {| on_then := fun array index _ result =>
       if truthy result then ResolveWith (array_get array index) else Next JUndefined;
     on_end := fun _ => JUndefined;
     passes_accumulator := false |}.

Definition forEachPromise (array : list value) : run := start forEach_helper array JUndefined.
Definition forEachPromise_legacy (array : list value) : run := start forEach_legacy_helper array JUndefined.
Definition mapPromise (array : list value) : run := start map_helper array (JArr []).
Definition reducePromise (array : list value) (initialValue : value) : run := start reduce_helper array initialValue.
Definition findPromise (array : list value) : run := start find_helper array JUndefined.

(** The calls a helper has made once it reached index [n] without stopping. *)
Definition calls_upto (array : list value) (n : nat) : list invocation :=
  map (fun i => mkInvocation None (array_get array i) i) (seq 0 n).

(** Sequential discipline of a helper started in [r0]: whatever settlements
    arrive, the calls are those of the indices 0, 1, 2, ... in this order,
    each on its own element; a call is outstanding only for the last index
    called, so every call but the first follows a settlement; and a
    rejection of the outstanding call rejects the helper with the same error
    and ends the calls. *)
Definition sequential (h : helper) (array : list value) (r0 : run) : Prop :=
  forall ss : list settlement,
    let r := deliver h array ss r0 in
    map inv_index (called r) = seq 0 (length (called r))
    /\ Forall (fun c => array !! inv_index c = Some (inv_value c)) (called r)
    /\ length (called r) <= S (length ss)
    /\ (forall k held, waiting r = Some (k, held) ->
          length (called r) = S k /\ returned r = Pending)
    /\ (forall k held error ss', waiting r = Some (k, held) ->
          let r' := deliver h array (Rejects error :: ss') r in
          returned r' = Rejected error
          /\ called r' = called r
          /\ Forall (fun c => inv_index c <= k) (called r')).

(** What holds of a helper between any two turns of the event loop. *)
Definition run_invariant (array : list value) (r : run) : Prop :=
  map inv_index (called r) = seq 0 (length (called r))
  /\ Forall (fun c => array !! inv_index c = Some (inv_value c)) (called r)
  /\ (forall k held, waiting r = Some (k, held) ->
        length (called r) = S k /\ returned r = Pending).

(** A forEach-style helper that has gone through the indices below [n]
    without stopping: waiting on the call for index [n], or done when the
    array is exhausted. *)
Definition at_index (array : list value) (n : nat) : run :=
  if n <? length array
  then {| called := calls_upto array (S n); waiting := Some (n, JUndefined); returned := Pending |}
  else {| called := calls_upto array (length array); waiting := None;
          returned := Fulfilled JUndefined |}.

(** The contract "every element is processed whatever the callback resolves
    with": when all the callback's promises resolve with [results], the
    callback has been called once per element, in order, the helper has
    resolved with no value, and it had not resolved before the last of them. *)
Definition processes_every_element (h : helper) (forEach : list value -> run) : Prop :=
  forall (array results : list value),
    length results = length array ->
    let r := deliver h array (map Resolves results) (forEach array) in
    called r = calls_upto array (length array)
    /\ returned r = Fulfilled JUndefined
    /\ (forall n, n < length array ->
          returned (deliver h array (map Resolves (take n results)) (forEach array)) = Pending).

(** mapPromise with the results [done] collected so far. *)
Definition map_at (array done : list value) : run :=
  if length done <? length array
  then {| called := calls_upto array (S (length done));
          waiting := Some (length done, JArr done); returned := Pending |}
  else {| called := calls_upto array (length array); waiting := None;
          returned := Fulfilled (JArr done) |}.

(** The calls of reducePromise: the call for index [i] receives the [i]-th
    of the [accumulators]. *)
Definition reduce_calls (array accumulators : list value) : list invocation :=
  imap (fun i accumulator => mkInvocation (Some accumulator) (array_get array i) i) accumulators.

(** reducePromise after the callback resolved with [results]; the last of
    them, or the initial value when there is none, is the accumulator. *)
Definition reduce_at (array : list value) (initialValue : value) (results : list value) : run :=
  let accumulator := default initialValue (last results) in
  if length results <? length array
  then {| called := reduce_calls array (initialValue :: results);
          waiting := Some (length results, accumulator); returned := Pending |}
  else {| called := reduce_calls array (take (length array) (initialValue :: results));
          waiting := None; returned := Fulfilled accumulator |}.

End PromiseUtils.

(* ===================================================================== *)
(** ** lodash: has, get, set, at *)
(* ===================================================================== *)

Module Lodash.

(** Modelled from the spec: lodash is a dependency of the package and not
    part of its sources.  Paths are sequences of keys into nested maps and
    ordered sequences whose missing segments count as absent; the functions
    of this module follow lodash 4.17 on that fragment.  A path is the key
    list lodash obtains from a dotted string or a key array; only own
    properties are modelled (no prototype chain), and writing a named
    property or [length] of an array is outside the fragment ([None]). *)
Definition path : Type := list string.

Definition digit (c : ascii) : option N :=
  let n := N_of_ascii c in
  if ((48 <=? n) && (n <=? 57))%N then Some (n - 48)%N else None.

Fixpoint digits (s : string) (acc : N) : option N :=
  match s with
  | EmptyString => Some acc
  | String c rest =>
      match digit c with
      | Some d => digits rest (10 * acc + d)%N
      | None => None
      end
  end.

(** [isIndex]: the key spells an array index, that is 0 or a run of digits
    without a leading 0, below [MAX_SAFE_INTEGER]. *)
Definition parseIndex (key : string) : option nat :=
  match key with
  | EmptyString => None
  | String c rest =>
      if Ascii.eqb c "0"%char
      then match rest with EmptyString => Some 0 | _ => None end
      else match digits key 0 with
           | Some n => if (n <? 9007199254740991)%N then Some (N.to_nat n) else None
           | None => None
           end
  end.

Definition isIndex (key : string) : bool := bool_decide (is_Some (parseIndex key)).

(** [isObject]: arrays and objects. *)
Definition isObject (v : value) : bool :=
  match v with
  | JArr _ | JObj _ => true
  | _ => false
  end.

Definition isNil (v : value) : bool :=
  match v with
  | JUndefined | JNull => true
  | _ => false
  end.

(** First binding of [key] in an object's property list. *)
Fixpoint assoc (key : string) (props : list (string * value)) : option value :=
  match props with
  | [] => None
  | (k, v) :: rest => if String.eqb k key then Some v else assoc key rest
  end.

(** [object[key] = v] on a property list: an existing property keeps its
    place, a new one goes last. *)
Fixpoint assoc_set (key : string) (v : value) (props : list (string * value)) : list (string * value) :=
  match props with
  | [] => [(key, v)]
  | (k, w) :: rest =>
      if String.eqb k key then (k, v) :: rest else (k, w) :: assoc_set key v rest
  end.

(** The own property [key] of [object], if it has one.  Array slots below
    the length count as own properties (holes read as undefined), so do the
    characters of a string. *)
Definition own (object : value) (key : string) : option value :=
  match object with
  | JObj props => assoc key props
  | JArr elems =>
      match parseIndex key with
      | Some i => elems !! i
      | None => if String.eqb key "length" then Some (JNum (Z.of_nat (length elems))) else None
      end
  | JStr s =>
      match parseIndex key with
      | Some i => option_map (fun c => JStr (String c EmptyString)) (String.get i s)
      | None => if String.eqb key "length" then Some (JNum (Z.of_nat (String.length s))) else None
      end
  | _ => None
  end.

(** [object[key]]. *)
Definition prop (object : value) (key : string) : value :=
  default JUndefined (own object key).

(** Modelled from the spec: lodash's [_.has(object, path)], not part of the
    sources.  Every key of the path is an own property of the value reached
    so far; the empty path is never present. *)
Fixpoint has (object : value) (p : path) : bool :=
  match p with
  | [] => false
  | key :: rest =>
      match own object key with
      | None => false
      | Some v => match rest with [] => true | _ => has v rest end
      end
  end.

(** [baseGet]'s loop: stop at the first null or undefined. *)
Fixpoint walk (object : value) (p : path) : value :=
  match p with
  | [] => object
  | key :: rest => if isNil object then JUndefined else walk (prop object key) rest
  end.

(** Modelled from the spec: lodash's [_.get(object, path)], not part of the
    sources; a missing segment gives undefined. *)
Definition get (object : value) (p : path) : value :=
  match p with
  | [] => JUndefined
  | _ => walk object p
  end.

(** [assignValue(nested, key, v)]. *)
Definition assignValue (nested : value) (key : string) (v : value) : option value :=
  match nested with
  | JObj props => Some (JObj (assoc_set key v props))
  | JArr elems =>
      match parseIndex key with
      | Some i => Some (JArr (array_set elems i v))
      | None => None
      end
  | _ => None
  end.

Definition unsafeKey (key : string) : bool :=
  String.eqb key "__proto__" || String.eqb key "constructor" || String.eqb key "prototype".

(** [baseSet]'s loop on [nested]; the result is [nested] after the in-place
    writes.  A missing or non-object intermediate is replaced by a fresh
    array when the next key is an index and by a fresh object otherwise. *)
Fixpoint baseSet (nested : value) (p : path) (v : value) : option value :=
  match p with
  | [] => Some nested
  | key :: rest =>
      if unsafeKey key then Some nested
      else match rest with
           | [] => assignValue nested key v
           | nextKey :: _ =>
               let objValue := prop nested key in
               let newValue :=
                 if isObject objValue then objValue
                 else if isIndex nextKey then JArr [] else JObj [] in
               match baseSet newValue rest v with
               | Some child => assignValue nested key child
               | None => None
               end
           end
  end.

(** Modelled from the spec: lodash's [_.set(object, path, v)], not part of
    the sources, as the object after the call; a value that is no object is
    left alone. *)
Definition set (object : value) (p : path) (v : value) : option value :=
  if isObject object then baseSet object p v else Some object.

(** [_.at(object, paths)]. *)
Definition at_ (object : value) (paths : list path) : list value :=
  map (get object) paths.

(** [_.reject(values, _.isUndefined)]. *)
Definition rejectUndefined (values : list value) : list value :=
  filter (fun v => isUndefined v = false) values.

(** [_.first(values)]. *)
Definition first (values : list value) : value :=
  default JUndefined (head values).

(** A value without arrays in it. *)
Fixpoint objectsOnly (v : value) : bool :=
  match v with
  | JArr _ => false
  | JObj props =>
      (fix go (props : list (string * value)) : bool :=
         match props with
         | [] => true
         | (_, w) :: rest => objectsOnly w && go rest
         end) props
  | _ => true
  end.

End Lodash.

(* ===================================================================== *)
(** ** object-utils *)
(* ===================================================================== *)

Module ObjectUtils.
Import Lodash.

(** [getFirst(object, paths, defaultValue?)]; an omitted default is
    undefined. *)
Definition getFirst (object : value) (paths : list path) (defaultValue : option value) : value :=
  let result := first (rejectUndefined (at_ object paths)) in
  if isUndefined result then default JUndefined defaultValue else result.

(** [copy]; the target is mutated in place, the result is the target after
    the call. *)
Definition copy (sourceObject : value) (sourcePath : path)
    (targetObject : value) (targetPath : path)
    (transform : option (value -> value)) : option value :=
  if has sourceObject sourcePath then
    let v := get sourceObject sourcePath in
    let v := match transform with Some f => f v | None => v end in
    set targetObject targetPath v
  else Some targetObject.

(** [copyIfNotSet]. *)
Definition copyIfNotSet (sourceObject : value) (sourcePath : path)
    (targetObject : value) (targetPath : path)
    (transform : option (value -> value)) : option value :=
  if negb (has targetObject targetPath)
  then copy sourceObject sourcePath targetObject targetPath transform
  else Some targetObject.

(** How a call that mutates its argument ends: normally, with the object as
    the call left it; with a TypeError; or outside what the model of lodash
    and of property writes covers. *)
Inductive completion : Type :=
| Normal (object : value)
| ThrowsTypeError
| Unmodelled.

(** [object[key] = v] for a key that is an own property of an object or a
    slot of an array. *)
Definition put (object : value) (key : string) (v : value) : value :=
  match object with
  | JObj props => JObj (assoc_set key v props)
  | JArr elems =>
      match parseIndex key with
      | Some i => JArr (<[i := v]> elems)
      | None => object
      end
  | _ => object
  end.

(** The object after the value that [_.get(object, path)] returns has been
    changed in place by [f]: in a tree every holder of that value sees the
    change. *)
Fixpoint modify (object : value) (p : path) (f : value -> value) : value :=
  match p with
  | [] => f object
  | key :: rest =>
      match own object key with
      | Some child => put object key (modify child rest f)
      | None => object
      end
  end.

(** [if (!_.has(object, path)) { _.set(object, path, []) }]. *)
Definition ensureArray (object : value) (p : path) : option value :=
  if has object p then Some object else set object p (JArr []).

(** [append(object, path, value)]: [_.get(object, path).push(value)]; only
    an array has a [push]. *)
Definition append (object : value) (p : path) (v : value) : completion :=
  match ensureArray object p with
  | None => Unmodelled
  | Some object1 =>
      match get object1 p with
      | JArr elems => Normal (modify object1 p (fun _ => JArr (elems ++ [v])))
      | _ => ThrowsTypeError
      end
  end.

(** What [array.concat(value)] adds: the elements of an array argument, any
    other argument itself. *)
Definition concatItems (v : value) : list value :=
  match v with
  | JArr items => items
  | _ => [v]
  end.

(** [concat(object, path, value)]:
    [_.set(object, path, _.get(object, path).concat(value))].  A string has
    a [concat] too, modelled for a string argument. *)
Definition concat (object : value) (p : path) (v : value) : completion :=
  match ensureArray object p with
  | None => Unmodelled
  | Some object1 =>
      match get object1 p with
      | JArr elems =>
          match set object1 p (JArr (elems ++ concatItems v)) with
          | Some object2 => Normal object2
          | None => Unmodelled
          end
      | JStr s =>
          match v with
          | JStr t =>
              match set object1 p (JStr (String.append s t)) with
              | Some object2 => Normal object2
              | None => Unmodelled
              end
          | _ => Unmodelled
          end
      | _ => ThrowsTypeError
      end
  end.

(** [delete object[key]] in strict code.  A deleted array slot is a hole;
    deleting a character or the length of a string or an array is not
    modelled. *)
Definition deleteKey (object : value) (key : string) : completion :=
  match object with
  | JUndefined | JNull => ThrowsTypeError
  | JBool _ | JNum _ => Normal object
  | JObj props => Normal (JObj (filter (fun kv => fst kv <> key) props))
  | JArr elems =>
      match parseIndex key with
      | Some i => Normal (JArr (if i <? length elems then <[i := JUndefined]> elems else elems))
      | None => if String.eqb key "length" then Unmodelled else Normal object
      end
  | JStr s =>
      match own object key with
      | Some _ => Unmodelled
      | None => Normal object
      end
  end.

(** [rename(object, oldPath, newPath)] of object-utils.ts; the paths are
    key lists, so [_.toPath] is the identity. *)
Definition rename (object : value) (oldPath newPath : path) : completion :=
  if has object oldPath then
    match set object newPath (get object oldPath) with
    | None => Unmodelled
    | Some object1 =>
        match last oldPath with
        | None => Normal object1
        | Some lastKey =>
            if String.eqb lastKey EmptyString then Normal object1
            else if 1 <? length oldPath then
              let parentPath := removelast oldPath in
              match deleteKey (get object1 parentPath) lastKey with
              | Normal parent => Normal (modify object1 parentPath (fun _ => parent))
              | ThrowsTypeError => ThrowsTypeError
              | Unmodelled => Unmodelled
              end
            else deleteKey object1 lastKey
        end
    end
  else Normal object.

(** A step of a key path: a property name or an array index. *)
Inductive key : Type :=
| KeyName (name : string)
| KeyIndex (index : nat).

(** The options of mapDeep after defaulting. *)
Record options : Type := mkOptions {
  postOrder : bool;
  iterateCollections : bool;
  iteratePrimitives : bool
}.

(** [options = {}]. *)
Definition defaults : options :=
  {| postOrder := false; iterateCollections := true; iteratePrimitives := true |}.

Definition isPlainObject (v : value) : bool :=
  match v with
  | JObj _ => true
  | _ => false
  end.

Definition isArray (v : value) : bool :=
  match v with
  | JArr _ => true
  | _ => false
  end.

Section MapDeep.

(** The iteratee is a JavaScript function: it may read and write state of
    its own, of type [St], which the traversal threads in call order. *)
Context {St : Type}.
Variable iteratee : value -> list key -> list value -> St -> value * St.
Variable opts : options.

(** [_.mapValues(object, f)], the calls in property order. *)
Fixpoint mapValues (f : value -> string -> St -> option (value * St))
    (props : list (string * value)) (s : St) : option (list (string * value) * St) :=
  match props with
  | [] => Some ([], s)
  | (k, val) :: rest =>
      match f val k s with
      | None => None
      | Some (val', s') =>
          match mapValues f rest s' with
          | None => None
          | Some (rest', s'') => Some ((k, val') :: rest', s'')
          end
      end
  end.

(** [_.map(array, f)], the calls in index order starting at [index]. *)
Fixpoint mapFrom (f : value -> nat -> St -> option (value * St))
    (index : nat) (elems : list value) (s : St) : option (list value * St) :=
  match elems with
  | [] => Some ([], s)
  | val :: rest =>
      match f val index s with
      | None => None
      | Some (val', s') =>
          match mapFrom f (S index) rest s' with
          | None => None
          | Some (rest', s'') => Some (val' :: rest', s'')
          end
      end
  end.

(** The children of [v] mapped by [recur], [v] itself pushed on the stack:
    [_.mapValues(value, childrenIterator)] for an object,
    [_.map(value, childrenIterator)] for an array, nothing for a scalar. *)
Definition mapChildren
    (recur : value -> list key -> list value -> St -> option (value * St))
    (v : value) (keyPath : list key) (stack : list value) (s : St) : option (value * St) :=
  match v with
  | JObj props =>
      match mapValues (fun val k => recur val (keyPath ++ [KeyName k]) (stack ++ [v])) props s with
      | None => None
      | Some (props', s') => Some (JObj props', s')
      end
  | JArr elems =>
      match mapFrom (fun val i => recur val (keyPath ++ [KeyIndex i]) (stack ++ [v])) 0 elems s with
      | None => None
      | Some (elems', s') => Some (JArr elems', s')
      end
  | _ => Some (v, s)
  end.

(** [_mapDeep(value, keyPath, stack)].  The recursion of the source is not
    bounded by the input (in pre-order it follows what the iteratee returns),
    so the embedding counts the nesting of calls: [None] when [fuel] nested
    calls do not suffice. *)
Fixpoint _mapDeep (fuel : nat) (v : value) (keyPath : list key) (stack : list value)
    (s : St) : option (value * St) :=
  match fuel with
  | 0 => None
  | S fuel' =>
      let invokeIteratee :=
        if isPlainObject v || isArray v then iterateCollections opts else iteratePrimitives opts in
      let '(v, s) :=
        if invokeIteratee && negb (postOrder opts) then iteratee v keyPath stack s else (v, s) in
      match mapChildren (_mapDeep fuel') v keyPath stack s with
      | None => None
      | Some (v, s) =>
          Some (if invokeIteratee && postOrder opts then iteratee v keyPath stack s else (v, s))
      end
  end.

(** [mapDeep(value, iteratee, options)]. *)
Definition mapDeep (fuel : nat) (v : value) (s : St) : option (value * St) :=
  _mapDeep fuel v [] [] s.

End MapDeep.

(** An iteratee without state of its own, run with a log of its calls. *)
Definition logged (f : value -> list key -> list value -> value)
    (v : value) (keyPath : list key) (stack : list value)
    (log : list (value * list key)) : value * list (value * list key) :=
  (f v keyPath stack, log ++ [(v, keyPath)]).

(** An iteratee that has no state of its own. *)
Definition stateless (f : value -> list key -> list value -> value)
    (v : value) (keyPath : list key) (stack : list value) (s : unit) : value * unit :=
  (f v keyPath stack, s).

(** The options let the iteratee be called on [v]. *)
Definition allowed (opts : options) (v : value) : bool :=
  if isPlainObject v || isArray v then iterateCollections opts else iteratePrimitives opts.

(** A log of calls that continues another with calls that satisfy [P]. *)
Definition extends_with (P : value * list key -> Prop) (log log' : list (value * list key)) : Prop :=
  exists later, log' = log ++ later /\ Forall P later.

(** Nesting depth of a value. *)
Fixpoint depth (v : value) : nat :=
  match v with
  | JArr elems => S (foldr (fun val d => Nat.max (depth val) d) 0 elems)
  | JObj props =>
      S ((fix go (props : list (string * value)) : nat :=
            match props with
            | [] => 0
            | (_, val) :: rest => Nat.max (depth val) (go rest)
            end) props)
  | _ => 0
  end.




Section Paths.
Variable recur : list key -> value -> list (list key).
Variable keyPath : list key.



End Paths.


(** The iteratees of the examples: multiply numbers by ten; replace the value
    at key [y] of the root by the array [[99]]. *)
Definition timesTen (v : value) (keyPath : list key) (stack : list value) : value :=
  match v with
  | JNum n => JNum (n * 10)
  | _ => v
  end.

Definition replaceY (v : value) (keyPath : list key) (stack : list value) : value :=
  match keyPath with
  | [KeyName "y"] => JArr [JNum 99]
  | _ => v
  end.

Definition sampleTree : value :=
  JObj [("x"%string, JNum 1); ("y"%string, JArr [JNum 2; JNum 3])].

End ObjectUtils.

(* ===================================================================== *)
(** ** file-utils: parseMarkdownWithFrontMatter *)
(* ===================================================================== *)

Module FileUtils.

Local Open Scope string_scope.

(** JavaScript strings are modelled by [string]: sequences of characters
    with codes below 256. *)
Definition LF : string := String (ascii_of_nat 10) EmptyString.
Definition CRLF : string := String (ascii_of_nat 13) LF.

(** [s.substring(start)]. *)
Definition substringFrom (start : nat) (s : string) : string :=
  String.substring start (String.length s - start) s.

(** [s.substring(start, end)]: the two indices are swapped when
    [start > end]. *)
Definition substringBetween (start finish : nat) (s : string) : string :=
  let low := Nat.min start finish in
  let high := Nat.max start finish in
  String.substring low (high - low) s.

(** [s.indexOf(pattern)], [None] for -1. *)
Definition indexOf (pattern s : string) : option nat := String.index 0 pattern s.

(** [s.startsWith(pattern)]. *)
Definition startsWith (pattern s : string) : bool := String.prefix pattern s.

(** [s.replace(pattern, replacement)] with a string pattern: the first
    occurrence only. *)
Definition replace (pattern replacement s : string) : string :=
  match indexOf pattern s with
  | Some i =>
      String.substring 0 i s ++ replacement ++ substringFrom (i + String.length pattern) s
  | None => s
  end.

(** White space of a regular expression, among the characters below 256. *)
Definition isSpace (c : ascii) : bool :=
  let n := nat_of_ascii c in
  (((9 <=? n) && (n <=? 13)) || (n =? 32) || (n =? 160))%nat.

(** [s.match(/^\s*?(\n|$)/)]: the length of the matched text, the shortest
    run of white space that ends with a line feed or at the end of [s]. *)
Fixpoint matchAfterEndDelim (s : string) : option nat :=
  match s with
  | EmptyString => Some 0
  | String c rest =>
      if Ascii.eqb c (ascii_of_nat 10) then Some 1
      else if isSpace c then option_map S (matchAfterEndDelim rest)
      else None
  end.

(** A decoder returns a value or throws. *)
Inductive outcome (A : Type) : Type :=
| Returns (a : A)
| Throws (error : value).
Arguments Returns {A} a.
Arguments Throws {A} error.

(** The decoders of js-yaml, @iarna/toml and JSON, which the package
    imports. *)
Record codecs : Type := mkCodecs {
  yaml_load : string -> outcome value;
  toml_parse : string -> outcome value;
  json_parse : string -> outcome value
}.

Record frontMatterType : Type := mkFrontMatterType {
  type : string;
  startDelimiter : string;
  endDelimiter : string;
  parse : string -> outcome value
}.

Definition frontMatterTypes (c : codecs) : list frontMatterType :=
  [ {| type := "yaml"; startDelimiter := "---" ++ LF; endDelimiter := LF ++ "---";
       parse := yaml_load c |};
    {| type := "toml"; startDelimiter := "+++" ++ LF; endDelimiter := LF ++ "+++";
       parse := toml_parse c |};
    {| type := "json"; startDelimiter := "{" ++ LF; endDelimiter := LF ++ "}";
       parse := json_parse c |} ].

Record document : Type := mkDocument {
  frontmatter : value;
  markdown : string
}.

(** The body of the [_.forEach] callback for one front matter type; [doc]
    holds the variables [frontmatter] and [markdown]. *)
Definition tryFrontMatterType (s : string) (fmType : frontMatterType) (doc : document)
  : outcome document :=
  if startsWith (startDelimiter fmType) s then
    match indexOf (endDelimiter fmType) s with
    | Some index =>
        let endDelimEndIndex := index + String.length (endDelimiter fmType) in
        let afterEndDelim := substringFrom endDelimEndIndex s in
        match matchAfterEndDelim afterEndDelim with
        | Some matched =>
            let data := substringBetween (String.length (startDelimiter fmType)) index s in
            match parse fmType data with
            | Returns fm =>
                Returns {| frontmatter := fm; markdown := substringFrom matched afterEndDelim |}
            | Throws error => Throws error
            end
        | None => Returns doc
        end
    | None => Returns doc
    end
  else Returns doc.

(** [_.forEach(frontMatterTypes, ...)]: every type is tried, in order. *)
Fixpoint forEachType (s : string) (fmTypes : list frontMatterType) (doc : document)
  : outcome document :=
  match fmTypes with
  | [] => Returns doc
  | fmType :: rest =>
      match tryFrontMatterType s fmType doc with
      | Returns doc' => forEachType s rest doc'
      | Throws error => Throws error
      end
  end.

Definition parseMarkdownWithFrontMatter (c : codecs) (s : string) : outcome document :=
  let s := replace CRLF LF s in
  forEachType s (frontMatterTypes c) {| frontmatter := JNull; markdown := s |}.

(** A front matter type matches [s]: [s] starts with its start delimiter,
    contains its end delimiter, and the first end delimiter is followed by
    white space up to a line feed or the end of [s]. *)
Definition styleMatches (s : string) (fmType : frontMatterType) : bool :=
  startsWith (startDelimiter fmType) s
  && match indexOf (endDelimiter fmType) s with
     | Some index =>
         bool_decide (is_Some (matchAfterEndDelim
           (substringFrom (index + String.length (endDelimiter fmType)) s)))
     | None => false
     end.

(** The encoders of js-yaml, @iarna/toml and JSON. *)
Record encoders : Type := mkEncoders {
  yaml_dump : value -> outcome string;
  toml_stringify : value -> outcome string;
  json_stringify : value -> outcome string
}.

(** [new Error(message)] and the TypeError of a property read on null or
    undefined. *)
Definition Error (message : string) : value := JObj [("message", JStr message)].
Definition TypeError : value := JObj [("name", JStr "TypeError")].

(** The object [{frontmatter, markdown}] that parseMarkdownWithFrontMatter
    returns. *)
Definition documentValue (doc : document) : value :=
  JObj [("frontmatter", frontmatter doc); ("markdown", JStr (markdown doc))].

(** [parseDataByFilePath(string, filePath)] of file-utils.ts; [extname] is
    [path.extname] of Node. *)
Definition parseDataByFilePath (c : codecs) (extname : string -> string)
    (s filePath : string) : outcome value :=
  let extension := substringFrom 1 (extname filePath) in
  if String.eqb extension "yml" || String.eqb extension "yaml" then yaml_load c s
  else if String.eqb extension "json" then json_parse c s
  else if String.eqb extension "toml" then toml_parse c s
  else if String.eqb extension "md" || String.eqb extension "mdx"
          || String.eqb extension "markdown" then
    match parseMarkdownWithFrontMatter c s with
    | Returns doc => Returns (documentValue doc)
    | Throws error => Throws error
    end
  else Throws (Error ("parseDataByFilePath error, extension '" ++ extension
                      ++ "' of file " ++ filePath ++ " is not supported")).

(** The string a value becomes under [+] with a string, for the values
    whose conversion is modelled. *)
Definition stringOf (v : value) : option string :=
  match v with
  | JStr s => Some s
  | JUndefined => Some "undefined"
  | JNull => Some "null"
  | JBool true => Some "true"
  | JBool false => Some "false"
  | _ => None
  end.

(** [stringifyDataByFilePath(data, filePath)] of file-utils.ts; [None] when
    the conversion of [data.markdown] to a string is not modelled. *)
Definition stringifyDataByFilePath (e : encoders) (extname : string -> string)
    (data : value) (filePath : string) : option (outcome string) :=
  let extension := substringFrom 1 (extname filePath) in
  if String.eqb extension "yml" || String.eqb extension "yaml" then Some (yaml_dump e data)
  else if String.eqb extension "json" then Some (json_stringify e data)
  else if String.eqb extension "toml" then Some (toml_stringify e data)
  else if String.eqb extension "md" || String.eqb extension "mdx"
          || String.eqb extension "markdown" then
    if Lodash.isNil data then Some (Throws TypeError)
    else match yaml_dump e (Lodash.prop data "frontmatter") with
         | Throws error => Some (Throws error)
         | Returns dumped =>
             match stringOf (Lodash.prop data "markdown") with
             | Some body => Some (Returns ("---" ++ LF ++ dumped ++ "---" ++ LF ++ body))
             | None => None
             end
         end
  else Some (Throws (Error ("stringifyDataByFilePath error, extension '" ++ extension
                            ++ "' of file " ++ filePath ++ " is not supported"))).

(** A YAML decoder that knows one document, for the examples. *)
Definition sampleCodecs : codecs :=
  {| yaml_load := fun data =>
       if String.eqb data "title: Hi"
       then Returns (JObj [("title", JStr "Hi")])
       else Throws (JStr "YAMLException");
     toml_parse := fun _ => Throws (JStr "TomlError");
     json_parse := fun _ => Throws (JStr "SyntaxError") |}.

Definition sampleInput : string :=
  "---" ++ LF ++ "title: Hi" ++ LF ++ "---" ++ LF ++ LF ++ "Body text" ++ LF.

(** Encoders for the examples. *)
Definition sampleEncoders : encoders :=
  {| yaml_dump := fun data =>
       match data with
       | JObj [(k, JStr v)] => Returns (k ++ ": " ++ v ++ LF)
       | _ => Throws (JStr "YAMLException")
       end;
     toml_stringify := fun _ => Throws (JStr "TomlError");
     json_stringify := fun _ => Throws (JStr "TypeError") |}.

End FileUtils.

(* ===================================================================== *)
(** ** task-queue *)
(* ===================================================================== *)

Module TaskQueue.

Local Open Scope Z_scope.

(** A submitted job, by its tag. *)
Definition Task : Type := nat.

(** The function stored in [this._runTask]: the method [_runTask] itself,
    or [_runTaskInterval] or [_runTaskLimit] bound to the function they
    guard. *)
Inductive runner : Type :=
| Base
| IntervalGate (runTask : runner)
| LimitGate (runTask : runner).

#[global] Instance runner_eq_dec : EqDecision runner.
Proof. solve_decision. Defined.

(** A timer set with [setTimeout(callback, delay)]; times are in
    milliseconds. *)
Record timer : Type := mkTimer {
  timer_id : nat;
  due : Z;
  callback : runner
}.

#[global] Instance timer_eq_dec : EqDecision timer.
Proof. solve_decision. Defined.

(** History of one start: the task and what [_runTask] found when it
    started it. *)
Record start_record : Type := mkStart {
  started_task : Task;
  runCount_before : Z;
  lastRunTime_before : option Z;
  started_at : Z
}.

(** The queue object, the part of the event loop it depends on (the
    [then] callbacks of running tasks and the timers still set), and the
    history of submissions and starts. *)
Record queue : Type := mkQueue {
  limit : option Z;
  interval : option Z;
  runCount : Z;
  lastRunTime : option Z;
  timeout : option timer;
  taskQueue : list Task;
  _runTask : runner;
  running : list Task;
  timers : list timer;
  nextTimer : nat;
  submitted : list Task;
  started : list start_record
}.

(** [if (n)] for a number or null. *)
Definition truthyNumber (n : option Z) : bool :=
  match n with
  | Some n => negb (n =? 0)
  | None => false
  end.

(** A number or null as an operand of [<], [>=] or [-]. *)
Definition toNumber (n : option Z) : Z := default 0 n.

(** [new TaskQueue({limit, interval})]. *)
Definition constructor (opt_limit opt_interval : option Z) : queue :=
  let r := Base in
  let r := if truthyNumber opt_interval then IntervalGate r else r in
  let r := if truthyNumber opt_limit then LimitGate r else r in
  {| limit := opt_limit; interval := opt_interval;
     runCount := 0; lastRunTime := None; timeout := None; taskQueue := [];
     _runTask := r;
     running := []; timers := []; nextTimer := 0; submitted := []; started := [] |}.

(** The result of running queue code to completion. *)
Inductive result : Type :=
| Ok (q : queue)
| TypeError
| OutOfFuel.

Definition remove_timer (h : timer) (hs : list timer) : list timer :=
  filter (fun h' => timer_id h' <> timer_id h) hs.

(** [if (this.timeout) { clearTimeout(this.timeout); this.timeout = null }]. *)
Definition clear_timeout (q : queue) : queue :=
  match timeout q with
  | None => q
  | Some h =>
      {| limit := limit q; interval := interval q; runCount := runCount q;
         lastRunTime := lastRunTime q; timeout := None; taskQueue := taskQueue q;
         _runTask := _runTask q; running := running q;
         timers := remove_timer h (timers q); nextTimer := nextTimer q;
         submitted := submitted q; started := started q |}
  end.

(** The method [_runTask] up to its last statement: shift the head of the
    queue, clear the timer, count the task as running, note the time and run
    the task.  On an empty queue [task] is undefined and [task.run()] throws. *)
Definition run_head (now : Z) (q : queue) : option queue :=
  match taskQueue q with
  | [] => None
  | task :: rest =>
      let q' := clear_timeout q in
      Some {| limit := limit q'; interval := interval q';
              runCount := runCount q' + 1;
              lastRunTime := Some now;
              timeout := timeout q';
              taskQueue := rest;
              _runTask := _runTask q';
              running := running q' ++ [task];
              timers := timers q'; nextTimer := nextTimer q';
              submitted := submitted q';
              started := started q' ++ [mkStart task (runCount q) (lastRunTime q) now] |}
  end.

(** [this.timeout = setTimeout(runTask, delay)]. *)
Definition set_timeout (runTask : runner) (now delay : Z) (q : queue) : queue :=
  let h := {| timer_id := nextTimer q; due := now + delay; callback := runTask |} in
  {| limit := limit q; interval := interval q; runCount := runCount q;
     lastRunTime := lastRunTime q; timeout := Some h; taskQueue := taskQueue q;
     _runTask := _runTask q; running := running q;
     timers := timers q ++ [h]; nextTimer := S (nextTimer q);
     submitted := submitted q; started := started q |}.

(** Calling a runner at time [now]; [k] is [this._executeNextTask()], the
    last statement of the method [_runTask]. *)
Fixpoint invoke (r : runner) (k : queue -> result) (now : Z) (q : queue) : result :=
  match r with
  | Base =>
      match run_head now q with
      | None => TypeError
      | Some q' => k q'
      end
  | LimitGate runTask =>
      if runCount q <? toNumber (limit q) then invoke runTask k now q else Ok q
  | IntervalGate runTask =>
      match lastRunTime q with
      | None => invoke runTask k now q
      | Some last =>
          match timeout q with
          | Some _ => Ok q
          | None =>
              let diffMs := now - last in
              if diffMs >=? toNumber (interval q) then invoke runTask k now q
              else Ok (set_timeout runTask now (toNumber (interval q) - diffMs) q)
          end
      end
  end.

(** [_executeNextTask()]; [fuel] bounds the nesting of the calls between
    [_executeNextTask] and [_runTask]. *)
Fixpoint _executeNextTask (fuel : nat) (now : Z) (q : queue) : result :=
  match fuel with
  | O => OutOfFuel
  | S fuel' =>
      match taskQueue q with
      | [] => Ok q
      | _ => invoke (_runTask q) (_executeNextTask fuel' now) now q
      end
  end.

(** Each nested call has shifted one task, so one more than the length of
    the queue is enough. *)
Definition enough (q : queue) : nat := S (length (taskQueue q)).

(** [addTask(job, tag)]. *)
Definition addTask (task : Task) (now : Z) (q : queue) : result :=
  let q' :=
    {| limit := limit q; interval := interval q; runCount := runCount q;
       lastRunTime := lastRunTime q; timeout := timeout q;
       taskQueue := taskQueue q ++ [task];
       _runTask := _runTask q; running := running q;
       timers := timers q; nextTimer := nextTimer q;
       submitted := submitted q ++ [task]; started := started q |} in
  _executeNextTask (enough q') now q'.

(** [clearQueue()]. *)
Definition clearQueue (q : queue) : queue :=
  let q' := clear_timeout q in
  {| limit := limit q'; interval := interval q'; runCount := runCount q';
     lastRunTime := lastRunTime q'; timeout := timeout q'; taskQueue := [];
     _runTask := _runTask q'; running := running q';
     timers := timers q'; nextTimer := nextTimer q';
     submitted := submitted q'; started := started q' |}.

Fixpoint remove_task (task : Task) (tasks : list Task) : list Task :=
  match tasks with
  | [] => []
  | t :: rest => if Nat.eqb t task then rest else t :: remove_task task rest
  end.

(** The callback registered by [task.run().then(...)]: the task has
    settled, its slot is free. *)
Definition task_settled (task : Task) (now : Z) (q : queue) : result :=
  let q' :=
    {| limit := limit q; interval := interval q; runCount := runCount q - 1;
       lastRunTime := lastRunTime q; timeout := timeout q; taskQueue := taskQueue q;
       _runTask := _runTask q; running := remove_task task (running q);
       timers := timers q; nextTimer := nextTimer q;
       submitted := submitted q; started := started q |} in
  _executeNextTask (enough q') now q'.

(** A timer fires: it is no longer set, and its callback runs. *)
Definition timer_fired (h : timer) (now : Z) (q : queue) : result :=
  let q' :=
    {| limit := limit q; interval := interval q; runCount := runCount q;
       lastRunTime := lastRunTime q; timeout := timeout q; taskQueue := taskQueue q;
       _runTask := _runTask q; running := running q;
       timers := remove_timer h (timers q); nextTimer := nextTimer q;
       submitted := submitted q; started := started q |} in
  invoke (callback h) (_executeNextTask (enough q') now) now q'.

(** What can happen to a queue: calls of its methods, the settlement of a
    running task, the firing of a timer that is set and due. *)
Inductive event : Type :=
| AddTask (task : Task)
| ClearQueue
| Settled (task : Task)
| Fired (h : timer).

Definition enabled (e : event) (now : Z) (q : queue) : bool :=
  match e with
  | AddTask _ | ClearQueue => true
  | Settled task => bool_decide (task ∈ running q)
  | Fired h => bool_decide (h ∈ timers q) && (due h <=? now)
  end.

Definition step (e : event) (now : Z) (q : queue) : result :=
  match e with
  | AddTask task => addTask task now q
  | ClearQueue => Ok (clearQueue q)
  | Settled task => task_settled task now q
  | Fired h => timer_fired h now q
  end.

(** A history of events with their times, from queue [q]; [None] when an
    event could not happen or the code threw. *)
Fixpoint run_events (es : list (event * Z)) (q : queue) : option queue :=
  match es with
  | [] => Some q
  | (e, now) :: rest =>
      if enabled e now q
      then match step e now q with
           | Ok q' => run_events rest q'
           | _ => None
           end
      else None
  end.

(** The order of the two gates as the documentation words it: the interval
    gate outermost, the limit gate behind it. *)
Definition intervalFirst : runner := IntervalGate (LimitGate Base).

Definition with_runner (r : runner) (q : queue) : queue :=
  {| limit := limit q; interval := interval q; runCount := runCount q;
     lastRunTime := lastRunTime q; timeout := timeout q; taskQueue := taskQueue q;
     _runTask := r; running := running q;
     timers := timers q; nextTimer := nextTimer q;
     submitted := submitted q; started := started q |}.

(** What holds of a queue with a limit and no interval between two events:
    the counter counts the running tasks and stays within the limit, no
    timer is used, and the tasks started followed by the tasks queued are
    tasks submitted, in submission order; a task waits only while the limit
    is reached. *)
Definition limit_invariant (N : Z) (q : queue) : Prop :=
  _runTask q = LimitGate Base
  /\ limit q = Some N
  /\ timeout q = None
  /\ timers q = []
  /\ runCount q = Z.of_nat (length (running q))
  /\ runCount q <= N
  /\ sublist (map started_task (started q) ++ taskQueue q) (submitted q).

Definition limit_reached_when_waiting (N : Z) (q : queue) : Prop :=
  taskQueue q <> [] -> runCount q = N.

(** Both gates let a start through: fewer tasks than the limit were running,
    and no task had been started before or the last start was at least the
    interval ago. *)
Definition gates_passed (L I : Z) (s : start_record) : Prop :=
  runCount_before s < L
  /\ match lastRunTime_before s with
     | None => True
     | Some last => I <= started_at s - last
     end.

(** The timer of a queue with both gates: when one is set it is the only
    one, it will call the method [_runTask], it is due one interval after
    the last start, and a task is waiting for it below the limit. *)
Definition timer_invariant (L I : Z) (q : queue) : Prop :=
  match timeout q with
  | None => timers q = []
  | Some h =>
      timers q = [h]
      /\ callback h = Base
      /\ runCount q < L
      /\ taskQueue q <> []
      /\ exists last, lastRunTime q = Some last /\ due h = last + I
  end.

Definition gates_invariant (L I : Z) (q : queue) : Prop :=
  _runTask q = LimitGate (IntervalGate Base)
  /\ limit q = Some L
  /\ interval q = Some I
  /\ Forall (gates_passed L I) (started q)
  /\ timer_invariant L I q.

(** Consecutive starts are at least [I] milliseconds apart. *)
Definition spaced (I : Z) (starts : list start_record) : Prop :=
  forall k s1 s2,
    starts !! k = Some s1 -> starts !! S k = Some s2 ->
    I <= started_at s2 - started_at s1.

(** What a start found in the counter, given the limit option. *)
Definition started_within (l : option Z) (s : start_record) : Prop :=
  0 <= runCount_before s
  /\ (truthyNumber l = true -> runCount_before s < toNumber l).

(** What holds of the fields and the history of a queue built with the
    options [l] and [i], also in the middle of a call. *)
Definition history_invariant (l i : option Z) (q : queue) : Prop :=
  _runTask q = _runTask (constructor l i)
  /\ limit q = l
  /\ interval q = i
  /\ runCount q = Z.of_nat (length (running q))
  /\ (truthyNumber l = true -> 0 < toNumber l -> runCount q <= toNumber l)
  /\ sublist (map started_task (started q) ++ taskQueue q) (submitted q)
  /\ lastRunTime q = started_at <$> last (started q)
  /\ Forall (started_within l) (started q)
  /\ (truthyNumber i = true -> spaced (toNumber i) (started q)).

(** The timer between two events: at most one is set, by the interval gate,
    for the method [_runTask], one interval after the last start, while a
    task waits below the limit. *)
Definition timer_ok (l i : option Z) (q : queue) : Prop :=
  match timeout q with
  | None => timers q = []
  | Some h =>
      timers q = [h]
      /\ callback h = Base
      /\ truthyNumber i = true
      /\ (truthyNumber l = true -> runCount q < toNumber l)
      /\ taskQueue q <> []
      /\ exists last, lastRunTime q = Some last /\ due h = last + toNumber i
  end.

Definition queue_invariant (l i : option Z) (q : queue) : Prop :=
  history_invariant l i q /\ timer_ok l i q.

(** A task waits only while the limit is reached or a timer is set. *)
Definition waits_for_reason (l : option Z) (q : queue) : Prop :=
  taskQueue q <> [] ->
  (truthyNumber l = true /\ toNumber l <= runCount q) \/ timeout q <> None.

(** From [q] to [q']: no submission, and tasks only moved from the head of
    the queue to the end of the starts. *)
Definition flow (q q' : queue) : Prop :=
  submitted q' = submitted q
  /\ map started_task (started q') ++ taskQueue q'
     = map started_task (started q) ++ taskQueue q.

(** Every submitted task was started or waits, in submission order. *)
Definition all_accounted (q : queue) : Prop :=
  map started_task (started q) ++ taskQueue q = submitted q.

End TaskQueue.

(** * Field paths *)

Module FieldPath.

Local Open Scope string_scope.

(** An element of a field path: a string or a number; the numbers modelled
    are the array indexes. *)
Inductive fieldName : Type :=
| Name (name : string)
| Index (index : N).

(** A character of the class [\w]: a letter, a digit or the underscore. *)
Definition isWordChar (c : ascii) : bool :=
  let n := nat_of_ascii c in
  ((48 <=? n)%nat && (n <=? 57)%nat)
  || ((65 <=? n)%nat && (n <=? 90)%nat)
  || ((97 <=? n)%nat && (n <=? 122)%nat)
  || (n =? 95)%nat.

(** [/\W/.test(fieldName)]. *)
Fixpoint hasNonWordChar (s : string) : bool :=
  match s with
  | EmptyString => false
  | String c rest => negb (isWordChar c) || hasNonWordChar rest
  end.

(** An array index in a template literal. *)
Definition numberToString (n : N) : string := NilZero.string_of_uint (N.to_uint n).

(** The callback of the [_.reduce] in [fieldPathToString]. *)
Definition addFieldName (accumulator : string) (name : fieldName) (index : nat) : string :=
  match name with
  | Name s =>
      if hasNonWordChar s then accumulator ++ "['" ++ s ++ "']"
      else (if (0 <? index)%nat then accumulator ++ "." else accumulator) ++ s
  | Index n => accumulator ++ "[" ++ numberToString n ++ "]"
  end.

(** [_.reduce(array, callback, accumulator)] from element [index] on. *)
Fixpoint reduceFrom (index : nat) (accumulator : string) (fieldPath : list fieldName) : string :=
  match fieldPath with
  | [] => accumulator
  | name :: rest => reduceFrom (S index) (addFieldName accumulator name index) rest
  end.

Definition fieldPathToString (fieldPath : list fieldName) : string :=
  reduceFrom 0 EmptyString fieldPath.

End FieldPath.

(* ===================================================================== *)
(** * Verified properties *)
(* ===================================================================== *)

(** ** promise-utils *)

Section SequentialHelpers.
Import PromiseUtils.
Variable h : helper.
Variable array : list value.

Lemma next_invariant (index : nat) (held : value) (r : run) :
  map inv_index (called r) = seq 0 (length (called r)) ->
  Forall (fun c => array !! inv_index c = Some (inv_value c)) (called r) ->
  length (called r) = index ->
  run_invariant array (next h array index held r).
Proof.
  intros Hidx Hval Hlen. unfold next.
  destruct (index <? length array) eqn:Hlt.
  - apply Nat.ltb_lt in Hlt.
    split; [|split]; simpl.
    + rewrite map_app, length_app, Hidx, Hlen. simpl.
      rewrite Nat.add_1_r, seq_S. reflexivity.
    + apply Forall_app. split; [assumption|].
      constructor; [|constructor]. simpl.
      unfold array_get.
      destruct (lookup_lt_is_Some_2 array index Hlt) as [x Hx].
      rewrite Hx. reflexivity.
    + intros k held' H. inversion H; subst.
      rewrite length_app. simpl. split; [lia|reflexivity].
  - split; [|split]; simpl; try assumption; intros; discriminate.
Qed.

Lemma next_length (index : nat) (held : value) (r : run) :
  length (called (next h array index held r)) <= S (length (called r)).
Proof.
  unfold next. destruct (index <? length array); simpl.
  - rewrite length_app. simpl. lia.
  - lia.
Qed.

Lemma settle_invariant (s : settlement) (r : run) :
  run_invariant array r -> run_invariant array (settle h array s r).
Proof.
  intros (Hidx & Hval & Hwait). unfold settle.
  destruct (waiting r) as [[index held]|] eqn:Hw.
  - destruct (Hwait index held eq_refl) as [Hlen _].
    destruct s as [result|error].
    + destruct (on_then h array index held result).
      * apply next_invariant; try assumption. lia.
      * split; [|split]; simpl; try assumption; intros; discriminate.
    + split; [|split]; simpl; try assumption; intros; discriminate.
  - split; [|split]; try assumption.
    intros k held' H. rewrite Hw in H. discriminate.
Qed.

Lemma settle_length (s : settlement) (r : run) :
  length (called (settle h array s r)) <= S (length (called r)).
Proof.
  unfold settle. destruct (waiting r) as [[index held]|]; [|lia].
  destruct s as [result|error]; simpl; [|lia].
  destruct (on_then h array index held result); simpl; [|lia].
  apply next_length.
Qed.

Lemma deliver_invariant (ss : list settlement) (r : run) :
  run_invariant array r -> run_invariant array (deliver h array ss r).
Proof.
  revert r. induction ss as [|s ss IH]; intros r Hr; [assumption|].
  change (deliver h array (s :: ss) r) with (deliver h array ss (settle h array s r)).
  apply IH, settle_invariant, Hr.
Qed.

Lemma deliver_length (ss : list settlement) (r : run) :
  length (called (deliver h array ss r)) <= length (called r) + length ss.
Proof.
  revert r. induction ss as [|s ss IH]; intros r; [simpl; lia|].
  change (deliver h array (s :: ss) r) with (deliver h array ss (settle h array s r)).
  specialize (IH (settle h array s r)).
  pose proof (settle_length s r). simpl. lia.
Qed.

(** Once nothing is awaited no settlement changes the helper. *)
Lemma deliver_settled (ss : list settlement) (r : run) :
  waiting r = None -> deliver h array ss r = r.
Proof.
  intros Hw. induction ss as [|s ss IH]; [reflexivity|].
  change (deliver h array (s :: ss) r) with (deliver h array ss (settle h array s r)).
  unfold settle. rewrite Hw. exact IH.
Qed.

(** A rejection of the outstanding call rejects the helper and ends the
    calls. *)
Lemma deliver_then_reject (ss later : list settlement) (r : run)
    (calls : list invocation) (k : nat) (held error : value) :
  deliver h array ss r = mkRun calls (Some (k, held)) Pending ->
  deliver h array (ss ++ Rejects error :: later) r = mkRun calls None (Rejected error).
Proof.
  intros H. unfold deliver. rewrite fold_left_app.
  fold (deliver h array ss r). rewrite H.
  change (fold_left (fun r0 s => settle h array s r0) (Rejects error :: later)
            (mkRun calls (Some (k, held)) Pending))
    with (deliver h array later
            (settle h array (Rejects error) (mkRun calls (Some (k, held)) Pending))).
  apply deliver_settled. reflexivity.
Qed.

Lemma start_invariant (held : value) : run_invariant array (start h array held).
Proof.
  unfold start. apply next_invariant; simpl; constructor.
Qed.

Lemma start_length (held : value) : length (called (start h array held)) <= 1.
Proof.
  unfold start. apply (next_length 0 held (mkRun [] None Pending)).
Qed.

Lemma start_sequential (held : value) : sequential h array (start h array held).
Proof.
  intros ss r.
  assert (Hinv : run_invariant array r) by apply deliver_invariant, start_invariant.
  destruct Hinv as (Hidx & Hval & Hwait).
  split; [exact Hidx|]. split; [exact Hval|]. split.
  - pose proof (deliver_length ss (start h array held)).
    pose proof (start_length held). fold r in H. lia.
  - split; [exact Hwait|].
    intros k held' error ss' Hw r'.
    assert (Hr' : r' = {| called := called r; waiting := None; returned := Rejected error |}).
    { unfold r'.
      change (deliver h array (Rejects error :: ss') r)
        with (deliver h array ss' (settle h array (Rejects error) r)).
      unfold settle. rewrite Hw. apply deliver_settled. reflexivity. }
    rewrite Hr'. simpl. repeat split.
    destruct (Hwait k held' Hw) as [Hlen _].
    apply Forall_forall. intros c Hc.
    apply list_elem_of_In, (in_map inv_index) in Hc.
    rewrite Hidx, Hlen in Hc. apply in_seq in Hc. lia.
Qed.

End SequentialHelpers.

(** C8. On an empty array every helper is already resolved when it returns,
    with undefined, the empty array, the initial value and undefined (not
    found) respectively; the callback has not been called, and no later
    settlement changes that. *)
Theorem helpers_on_empty_array (initialValue : value) (ss : list PromiseUtils.settlement) :
  PromiseUtils.deliver PromiseUtils.forEach_helper [] ss (PromiseUtils.forEachPromise [])
    = PromiseUtils.mkRun [] None (PromiseUtils.Fulfilled JUndefined)
  /\ PromiseUtils.deliver PromiseUtils.forEach_legacy_helper [] ss (PromiseUtils.forEachPromise_legacy [])
    = PromiseUtils.mkRun [] None (PromiseUtils.Fulfilled JUndefined)
  /\ PromiseUtils.deliver PromiseUtils.map_helper [] ss (PromiseUtils.mapPromise [])
    = PromiseUtils.mkRun [] None (PromiseUtils.Fulfilled (JArr []))
  /\ PromiseUtils.deliver PromiseUtils.reduce_helper [] ss (PromiseUtils.reducePromise [] initialValue)
    = PromiseUtils.mkRun [] None (PromiseUtils.Fulfilled initialValue)
  /\ PromiseUtils.deliver PromiseUtils.find_helper [] ss (PromiseUtils.findPromise [])
    = PromiseUtils.mkRun [] None (PromiseUtils.Fulfilled JUndefined).
Proof.
  split; [|split; [|split; [|split]]]; apply deliver_settled; reflexivity.
Qed.

Section ForEach.
Import PromiseUtils.
Variable h : helper.
Variable array : list value.
Hypothesis h_end : forall held, on_end h held = JUndefined.
Hypothesis h_plain : passes_accumulator h = false.

Lemma calls_upto_S (n : nat) :
  calls_upto array (S n) = calls_upto array n ++ [mkInvocation None (array_get array n) n].
Proof.
  unfold calls_upto. rewrite seq_S, map_app. reflexivity.
Qed.

Lemma start_at_index : start h array JUndefined = at_index array 0.
Proof.
  unfold start, next, at_index. rewrite h_plain, h_end.
  destruct (0 <? length array) eqn:E; simpl; [reflexivity|].
  apply Nat.ltb_ge in E. replace (length array) with 0 by lia. reflexivity.
Qed.

Lemma settle_at_index (n : nat) (result : value) :
  n < length array ->
  (forall held, on_then h array n held result = Next JUndefined) ->
  settle h array (Resolves result) (at_index array n) = at_index array (S n).
Proof.
  intros Hn Hthen. unfold at_index at 1.
  apply Nat.ltb_lt in Hn as Hn'. rewrite Hn'.
  unfold settle. simpl waiting. cbv iota beta. rewrite Hthen.
  unfold next, at_index. simpl called. rewrite h_plain, h_end.
  replace (n + 1) with (S n) by lia.
  destruct (S n <? length array) eqn:E.
  - rewrite (calls_upto_S (S n)). reflexivity.
  - apply Nat.ltb_ge in E. replace (length array) with (S n) by lia. reflexivity.
Qed.

Lemma deliver_at_index (results : list value) (n : nat) :
  n + length results <= length array ->
  (forall i held result, result ∈ results -> on_then h array i held result = Next JUndefined) ->
  deliver h array (map Resolves results) (at_index array n)
    = at_index array (n + length results).
Proof.
  revert n. induction results as [|result results IH]; intros n Hlen Hthen.
  - simpl. rewrite Nat.add_0_r. reflexivity.
  - simpl length in *.
    change (deliver h array (map Resolves (result :: results)) (at_index array n))
      with (deliver h array (map Resolves results)
              (settle h array (Resolves result) (at_index array n))).
    rewrite settle_at_index; [|lia|intros; apply Hthen; left].
    rewrite IH; [f_equal; lia|lia|].
    intros i held v Hv. apply Hthen. right. exact Hv.
Qed.

Lemma at_index_end : at_index array (length array)
  = {| called := calls_upto array (length array); waiting := None; returned := Fulfilled JUndefined |}.
Proof.
  unfold at_index. rewrite Nat.ltb_irrefl. reflexivity.
Qed.

Lemma at_index_pending (n : nat) : n < length array -> returned (at_index array n) = Pending.
Proof.
  intros Hn. unfold at_index. apply Nat.ltb_lt in Hn. rewrite Hn. reflexivity.
Qed.

Lemma forEach_processes_all (results : list value) :
  length results = length array ->
  (forall i held result, result ∈ results -> on_then h array i held result = Next JUndefined) ->
  let r := deliver h array (map Resolves results) (start h array JUndefined) in
  called r = calls_upto array (length array)
  /\ returned r = Fulfilled JUndefined
  /\ (forall n, n < length array ->
        returned (deliver h array (map Resolves (take n results)) (start h array JUndefined)) = Pending).
Proof.
  intros Hlen Hthen r. unfold r. rewrite start_at_index.
  rewrite deliver_at_index; [|lia|exact Hthen].
  simpl. rewrite Hlen, at_index_end. simpl. split; [reflexivity|]. split; [reflexivity|].
  intros n Hn.
  rewrite deliver_at_index.
  - rewrite length_take. apply at_index_pending. lia.
  - rewrite length_take. lia.
  - intros i held v Hv. apply Hthen.
    apply elem_of_take in Hv as (j & Hj & _). eapply list_elem_of_lookup_2, Hj.
Qed.

End ForEach.

(** C4, as stated, fails for the forEachPromise of promise-utils.ts: a
    callback that resolves with [false] on the first of two elements ends the
    iteration, and the second element is never processed. *)
Lemma forEachPromise_false_skips_elements :
  ~ PromiseUtils.processes_every_element PromiseUtils.forEach_helper PromiseUtils.forEachPromise.
Proof.
  intros Hclaim.
  destruct (Hclaim [JNum 1; JNum 2] [JBool false; JNum 0] eq_refl) as [Hcalled _].
  vm_compute in Hcalled. discriminate Hcalled.
Qed.

(** C4, amended. When all the callback's promises resolve with values other
    than [false], forEachPromise calls the callback once per element, in
    order, drops the results and resolves with undefined after the last
    element only; a result that is exactly [false] resolves it at once, the
    remaining elements unprocessed; the earlier forEachPromise of index.js
    processes every element whatever the results are. *)
Theorem forEachPromise_processes_all_unless_false (array results : list value) :
  Forall (fun v => is_false v = false) results ->
  (length results = length array ->
     let r := PromiseUtils.deliver PromiseUtils.forEach_helper array
                (map PromiseUtils.Resolves results) (PromiseUtils.forEachPromise array) in
     PromiseUtils.called r = PromiseUtils.calls_upto array (length array)
     /\ PromiseUtils.returned r = PromiseUtils.Fulfilled JUndefined
     /\ (forall n, n < length array ->
           PromiseUtils.returned
             (PromiseUtils.deliver PromiseUtils.forEach_helper array
                (map PromiseUtils.Resolves (take n results)) (PromiseUtils.forEachPromise array))
           = PromiseUtils.Pending))
  /\ (length results < length array ->
        PromiseUtils.deliver PromiseUtils.forEach_helper array
          (map PromiseUtils.Resolves (results ++ [JBool false])) (PromiseUtils.forEachPromise array)
        = PromiseUtils.mkRun (PromiseUtils.calls_upto array (S (length results))) None
            (PromiseUtils.Fulfilled JUndefined))
  /\ PromiseUtils.processes_every_element PromiseUtils.forEach_legacy_helper
       PromiseUtils.forEachPromise_legacy.
Proof.
  intros Hnonfalse.
  assert (Hthen : forall (i : nat) (held result : value), result ∈ results ->
            PromiseUtils.on_then PromiseUtils.forEach_helper array i held result
            = PromiseUtils.Next JUndefined).
  { intros i held v Hv. simpl.
    rewrite Forall_forall in Hnonfalse. rewrite (Hnonfalse v Hv). reflexivity. }
  split; [|split].
  - intros Hlen. apply forEach_processes_all; auto.
  - intros Hlen. unfold PromiseUtils.forEachPromise.
    rewrite start_at_index by reflexivity.
    rewrite map_app. unfold PromiseUtils.deliver. rewrite fold_left_app.
    fold (PromiseUtils.deliver PromiseUtils.forEach_helper array
            (map PromiseUtils.Resolves results) (PromiseUtils.at_index array 0)).
    rewrite deliver_at_index; [|reflexivity|reflexivity|simpl; lia|exact Hthen].
    simpl. unfold PromiseUtils.at_index.
    apply Nat.ltb_lt in Hlen. rewrite Hlen. reflexivity.
  - intros array' results' Hlen. apply forEach_processes_all; auto.
Qed.

Lemma forEachPromise_processes_all_unless_false_witness :
  let array := [JStr "a"; JStr "b"] in
  PromiseUtils.returned
    (PromiseUtils.deliver PromiseUtils.forEach_helper array
       (map PromiseUtils.Resolves [JNum 0; JNull]) (PromiseUtils.forEachPromise array))
  = PromiseUtils.Fulfilled JUndefined.
Proof.
  intros array.
  assert (Hnonfalse : Forall (fun v => is_false v = false) [JNum 0; JNull])
    by (repeat constructor).
  destruct (forEachPromise_processes_all_unless_false array [JNum 0; JNull] Hnonfalse)
    as [Hall _].
  destruct (Hall eq_refl) as (_ & Hreturned & _). exact Hreturned.
Defined.

(** ** promise-utils: what the helpers resolve with *)

Section HelperResults.
Import PromiseUtils.
Variable array : list value.

Lemma mapPromise_map_at : mapPromise array = map_at array [].
Proof.
  unfold mapPromise, start, next, map_at. simpl.
  destruct (0 <? length array) eqn:E; [reflexivity|].
  apply Nat.ltb_ge in E. replace (length array) with 0 by lia. reflexivity.
Qed.

Lemma array_set_end (done : list value) (v : value) :
  array_set done (length done) v = done ++ [v].
Proof.
  unfold array_set. rewrite Nat.ltb_irrefl, Nat.sub_diag. reflexivity.
Qed.

Lemma settle_map_at (done : list value) (result : value) :
  length done < length array ->
  settle map_helper array (Resolves result) (map_at array done)
  = map_at array (done ++ [result]).
Proof.
  intros Hlt. unfold map_at at 1. apply Nat.ltb_lt in Hlt as Hlt'. rewrite Hlt'.
  unfold settle. simpl waiting. cbv iota beta. simpl on_then.
  rewrite array_set_end. unfold next, map_at. simpl called. simpl passes_accumulator.
  rewrite length_app. simpl length. replace (length done + 1) with (S (length done)) by lia.
  destruct (S (length done) <? length array) eqn:E.
  - rewrite (calls_upto_S array (S (length done))). reflexivity.
  - apply Nat.ltb_ge in E. replace (length array) with (S (length done)) by lia. reflexivity.
Qed.

Lemma deliver_map_at (results : list value) :
  forall done : list value,
    length done + length results <= length array ->
    deliver map_helper array (map Resolves results) (map_at array done)
    = map_at array (done ++ results).
Proof.
  induction results as [|result results IH]; intros done Hlen.
  - rewrite app_nil_r. reflexivity.
  - simpl length in Hlen.
    change (deliver map_helper array (map Resolves (result :: results)) (map_at array done))
      with (deliver map_helper array (map Resolves results)
              (settle map_helper array (Resolves result) (map_at array done))).
    rewrite settle_map_at by lia.
    rewrite IH by (rewrite length_app; simpl; lia).
    rewrite <- app_assoc. reflexivity.
Qed.

Lemma reducePromise_reduce_at (initialValue : value) :
  reducePromise array initialValue = reduce_at array initialValue [].
Proof.
  unfold reducePromise, start, next, reduce_at. simpl.
  destruct (0 <? length array) eqn:E; [reflexivity|].
  apply Nat.ltb_ge in E. replace (length array) with 0 by lia. reflexivity.
Qed.

Lemma reduce_calls_snoc (accumulators : list value) (accumulator : value) :
  reduce_calls array (accumulators ++ [accumulator])
  = reduce_calls array accumulators
    ++ [mkInvocation (Some accumulator) (array_get array (length accumulators))
          (length accumulators)].
Proof.
  unfold reduce_calls. rewrite imap_app. simpl. rewrite Nat.add_0_r. reflexivity.
Qed.

Lemma settle_reduce_at (initialValue : value) (results : list value) (result : value) :
  length results < length array ->
  settle reduce_helper array (Resolves result) (reduce_at array initialValue results)
  = reduce_at array initialValue (results ++ [result]).
Proof.
  intros Hlt. unfold reduce_at at 1. apply Nat.ltb_lt in Hlt as Hlt'. rewrite Hlt'.
  unfold settle. simpl waiting. cbv iota beta. simpl on_then.
  unfold next, reduce_at. simpl called. simpl passes_accumulator.
  rewrite last_snoc. simpl default.
  rewrite length_app. simpl length. replace (length results + 1) with (S (length results)) by lia.
  destruct (S (length results) <? length array) eqn:E.
  - change (initialValue :: results ++ [result]) with ((initialValue :: results) ++ [result]).
    rewrite reduce_calls_snoc. reflexivity.
  - apply Nat.ltb_ge in E. simpl on_end.
    replace (length array) with (S (length results)) by lia.
    rewrite firstn_cons, take_app_length. reflexivity.
Qed.

Lemma deliver_reduce_at (initialValue : value) (results : list value) :
  forall done : list value,
    length done + length results <= length array ->
    deliver reduce_helper array (map Resolves results) (reduce_at array initialValue done)
    = reduce_at array initialValue (done ++ results).
Proof.
  induction results as [|result results IH]; intros done Hlen.
  - rewrite app_nil_r. reflexivity.
  - simpl length in Hlen.
    change (deliver reduce_helper array (map Resolves (result :: results))
              (reduce_at array initialValue done))
      with (deliver reduce_helper array (map Resolves results)
              (settle reduce_helper array (Resolves result)
                 (reduce_at array initialValue done))).
    rewrite settle_reduce_at by lia.
    rewrite IH by (rewrite length_app; simpl; lia).
    rewrite <- app_assoc. reflexivity.
Qed.

End HelperResults.

(** C3. forEachPromise (both versions), mapPromise, findPromise and
    reducePromise call the callback in index order, one call at a time.
    When the callback's promises for the indices below k have resolved (for
    forEachPromise of promise-utils.ts with values other than false, for
    findPromise with falsy values; any other value ends these two), the
    helper has made exactly the calls for the indices 0 to k, each on its
    own element, and is pending on the call for index k: the call for an
    index is made when the promise of the call before it has resolved, not
    earlier.  When the promise of the call at index k then rejects, the
    helper rejects with the same error and makes no further call, whatever
    settles later.  For every sequence of settlements, also those that end
    a helper early, the calls are for the indices 0, 1, 2, ... in order and
    at most one call is outstanding. *)
Theorem sequential_helpers_in_order_and_fail_fast
    (array results : list value) (initialValue error : value)
    (later : list PromiseUtils.settlement) :
  length results < length array ->
  let k := length results in
  let resolved := map PromiseUtils.Resolves results in
  let rejected := resolved ++ PromiseUtils.Rejects error :: later in
  (PromiseUtils.deliver PromiseUtils.forEach_legacy_helper array resolved
     (PromiseUtils.forEachPromise_legacy array)
   = PromiseUtils.mkRun (PromiseUtils.calls_upto array (S k)) (Some (k, JUndefined))
       PromiseUtils.Pending
   /\ PromiseUtils.deliver PromiseUtils.forEach_legacy_helper array rejected
        (PromiseUtils.forEachPromise_legacy array)
      = PromiseUtils.mkRun (PromiseUtils.calls_upto array (S k)) None
          (PromiseUtils.Rejected error))
  /\ (Forall (fun v => is_false v = false) results ->
      PromiseUtils.deliver PromiseUtils.forEach_helper array resolved
        (PromiseUtils.forEachPromise array)
      = PromiseUtils.mkRun (PromiseUtils.calls_upto array (S k)) (Some (k, JUndefined))
          PromiseUtils.Pending
      /\ PromiseUtils.deliver PromiseUtils.forEach_helper array rejected
           (PromiseUtils.forEachPromise array)
         = PromiseUtils.mkRun (PromiseUtils.calls_upto array (S k)) None
             (PromiseUtils.Rejected error))
  /\ (PromiseUtils.deliver PromiseUtils.map_helper array resolved
        (PromiseUtils.mapPromise array)
      = PromiseUtils.mkRun (PromiseUtils.calls_upto array (S k)) (Some (k, JArr results))
          PromiseUtils.Pending
      /\ PromiseUtils.deliver PromiseUtils.map_helper array rejected
           (PromiseUtils.mapPromise array)
         = PromiseUtils.mkRun (PromiseUtils.calls_upto array (S k)) None
             (PromiseUtils.Rejected error))
  /\ (Forall (fun v => truthy v = false) results ->
      PromiseUtils.deliver PromiseUtils.find_helper array resolved
        (PromiseUtils.findPromise array)
      = PromiseUtils.mkRun (PromiseUtils.calls_upto array (S k)) (Some (k, JUndefined))
          PromiseUtils.Pending
      /\ PromiseUtils.deliver PromiseUtils.find_helper array rejected
           (PromiseUtils.findPromise array)
         = PromiseUtils.mkRun (PromiseUtils.calls_upto array (S k)) None
             (PromiseUtils.Rejected error))
  /\ (PromiseUtils.deliver PromiseUtils.reduce_helper array resolved
        (PromiseUtils.reducePromise array initialValue)
      = PromiseUtils.mkRun (PromiseUtils.reduce_calls array (initialValue :: results))
          (Some (k, default initialValue (last results))) PromiseUtils.Pending
      /\ PromiseUtils.deliver PromiseUtils.reduce_helper array rejected
           (PromiseUtils.reducePromise array initialValue)
         = PromiseUtils.mkRun (PromiseUtils.reduce_calls array (initialValue :: results)) None
             (PromiseUtils.Rejected error))
  /\ (PromiseUtils.sequential PromiseUtils.forEach_helper array
        (PromiseUtils.forEachPromise array)
      /\ PromiseUtils.sequential PromiseUtils.forEach_legacy_helper array
           (PromiseUtils.forEachPromise_legacy array)
      /\ PromiseUtils.sequential PromiseUtils.map_helper array (PromiseUtils.mapPromise array)
      /\ PromiseUtils.sequential PromiseUtils.find_helper array (PromiseUtils.findPromise array)
      /\ PromiseUtils.sequential PromiseUtils.reduce_helper array
           (PromiseUtils.reducePromise array initialValue)).
Proof.
  intros Hlt k resolved rejected.
  assert (Hltb : (k <? length array) = true) by (apply Nat.ltb_lt; exact Hlt).
  assert (Hforeach : forall h : PromiseUtils.helper,
            (forall held, PromiseUtils.on_end h held = JUndefined) ->
            PromiseUtils.passes_accumulator h = false ->
            (forall (i : nat) (held result : value), result ∈ results ->
               PromiseUtils.on_then h array i held result = PromiseUtils.Next JUndefined) ->
            PromiseUtils.deliver h array resolved (PromiseUtils.start h array JUndefined)
            = PromiseUtils.mkRun (PromiseUtils.calls_upto array (S k)) (Some (k, JUndefined))
                PromiseUtils.Pending).
  { intros h Hend Hplain Hthen. unfold resolved.
    rewrite (start_at_index h array Hend Hplain).
    rewrite (deliver_at_index h array Hend Hplain results 0); [|simpl; lia|exact Hthen].
    simpl Nat.add. unfold PromiseUtils.at_index. fold k. rewrite Hltb. reflexivity. }
  split; [|split; [|split; [|split; [|split]]]].
  - assert (H : PromiseUtils.deliver PromiseUtils.forEach_legacy_helper array resolved
                  (PromiseUtils.forEachPromise_legacy array)
                = PromiseUtils.mkRun (PromiseUtils.calls_upto array (S k))
                    (Some (k, JUndefined)) PromiseUtils.Pending).
    { apply Hforeach; reflexivity. }
    split; [exact H|]. apply (deliver_then_reject _ _ _ _ _ _ _ _ _ H).
  - intros Hnonfalse.
    assert (H : PromiseUtils.deliver PromiseUtils.forEach_helper array resolved
                  (PromiseUtils.forEachPromise array)
                = PromiseUtils.mkRun (PromiseUtils.calls_upto array (S k))
                    (Some (k, JUndefined)) PromiseUtils.Pending).
    { apply Hforeach; [reflexivity|reflexivity|].
      intros i held v Hv. simpl.
      rewrite Forall_forall in Hnonfalse. rewrite (Hnonfalse v Hv). reflexivity. }
    split; [exact H|]. apply (deliver_then_reject _ _ _ _ _ _ _ _ _ H).
  - assert (H : PromiseUtils.deliver PromiseUtils.map_helper array resolved
                  (PromiseUtils.mapPromise array)
                = PromiseUtils.mkRun (PromiseUtils.calls_upto array (S k))
                    (Some (k, JArr results)) PromiseUtils.Pending).
    { unfold resolved. rewrite mapPromise_map_at, deliver_map_at by (simpl; lia).
      simpl app. unfold PromiseUtils.map_at. fold k. rewrite Hltb. reflexivity. }
    split; [exact H|]. apply (deliver_then_reject _ _ _ _ _ _ _ _ _ H).
  - intros Hfalsy.
    assert (H : PromiseUtils.deliver PromiseUtils.find_helper array resolved
                  (PromiseUtils.findPromise array)
                = PromiseUtils.mkRun (PromiseUtils.calls_upto array (S k))
                    (Some (k, JUndefined)) PromiseUtils.Pending).
    { apply Hforeach; [reflexivity|reflexivity|].
      intros i held v Hv. simpl.
      rewrite Forall_forall in Hfalsy. rewrite (Hfalsy v Hv). reflexivity. }
    split; [exact H|]. apply (deliver_then_reject _ _ _ _ _ _ _ _ _ H).
  - assert (H : PromiseUtils.deliver PromiseUtils.reduce_helper array resolved
                  (PromiseUtils.reducePromise array initialValue)
                = PromiseUtils.mkRun
                    (PromiseUtils.reduce_calls array (initialValue :: results))
                    (Some (k, default initialValue (last results))) PromiseUtils.Pending).
    { unfold resolved. rewrite reducePromise_reduce_at, deliver_reduce_at by (simpl; lia).
      simpl app. unfold PromiseUtils.reduce_at. fold k. rewrite Hltb. reflexivity. }
    split; [exact H|]. apply (deliver_then_reject _ _ _ _ _ _ _ _ _ H).
  - split; [|split; [|split; [|split]]]; apply start_sequential.
Qed.

Lemma sequential_helpers_in_order_and_fail_fast_witness :
  let array := [JStr "a"; JStr "b"; JStr "c"] in
  let settlements := [PromiseUtils.Resolves (JNum 0); PromiseUtils.Rejects (JStr "boom");
                      PromiseUtils.Resolves (JNum 3)] in
  PromiseUtils.deliver PromiseUtils.find_helper array settlements
    (PromiseUtils.findPromise array)
  = PromiseUtils.mkRun
      [PromiseUtils.mkInvocation None (JStr "a") 0; PromiseUtils.mkInvocation None (JStr "b") 1]
      None (PromiseUtils.Rejected (JStr "boom"))
  /\ PromiseUtils.deliver PromiseUtils.reduce_helper array settlements
       (PromiseUtils.reducePromise array (JNum 10))
     = PromiseUtils.mkRun
         [PromiseUtils.mkInvocation (Some (JNum 10)) (JStr "a") 0;
          PromiseUtils.mkInvocation (Some (JNum 0)) (JStr "b") 1]
         None (PromiseUtils.Rejected (JStr "boom"))
  /\ PromiseUtils.deliver PromiseUtils.map_helper array settlements
       (PromiseUtils.mapPromise array)
     = PromiseUtils.mkRun
         [PromiseUtils.mkInvocation None (JStr "a") 0; PromiseUtils.mkInvocation None (JStr "b") 1]
         None (PromiseUtils.Rejected (JStr "boom"))
  /\ PromiseUtils.deliver PromiseUtils.forEach_helper array settlements
       (PromiseUtils.forEachPromise array)
     = PromiseUtils.mkRun
         [PromiseUtils.mkInvocation None (JStr "a") 0; PromiseUtils.mkInvocation None (JStr "b") 1]
         None (PromiseUtils.Rejected (JStr "boom")).
Proof.
  intros array settlements.
  destruct (sequential_helpers_in_order_and_fail_fast array [JNum 0] (JNum 10) (JStr "boom")
              [PromiseUtils.Resolves (JNum 3)])
    as (_ & Hforeach & [_ Hmap] & Hfind & [_ Hreduce] & _); [simpl; lia|].
  destruct Hfind as [_ Hfind]; [repeat constructor|].
  destruct Hforeach as [_ Hforeach]; [repeat constructor|].
  split; [exact Hfind|]. split; [exact Hreduce|]. split; [exact Hmap|exact Hforeach].
Defined.

(** X1. When the callback's promises all resolve, mapPromise resolves with
    the array of the resolved values, in index order and as long as the
    input; it is pending, holding the values received so far, until the last
    one arrives. *)
Theorem mapPromise_collects_results (array results : list value) :
  length results <= length array ->
  let r := PromiseUtils.deliver PromiseUtils.map_helper array
             (map PromiseUtils.Resolves results) (PromiseUtils.mapPromise array) in
  PromiseUtils.called r
  = PromiseUtils.calls_upto array (Nat.min (S (length results)) (length array))
  /\ (length results = length array ->
        PromiseUtils.returned r = PromiseUtils.Fulfilled (JArr results))
  /\ (length results < length array ->
        PromiseUtils.returned r = PromiseUtils.Pending
        /\ PromiseUtils.waiting r = Some (length results, JArr results)).
Proof.
  intros Hlen r. unfold r.
  rewrite mapPromise_map_at, deliver_map_at by (simpl; lia). simpl app.
  unfold PromiseUtils.map_at.
  destruct (length results <? length array) eqn:E.
  - apply Nat.ltb_lt in E.
    cbn [PromiseUtils.called PromiseUtils.returned PromiseUtils.waiting].
    replace (Nat.min (S (length results)) (length array)) with (S (length results)) by lia.
    split; [reflexivity|]. split; [lia|]. intros _. split; reflexivity.
  - apply Nat.ltb_ge in E.
    cbn [PromiseUtils.called PromiseUtils.returned PromiseUtils.waiting].
    replace (Nat.min (S (length results)) (length array)) with (length array) by lia.
    split; [reflexivity|]. split; [reflexivity|lia].
Qed.

Lemma mapPromise_collects_results_witness :
  PromiseUtils.returned
    (PromiseUtils.deliver PromiseUtils.map_helper [JNum 1; JNum 2]
       (map PromiseUtils.Resolves [JStr "a"; JStr "b"])
       (PromiseUtils.mapPromise [JNum 1; JNum 2]))
  = PromiseUtils.Fulfilled (JArr [JStr "a"; JStr "b"]).
Proof.
  destruct (mapPromise_collects_results [JNum 1; JNum 2] [JStr "a"; JStr "b"])
    as (_ & Hall & _); [simpl; lia|].
  apply Hall. reflexivity.
Defined.

(** X2. reducePromise threads the accumulator: the first call receives the
    initial value, every later call the value the previous call resolved
    with, and when the callback has resolved for every element the helper
    resolves with the last of these values. *)
Theorem reducePromise_threads_accumulator (array results : list value) (initialValue : value) :
  length results <= length array ->
  let r := PromiseUtils.deliver PromiseUtils.reduce_helper array
             (map PromiseUtils.Resolves results)
             (PromiseUtils.reducePromise array initialValue) in
  PromiseUtils.called r
  = PromiseUtils.reduce_calls array (take (length array) (initialValue :: results))
  /\ (length results = length array ->
        PromiseUtils.returned r
        = PromiseUtils.Fulfilled (default initialValue (last results)))
  /\ (length results < length array -> PromiseUtils.returned r = PromiseUtils.Pending).
Proof.
  intros Hlen r. unfold r.
  rewrite reducePromise_reduce_at, deliver_reduce_at by (simpl; lia). simpl app.
  unfold PromiseUtils.reduce_at.
  destruct (length results <? length array) eqn:E.
  - apply Nat.ltb_lt in E. simpl PromiseUtils.called. simpl PromiseUtils.returned.
    rewrite take_ge by (simpl; lia).
    split; [reflexivity|]. split; [lia|reflexivity].
  - apply Nat.ltb_ge in E. simpl PromiseUtils.called. simpl PromiseUtils.returned.
    split; [reflexivity|]. split; [reflexivity|lia].
Qed.

Lemma reducePromise_threads_accumulator_witness :
  let r := PromiseUtils.deliver PromiseUtils.reduce_helper [JStr "x"; JStr "y"]
             (map PromiseUtils.Resolves [JNum 1; JNum 2])
             (PromiseUtils.reducePromise [JStr "x"; JStr "y"] (JNum 0)) in
  map PromiseUtils.inv_accumulator (PromiseUtils.called r) = [Some (JNum 0); Some (JNum 1)]
  /\ PromiseUtils.returned r = PromiseUtils.Fulfilled (JNum 2).
Proof.
  intros r.
  destruct (reducePromise_threads_accumulator [JStr "x"; JStr "y"] [JNum 1; JNum 2] (JNum 0))
    as (Hcalled & Hall & _); [simpl; lia|].
  split; [fold r in Hcalled; rewrite Hcalled; reflexivity|].
  apply Hall. reflexivity.
Defined.

(** X3. findPromise resolves with the first element for which the callback
    resolves with a truthy value and calls the callback for no later
    element; when the callback resolves with a falsy value for every element
    it resolves with undefined. *)
Theorem findPromise_first_truthy (array falsy : list value) :
  Forall (fun v => truthy v = false) falsy ->
  (forall hit later,
     truthy hit = true ->
     length falsy < length array ->
     PromiseUtils.deliver PromiseUtils.find_helper array
       (map PromiseUtils.Resolves (falsy ++ hit :: later)) (PromiseUtils.findPromise array)
     = PromiseUtils.mkRun (PromiseUtils.calls_upto array (S (length falsy))) None
         (PromiseUtils.Fulfilled (array_get array (length falsy))))
  /\ (length falsy = length array ->
        PromiseUtils.deliver PromiseUtils.find_helper array
          (map PromiseUtils.Resolves falsy) (PromiseUtils.findPromise array)
        = PromiseUtils.mkRun (PromiseUtils.calls_upto array (length array)) None
            (PromiseUtils.Fulfilled JUndefined)).
Proof.
  intros Hfalsy.
  assert (Hthen : forall (i : nat) (held result : value), result ∈ falsy ->
            PromiseUtils.on_then PromiseUtils.find_helper array i held result
            = PromiseUtils.Next JUndefined).
  { intros i held v Hv. simpl.
    rewrite Forall_forall in Hfalsy. rewrite (Hfalsy v Hv). reflexivity. }
  split.
  - intros hit later Hhit Hlen. unfold PromiseUtils.findPromise.
    rewrite start_at_index by reflexivity.
    rewrite map_app. unfold PromiseUtils.deliver. rewrite fold_left_app.
    fold (PromiseUtils.deliver PromiseUtils.find_helper array
            (map PromiseUtils.Resolves falsy) (PromiseUtils.at_index array 0)).
    rewrite deliver_at_index; [|reflexivity|reflexivity|simpl; lia|exact Hthen].
    simpl Nat.add.
    change (fold_left _ (map PromiseUtils.Resolves (hit :: later)) ?r)
      with (PromiseUtils.deliver PromiseUtils.find_helper array
              (map PromiseUtils.Resolves later)
              (PromiseUtils.settle PromiseUtils.find_helper array
                 (PromiseUtils.Resolves hit) r)).
    unfold PromiseUtils.at_index. apply Nat.ltb_lt in Hlen. rewrite Hlen.
    unfold PromiseUtils.settle. simpl. rewrite Hhit.
    apply deliver_settled. reflexivity.
  - intros Hlen. unfold PromiseUtils.findPromise.
    rewrite start_at_index by reflexivity.
    rewrite deliver_at_index; [|reflexivity|reflexivity|simpl; lia|exact Hthen].
    simpl Nat.add. rewrite Hlen. apply at_index_end.
Qed.

Lemma findPromise_first_truthy_witness :
  PromiseUtils.deliver PromiseUtils.find_helper [JStr "a"; JStr "b"; JStr "c"]
    (map PromiseUtils.Resolves [JBool false; JNum 7])
    (PromiseUtils.findPromise [JStr "a"; JStr "b"; JStr "c"])
  = PromiseUtils.mkRun (PromiseUtils.calls_upto [JStr "a"; JStr "b"; JStr "c"] 2) None
      (PromiseUtils.Fulfilled (JStr "b")).
Proof.
  assert (Hfalsy : Forall (fun v => truthy v = false) [JBool false]) by (repeat constructor).
  destruct (findPromise_first_truthy [JStr "a"; JStr "b"; JStr "c"] [JBool false] Hfalsy)
    as [Hhit _].
  apply (Hhit (JNum 7) []); [reflexivity|simpl; lia].
Defined.

(** ** object-utils: getFirst *)

Lemma first_rejectUndefined_cons (v : value) (vs : list value) :
  Lodash.first (Lodash.rejectUndefined (v :: vs))
  = if isUndefined v then Lodash.first (Lodash.rejectUndefined vs) else v.
Proof.
  unfold Lodash.rejectUndefined. rewrite filter_cons.
  destruct (isUndefined v) eqn:E.
  - rewrite decide_False by discriminate. reflexivity.
  - rewrite decide_True by reflexivity. reflexivity.
Qed.

Lemma first_rejectUndefined_defined (vs : list value) :
  isUndefined (Lodash.first (Lodash.rejectUndefined vs)) = true ->
  Lodash.first (Lodash.rejectUndefined vs) = JUndefined.
Proof.
  destruct (Lodash.first (Lodash.rejectUndefined vs)); simpl; intros H;
    first [reflexivity | discriminate H].
Qed.

(** C10. getFirst returns the value at the first path of the list that does
    not resolve to undefined in the object, and the default value (undefined
    when none is passed) when every path resolves to undefined, in particular
    for an empty list. *)
Theorem getFirst_first_defined_or_default
    (object : value) (paths : list Lodash.path) (defaultValue : option value) :
  ObjectUtils.getFirst object paths defaultValue
  = match find (fun p => negb (isUndefined (Lodash.get object p))) paths with
    | Some p => Lodash.get object p
    | None => default JUndefined defaultValue
    end
  /\ ObjectUtils.getFirst object [] defaultValue = default JUndefined defaultValue
  /\ ObjectUtils.getFirst object [] None = JUndefined.
Proof.
  split; [|split; reflexivity].
  unfold ObjectUtils.getFirst, Lodash.at_.
  induction paths as [|p paths IH]; [reflexivity|].
  rewrite map_cons, first_rejectUndefined_cons. simpl find.
  destruct (isUndefined (Lodash.get object p)) eqn:E; simpl negb; cbv iota.
  - exact IH.
  - rewrite E. reflexivity.
Qed.

(** ** object-utils: copy and copyIfNotSet *)

Lemma assoc_assoc_set (key : string) (v : value) (props : list (string * value)) :
  Lodash.assoc key (Lodash.assoc_set key v props) = Some v.
Proof.
  induction props as [|[k w] props IH]; simpl.
  - rewrite String.eqb_refl. reflexivity.
  - destruct (String.eqb k key) eqn:E; simpl; rewrite E; [reflexivity|exact IH].
Qed.

Lemma assoc_set_same (key : string) (v : value) (props : list (string * value)) :
  Lodash.assoc key props = Some v -> Lodash.assoc_set key v props = props.
Proof.
  induction props as [|[k w] props IH]; simpl; [discriminate|].
  destruct (String.eqb k key) eqn:E.
  - intros [= ->]. reflexivity.
  - intros H. rewrite IH by exact H. reflexivity.
Qed.

Lemma array_set_lookup (elems : list value) (i : nat) (v : value) :
  array_set elems i v !! i = Some v.
Proof.
  unfold array_set. destruct (i <? length elems) eqn:E.
  - apply Nat.ltb_lt in E. apply list_lookup_insert_eq. exact E.
  - apply Nat.ltb_ge in E.
    rewrite lookup_app_r by exact E.
    rewrite lookup_app_r by (rewrite length_replicate; lia).
    rewrite length_replicate. replace (i - length elems - (i - length elems)) with 0 by lia.
    reflexivity.
Qed.

Lemma array_set_same (elems : list value) (i : nat) (v : value) :
  elems !! i = Some v -> array_set elems i v = elems.
Proof.
  intros H. unfold array_set.
  pose proof (lookup_lt_Some _ _ _ H) as Hlt.
  apply Nat.ltb_lt in Hlt. rewrite Hlt. apply list_insert_id. exact H.
Qed.

(** A write makes the key an own property holding the written value. *)
Lemma assignValue_own (nested : value) (key : string) (v nested' : value) :
  Lodash.assignValue nested key v = Some nested' ->
  Lodash.own nested' key = Some v /\ Lodash.isObject nested' = true.
Proof.
  destruct nested; simpl; try discriminate.
  - destruct (Lodash.parseIndex key) as [i|] eqn:E; [|discriminate].
    intros [= <-]. simpl. rewrite E. split; [apply array_set_lookup|reflexivity].
  - intros [= <-]. simpl. split; [apply assoc_assoc_set|reflexivity].
Qed.

(** Repeating a write changes nothing. *)
Lemma assignValue_again (nested : value) (key : string) (v nested' : value) :
  Lodash.assignValue nested key v = Some nested' ->
  Lodash.assignValue nested' key v = Some nested'.
Proof.
  destruct nested; simpl; try discriminate.
  - destruct (Lodash.parseIndex key) as [i|] eqn:E; [|discriminate].
    intros [= <-]. simpl. rewrite E.
    rewrite array_set_same by apply array_set_lookup. reflexivity.
  - intros [= <-]. simpl.
    rewrite assoc_set_same by apply assoc_assoc_set. reflexivity.
Qed.

(** After a write along a path either the path is present, or the write
    stopped early (at a key lodash refuses to write) and repeating it with
    any value changes nothing. *)
Lemma baseSet_settles (p : Lodash.path) :
  forall (nested v nested' : value),
    Lodash.isObject nested = true ->
    Lodash.baseSet nested p v = Some nested' ->
    Lodash.isObject nested' = true
    /\ (Lodash.has nested' p = true
        \/ forall v', Lodash.baseSet nested' p v' = Some nested').
Proof.
  induction p as [|key rest IH]; intros nested v nested' Hobj Hset.
  - simpl in Hset. injection Hset as <-. split; [exact Hobj|]. right. reflexivity.
  - simpl in Hset. destruct (Lodash.unsafeKey key) eqn:Hunsafe.
    + injection Hset as <-. split; [exact Hobj|]. right. intros v'. simpl.
      rewrite Hunsafe. reflexivity.
    + destruct rest as [|nextKey rest'].
      * apply assignValue_own in Hset as [Hown Hobj'].
        split; [exact Hobj'|]. left. simpl. rewrite Hown. reflexivity.
      * set (newValue := if Lodash.isObject (Lodash.prop nested key)
                         then Lodash.prop nested key
                         else if Lodash.isIndex nextKey then JArr [] else JObj []) in Hset.
        assert (Hnew : Lodash.isObject newValue = true).
        { unfold newValue. destruct (Lodash.isObject (Lodash.prop nested key)) eqn:E;
            [exact E|]. destruct (Lodash.isIndex nextKey); reflexivity. }
        destruct (Lodash.baseSet newValue (nextKey :: rest') v) as [child|] eqn:Hchild;
          [|discriminate].
        destruct (IH newValue v child Hnew Hchild) as [Hobjc Hsettled].
        pose proof (assignValue_again _ _ _ _ Hset) as Hagain.
        apply assignValue_own in Hset as [Hown Hobj'].
        split; [exact Hobj'|].
        destruct Hsettled as [Hhas|Hfix].
        -- left. change (Lodash.has nested' (key :: nextKey :: rest'))
             with (match Lodash.own nested' key with
                   | None => false
                   | Some w => Lodash.has w (nextKey :: rest')
                   end).
           rewrite Hown. exact Hhas.
        -- right. intros v'.
           change (Lodash.baseSet nested' (key :: nextKey :: rest') v')
             with (if Lodash.unsafeKey key then Some nested'
                   else
                     let objValue := Lodash.prop nested' key in
                     let newValue :=
                       if Lodash.isObject objValue then objValue
                       else if Lodash.isIndex nextKey then JArr [] else JObj [] in
                     match Lodash.baseSet newValue (nextKey :: rest') v' with
                     | Some c => Lodash.assignValue nested' key c
                     | None => None
                     end).
           rewrite Hunsafe. unfold Lodash.prop. rewrite Hown. simpl default.
           cbv zeta. rewrite Hobjc, Hfix. exact Hagain.
Qed.

Lemma set_settles (object : value) (p : Lodash.path) (v object' : value) :
  Lodash.set object p v = Some object' ->
  Lodash.has object' p = true \/ forall v', Lodash.set object' p v' = Some object'.
Proof.
  unfold Lodash.set. destruct (Lodash.isObject object) eqn:Hobj.
  - intros Hset. destruct (baseSet_settles p object v object' Hobj Hset) as [Hobj' [H|H]].
    + left. exact H.
    + right. intros v'. rewrite Hobj'. apply H.
  - intros [= <-]. right. intros v'. rewrite Hobj. reflexivity.
Qed.

(** Writes along a path of property names into a value made of objects
    always go through. *)
Lemma assoc_objectsOnly (key : string) (props : list (string * value)) (w : value) :
  Lodash.objectsOnly (JObj props) = true ->
  Lodash.assoc key props = Some w ->
  Lodash.objectsOnly w = true.
Proof.
  induction props as [|[k u] rest IH]; simpl; [discriminate|].
  intros Hall. apply andb_true_iff in Hall as [Hu Hrest].
  destruct (String.eqb k key); [intros [= <-]; exact Hu|].
  apply IH. exact Hrest.
Qed.

Lemma baseSet_defined_on_objects (p : Lodash.path) :
  forall (nested v : value),
    Lodash.isObject nested = true ->
    Lodash.objectsOnly nested = true ->
    Forall (fun key => Lodash.isIndex key = false) p ->
    is_Some (Lodash.baseSet nested p v).
Proof.
  induction p as [|key rest IH]; intros nested v Hobj Hplain Hkeys; [eexists; reflexivity|].
  simpl. destruct (Lodash.unsafeKey key); [eexists; reflexivity|].
  destruct nested as [| | | | |elems|props]; try discriminate.
  destruct rest as [|nextKey rest']; [eexists; reflexivity|].
  apply Forall_cons in Hkeys as [_ Hkeys].
  pose proof Hkeys as Hnext. apply Forall_cons in Hnext as [Hnext _].
  rewrite Hnext.
  destruct (IH (if Lodash.isObject (Lodash.prop (JObj props) key)
                then Lodash.prop (JObj props) key else JObj []) v) as [child ->];
    [| |exact Hkeys|eexists; reflexivity].
  - destruct (Lodash.isObject (Lodash.prop (JObj props) key)) eqn:E; [exact E|reflexivity].
  - destruct (Lodash.isObject (Lodash.prop (JObj props) key)) eqn:E; [|reflexivity].
    unfold Lodash.prop in *. simpl Lodash.own in *.
    destruct (Lodash.assoc key props) as [w|] eqn:Hw; [|discriminate E].
    simpl. eapply assoc_objectsOnly; eassumption.
Qed.

Lemma copyIfNotSet_defined_on_objects
    (sourceObject : value) (sourcePath : Lodash.path)
    (targetObject : value) (targetPath : Lodash.path)
    (transform : option (value -> value)) :
  Lodash.objectsOnly targetObject = true ->
  Forall (fun key => Lodash.isIndex key = false) targetPath ->
  is_Some (ObjectUtils.copyIfNotSet sourceObject sourcePath targetObject targetPath transform).
Proof.
  intros Hplain Hkeys. unfold ObjectUtils.copyIfNotSet, ObjectUtils.copy, Lodash.set.
  destruct (Lodash.has targetObject targetPath); simpl; [eexists; reflexivity|].
  destruct (Lodash.has sourceObject sourcePath); [|eexists; reflexivity].
  destruct (Lodash.isObject targetObject) eqn:Hobj; [|eexists; reflexivity].
  apply baseSet_defined_on_objects; assumption.
Qed.

(** C9. copyIfNotSet leaves the target alone when the target path is
    present, and a second call with the same arguments leaves the target as
    the first call left it, whether the source is another object or the
    target object itself. *)
Theorem copyIfNotSet_idempotent
    (sourceObject : value) (sourcePath : Lodash.path)
    (targetObject : value) (targetPath : Lodash.path)
    (transform : option (value -> value)) :
  (Lodash.has targetObject targetPath = true ->
     ObjectUtils.copyIfNotSet sourceObject sourcePath targetObject targetPath transform
     = Some targetObject)
  /\ (forall once,
        ObjectUtils.copyIfNotSet sourceObject sourcePath targetObject targetPath transform
        = Some once ->
        ObjectUtils.copyIfNotSet sourceObject sourcePath once targetPath transform
        = Some once)
  /\ (forall once,
        ObjectUtils.copyIfNotSet targetObject sourcePath targetObject targetPath transform
        = Some once ->
        ObjectUtils.copyIfNotSet once sourcePath once targetPath transform
        = Some once).
Proof.
  unfold ObjectUtils.copyIfNotSet, ObjectUtils.copy.
  split; [|split].
  - intros ->. reflexivity.
  - intros once. destruct (Lodash.has targetObject targetPath) eqn:Htarget; simpl.
    + intros [= <-]. rewrite Htarget. reflexivity.
    + destruct (Lodash.has sourceObject sourcePath) eqn:Hsource.
      * intros Hset. destruct (set_settles _ _ _ _ Hset) as [Hhas|Hfix].
        -- rewrite Hhas. reflexivity.
        -- destruct (Lodash.has once targetPath); simpl; [reflexivity|apply Hfix].
      * intros [= <-]. rewrite Htarget. reflexivity.
  - intros once. destruct (Lodash.has targetObject targetPath) eqn:Htarget; simpl.
    + intros [= <-]. rewrite Htarget. reflexivity.
    + destruct (Lodash.has targetObject sourcePath) eqn:Hsource.
      * intros Hset. destruct (set_settles _ _ _ _ Hset) as [Hhas|Hfix].
        -- rewrite Hhas. reflexivity.
        -- destruct (Lodash.has once targetPath); simpl; [reflexivity|].
           destruct (Lodash.has once sourcePath); [apply Hfix|reflexivity].
      * intros [= <-]. rewrite Htarget. simpl. rewrite Hsource. reflexivity.
Qed.

Lemma copyIfNotSet_idempotent_witness :
  let source := JObj [("a"%string, JNum 1)] in
  let once := JObj [("b"%string, JObj [("c"%string, JNum 1)])] in
  ObjectUtils.copyIfNotSet source ["a"%string] (JObj []) ["b"%string; "c"%string] None = Some once
  /\ ObjectUtils.copyIfNotSet source ["a"%string] once ["b"%string; "c"%string] None = Some once.
Proof.
  intros source once. split; [reflexivity|].
  destruct (copyIfNotSet_idempotent source ["a"%string] (JObj [])
              ["b"%string; "c"%string] None) as (_ & Hagain & _).
  apply Hagain. reflexivity.
Defined.

(** ** object-utils: append, concat, copy *)

Section PathWrites.
Import Lodash ObjectUtils.

Lemma walk_undefined (p : path) : walk JUndefined p = JUndefined.
Proof. destruct p; reflexivity. Qed.

(** A path into a scalar never reaches an array or an object. *)
Lemma walk_scalar (p : path) :
  forall v, isObject v = false -> isObject (walk v p) = false.
Proof.
  induction p as [|key rest IH]; intros v Hv; [exact Hv|].
  simpl. destruct (isNil v) eqn:Hnil; [reflexivity|].
  apply IH. unfold prop.
  destruct v; try discriminate; simpl; try reflexivity.
  destruct (parseIndex key).
  - destruct (String.get n s); reflexivity.
  - destruct (String.eqb key "length"); reflexivity.
Qed.

(** A path that is not present resolves to undefined. *)
Lemma walk_without_has (p : path) :
  forall object, p <> [] -> has object p = false -> walk object p = JUndefined.
Proof.
  induction p as [|key rest IH]; intros object Hne Hhas; [congruence|].
  simpl in *. destruct (isNil object) eqn:Hnil; [reflexivity|].
  unfold prop. destruct (own object key) as [child|] eqn:Hown.
  - simpl. destruct rest as [|next rest']; [discriminate Hhas|].
    apply IH; [discriminate|exact Hhas].
  - apply walk_undefined.
Qed.

Lemma get_without_has (object : value) (p : path) :
  has object p = false -> get object p = JUndefined.
Proof.
  destruct p as [|key rest]; [reflexivity|].
  intros Hhas. apply walk_without_has; [discriminate|exact Hhas].
Qed.

Lemma own_put (object : value) (key : string) (child v : value) :
  isObject object = true ->
  own object key = Some child ->
  own (put object key v) key = Some v \/ isObject child = false /\ put object key v = object.
Proof.
  destruct object as [| | | | |elems|props]; try discriminate; intros _ Hown; simpl in *.
  - destruct (parseIndex key) as [i|] eqn:Hidx.
    + left. simpl. rewrite Hidx. apply list_lookup_insert_eq.
      apply lookup_lt_Some in Hown. exact Hown.
    + right. destruct (String.eqb key "length"); [|discriminate Hown].
      injection Hown as <-. split; reflexivity.
  - left. apply assoc_assoc_set.
Qed.

(** A change made in place to the array a path resolves to is what the
    path resolves to afterwards. *)
Lemma walk_modify (p : path) (f : value -> value) :
  forall object elems,
    walk object p = JArr elems ->
    walk (modify object p f) p = f (JArr elems).
Proof.
  induction p as [|key rest IH]; intros object elems Hwalk.
  - simpl in *. rewrite Hwalk. reflexivity.
  - simpl in Hwalk. destruct (isNil object) eqn:Hnil; [discriminate Hwalk|].
    unfold prop in Hwalk. simpl modify.
    destruct (own object key) as [child|] eqn:Hown;
      [|simpl in Hwalk; rewrite walk_undefined in Hwalk; discriminate Hwalk].
    simpl in Hwalk.
    destruct (isObject object) eqn:Hobj.
    + destruct (own_put object key child (modify child rest f) Hobj Hown) as [Hput|[Hscalar _]].
      * assert (Hnil' : isNil (put object key (modify child rest f)) = false).
        { destruct object; try discriminate; simpl; [destruct (parseIndex key)|]; reflexivity. }
        simpl. rewrite Hnil'. unfold prop. rewrite Hput. simpl. apply IH. exact Hwalk.
      * pose proof (walk_scalar rest child Hscalar) as H. rewrite Hwalk in H. discriminate H.
    + assert (Hscalar : isObject child = false).
      { destruct object; try discriminate; simpl in Hown.
        - destruct (parseIndex key).
          + destruct (String.get n s); [injection Hown as <-; reflexivity|discriminate].
          + destruct (String.eqb key "length"); [injection Hown as <-; reflexivity|discriminate]. }
      pose proof (walk_scalar rest child Hscalar) as H. rewrite Hwalk in H. discriminate H.
Qed.

Lemma assignValue_isNil (nested : value) (key : string) (v nested' : value) :
  assignValue nested key v = Some nested' -> isNil nested' = false.
Proof.
  intros H. apply assignValue_own in H as [_ Hobj]. destruct nested'; try discriminate; reflexivity.
Qed.

(** After a write the path resolves to the written value, or to what it
    resolved to before (the write stopped at a key lodash refuses), or to
    undefined (the write stopped below a container it had just created). *)
Lemma baseSet_walk (p : path) :
  forall nested v nested',
    isObject nested = true -> p <> [] ->
    baseSet nested p v = Some nested' ->
    walk nested' p = v \/ walk nested' p = walk nested p \/ walk nested' p = JUndefined.
Proof.
  induction p as [|key rest IH]; intros nested v nested' Hobj Hne Hset; [congruence|].
  simpl in Hset. destruct (unsafeKey key) eqn:Hunsafe.
  - injection Hset as <-. right. left. reflexivity.
  - destruct rest as [|nextKey rest'].
    + pose proof (assignValue_isNil _ _ _ _ Hset) as Hnil.
      apply assignValue_own in Hset as [Hown _].
      left. simpl. rewrite Hnil. unfold prop. rewrite Hown. reflexivity.
    + set (newValue := if isObject (prop nested key) then prop nested key
                       else if isIndex nextKey then JArr [] else JObj []) in Hset.
      destruct (baseSet newValue (nextKey :: rest') v) as [child|] eqn:Hchild; [|discriminate].
      pose proof (assignValue_isNil _ _ _ _ Hset) as Hnil.
      apply assignValue_own in Hset as [Hown _].
      assert (Hwalk : walk nested' (key :: nextKey :: rest') = walk child (nextKey :: rest')).
      { change (walk nested' (key :: nextKey :: rest'))
          with (if isNil nested' then JUndefined else walk (prop nested' key) (nextKey :: rest')).
        rewrite Hnil. unfold prop. rewrite Hown. reflexivity. }
      rewrite Hwalk.
      assert (Hnew : isObject newValue = true).
      { unfold newValue. destruct (isObject (prop nested key)) eqn:E; [exact E|].
        destruct (isIndex nextKey); reflexivity. }
      destruct (IH newValue v child Hnew ltac:(discriminate) Hchild) as [H|[H|H]].
      * left. exact H.
      * rewrite H. unfold newValue.
        destruct (isObject (prop nested key)) eqn:E.
        -- right. left.
           change (walk nested (key :: nextKey :: rest'))
             with (if isNil nested then JUndefined else walk (prop nested key) (nextKey :: rest')).
           destruct nested; try discriminate; reflexivity.
        -- right. right. simpl. unfold prop.
           destruct (isIndex nextKey) eqn:Hidx; simpl.
           ++ unfold isIndex in Hidx. apply bool_decide_eq_true in Hidx as [i Hi].
              rewrite Hi. simpl. apply walk_undefined.
           ++ apply walk_undefined.
      * right. right. exact H.
Qed.

(** A write along a path without refused keys puts the value there. *)
Lemma baseSet_walk_safe (p : path) :
  forall nested v nested',
    isObject nested = true -> p <> [] ->
    Forall (fun key => unsafeKey key = false) p ->
    baseSet nested p v = Some nested' ->
    walk nested' p = v /\ has nested' p = true /\ isObject nested' = true.
Proof.
  induction p as [|key rest IH]; intros nested v nested' Hobj Hne Hsafe Hset; [congruence|].
  apply Forall_cons in Hsafe as [Hkey Hsafe].
  simpl in Hset. rewrite Hkey in Hset.
  destruct rest as [|nextKey rest'].
  - pose proof (assignValue_isNil _ _ _ _ Hset) as Hnil.
    apply assignValue_own in Hset as [Hown Hobj'].
    simpl. rewrite Hnil. unfold prop. rewrite Hown. repeat split; assumption.
  - set (newValue := if isObject (prop nested key) then prop nested key
                     else if isIndex nextKey then JArr [] else JObj []) in Hset.
    destruct (baseSet newValue (nextKey :: rest') v) as [child|] eqn:Hchild; [|discriminate].
    pose proof (assignValue_isNil _ _ _ _ Hset) as Hnil.
    apply assignValue_own in Hset as [Hown Hobj'].
    assert (Hnew : isObject newValue = true).
    { unfold newValue. destruct (isObject (prop nested key)) eqn:E; [exact E|].
      destruct (isIndex nextKey); reflexivity. }
    destruct (IH newValue v child Hnew ltac:(discriminate) Hsafe Hchild) as (Hw & Hh & _).
    split; [|split; [|exact Hobj']].
    + change (walk nested' (key :: nextKey :: rest'))
        with (if isNil nested' then JUndefined else walk (prop nested' key) (nextKey :: rest')).
      rewrite Hnil. unfold prop. rewrite Hown. exact Hw.
    + change (has nested' (key :: nextKey :: rest'))
        with (match own nested' key with
              | None => false
              | Some w => has w (nextKey :: rest')
              end).
      rewrite Hown. exact Hh.
Qed.

Lemma get_array_isObject (object : value) (p : path) (elems : list value) :
  get object p = JArr elems -> isObject object = true /\ p <> [] /\ has object p = true.
Proof.
  intros Hget.
  assert (Hne : p <> []) by (destruct p; [discriminate Hget|discriminate]).
  split; [|split; [exact Hne|]].
  - destruct (isObject object) eqn:Hobj; [reflexivity|].
    destruct p as [|key rest]; [congruence|].
    pose proof (walk_scalar (key :: rest) object Hobj) as H.
    unfold get in Hget. rewrite Hget in H. discriminate H.
  - destruct (has object p) eqn:Hhas; [reflexivity|].
    rewrite get_without_has in Hget by exact Hhas. discriminate Hget.
Qed.

Lemma get_walk (object : value) (p : path) : p <> [] -> get object p = walk object p.
Proof. destruct p; [congruence|reflexivity]. Qed.

End PathWrites.

(** X4. append adds the value at the end of the array at the path and keeps
    the elements that were there; when the path is not present it leaves a
    one-element array there.  It throws a TypeError when the path holds
    something that is not an array. *)
Theorem append_pushes_last (object : value) (p : Lodash.path) (v : value) :
  (forall object',
     ObjectUtils.append object p v = ObjectUtils.Normal object' ->
     (Lodash.has object p = false -> Lodash.get object' p = JArr [v])
     /\ (forall elems, Lodash.get object p = JArr elems ->
           Lodash.get object' p = JArr (elems ++ [v])))
  /\ (Lodash.has object p = true ->
        (forall elems, Lodash.get object p <> JArr elems) ->
        ObjectUtils.append object p v = ObjectUtils.ThrowsTypeError).
Proof.
  split.
  - intros object' Happend. unfold ObjectUtils.append, ObjectUtils.ensureArray in Happend.
    destruct (Lodash.has object p) eqn:Hhas.
    + destruct (Lodash.get object p) as [| | | | |elems|props] eqn:Hget; try discriminate.
      injection Happend as <-.
      split; [discriminate|]. intros elems' [= <-].
      destruct (get_array_isObject object p elems Hget) as (_ & Hne & _).
      rewrite get_walk in * by exact Hne.
      exact (walk_modify p (fun _ => JArr (elems ++ [v])) object elems Hget).
    + destruct (Lodash.set object p (JArr [])) as [object1|] eqn:Hset; [|discriminate].
      destruct (Lodash.get object1 p) as [| | | | |elems|props] eqn:Hget; try discriminate.
      injection Happend as <-.
      destruct (get_array_isObject object1 p elems Hget) as (Hobj1 & Hne & _).
      split.
      * intros _. rewrite get_walk in * by exact Hne.
        rewrite (walk_modify p (fun _ => JArr (elems ++ [v])) object1 elems Hget).
        unfold Lodash.set in Hset. destruct (Lodash.isObject object) eqn:Hobj.
        -- destruct (baseSet_walk p object (JArr []) object1 Hobj Hne Hset) as [H|[H|H]].
           ++ rewrite H in Hget. injection Hget as <-. reflexivity.
           ++ rewrite H, walk_without_has in Hget by assumption. discriminate Hget.
           ++ rewrite H in Hget. discriminate Hget.
        -- injection Hset as <-. rewrite Hobj in Hobj1. discriminate Hobj1.
      * intros elems' Hold. rewrite get_without_has in Hold by exact Hhas. discriminate Hold.
  - intros Hhas Hkind. unfold ObjectUtils.append, ObjectUtils.ensureArray. rewrite Hhas.
    destruct (Lodash.get object p) as [| | | | |elems|props] eqn:Hget; try reflexivity.
    exfalso. apply (Hkind elems). reflexivity.
Qed.

Lemma append_pushes_last_witness :
  exists object',
    ObjectUtils.append (JObj [("a"%string, JArr [JNum 1])]) ["a"%string] (JNum 2)
    = ObjectUtils.Normal object'
    /\ Lodash.get object' ["a"%string] = JArr [JNum 1; JNum 2].
Proof.
  eexists. split; [reflexivity|].
  destruct (append_pushes_last (JObj [("a"%string, JArr [JNum 1])]) ["a"%string] (JNum 2))
    as [Hpush _].
  destruct (Hpush _ eq_refl) as [_ Hkeep].
  apply (Hkeep [JNum 1]). reflexivity.
Defined.

(** X5. concat on a path without keys lodash refuses to write: the array at
    the path is replaced by the old elements followed by the elements of an
    array argument (one level is flattened) or by the argument itself; when
    the path is not present the new array holds just these. *)
Theorem concat_appends_items (object : value) (p : Lodash.path) (v object' : value) :
  Forall (fun key => Lodash.unsafeKey key = false) p ->
  ObjectUtils.concat object p v = ObjectUtils.Normal object' ->
  (Lodash.has object p = false -> Lodash.get object' p = JArr (ObjectUtils.concatItems v))
  /\ (forall elems, Lodash.get object p = JArr elems ->
        Lodash.get object' p = JArr (elems ++ ObjectUtils.concatItems v)).
Proof.
  intros Hsafe Hconcat. unfold ObjectUtils.concat, ObjectUtils.ensureArray in Hconcat.
  destruct (Lodash.has object p) eqn:Hhas.
  - split; [discriminate|]. intros elems Hget. rewrite Hget in Hconcat.
    destruct (get_array_isObject object p elems Hget) as (Hobj & Hne & _).
    destruct (Lodash.set object p _) as [object2|] eqn:Hset; [|discriminate].
    injection Hconcat as <-. unfold Lodash.set in Hset. rewrite Hobj in Hset.
    destruct (baseSet_walk_safe p object _ object2 Hobj Hne Hsafe Hset) as (Hwalk & _).
    rewrite get_walk by exact Hne. exact Hwalk.
  - split; [|intros elems Hget; rewrite get_without_has in Hget by exact Hhas;
             discriminate Hget].
    intros _.
    destruct (Lodash.set object p (JArr [])) as [object1|] eqn:Hset1; [|discriminate].
    assert (Hfresh : Lodash.isObject object = true /\ p <> []
                     \/ Lodash.get object1 p = JUndefined).
    { unfold Lodash.set in Hset1. destruct (Lodash.isObject object) eqn:Hobj.
      - destruct p as [|key rest]; [right; reflexivity|]. left. split; [reflexivity|discriminate].
      - injection Hset1 as <-. right. apply get_without_has. exact Hhas. }
    destruct Hfresh as [[Hobj Hne]|Hundef]; [|rewrite Hundef in Hconcat; discriminate].
    unfold Lodash.set in Hset1. rewrite Hobj in Hset1.
    destruct (baseSet_walk_safe p object _ object1 Hobj Hne Hsafe Hset1) as (Hwalk1 & _ & Hobj1).
    rewrite get_walk in Hconcat by exact Hne. rewrite Hwalk1 in Hconcat.
    destruct (Lodash.set object1 p _) as [object2|] eqn:Hset2; [|discriminate].
    injection Hconcat as <-. unfold Lodash.set in Hset2. rewrite Hobj1 in Hset2.
    destruct (baseSet_walk_safe p object1 _ object2 Hobj1 Hne Hsafe Hset2) as (Hwalk2 & _).
    rewrite get_walk by exact Hne. exact Hwalk2.
Qed.

Lemma concat_appends_items_witness :
  exists object',
    ObjectUtils.concat (JObj [("a"%string, JArr [JNum 1])]) ["a"%string] (JArr [JNum 2; JNum 3])
    = ObjectUtils.Normal object'
    /\ Lodash.get object' ["a"%string] = JArr [JNum 1; JNum 2; JNum 3].
Proof.
  eexists. split; [reflexivity|].
  destruct (concat_appends_items (JObj [("a"%string, JArr [JNum 1])]) ["a"%string]
              (JArr [JNum 2; JNum 3]) _ ltac:(repeat constructor) eq_refl) as [_ Hkeep].
  apply (Hkeep [JNum 1]). reflexivity.
Defined.

(** X6. copy leaves the target alone when the source path is not present.
    When it is present, also with the value undefined, the target path is
    present afterwards and resolves to the source value, passed through the
    transform if there is one (for a target that is an object or an array
    and a non-empty target path without keys lodash refuses to write). *)
Theorem copy_writes_transformed_value
    (sourceObject : value) (sourcePath : Lodash.path)
    (targetObject : value) (targetPath : Lodash.path)
    (transform : option (value -> value)) :
  (Lodash.has sourceObject sourcePath = false ->
     ObjectUtils.copy sourceObject sourcePath targetObject targetPath transform
     = Some targetObject)
  /\ (Lodash.has sourceObject sourcePath = true ->
        Lodash.isObject targetObject = true ->
        targetPath <> [] ->
        Forall (fun key => Lodash.unsafeKey key = false) targetPath ->
        forall targetObject',
          ObjectUtils.copy sourceObject sourcePath targetObject targetPath transform
          = Some targetObject' ->
          Lodash.get targetObject' targetPath
          = match transform with
            | Some f => f (Lodash.get sourceObject sourcePath)
            | None => Lodash.get sourceObject sourcePath
            end
          /\ Lodash.has targetObject' targetPath = true).
Proof.
  unfold ObjectUtils.copy. split.
  - intros ->. reflexivity.
  - intros -> Hobj Hne Hsafe targetObject' Hset.
    unfold Lodash.set in Hset. rewrite Hobj in Hset.
    destruct (baseSet_walk_safe targetPath targetObject _ targetObject' Hobj Hne Hsafe Hset)
      as (Hwalk & Hhas & _).
    rewrite get_walk by exact Hne. split; [exact Hwalk|exact Hhas].
Qed.

Lemma copy_writes_transformed_value_witness :
  exists targetObject',
    ObjectUtils.copy (JObj [("a"%string, JUndefined)]) ["a"%string]
      (JObj []) ["b"%string; "c"%string] None = Some targetObject'
    /\ Lodash.has targetObject' ["b"%string; "c"%string] = true
    /\ Lodash.get targetObject' ["b"%string; "c"%string] = JUndefined.
Proof.
  eexists. split; [reflexivity|].
  destruct (copy_writes_transformed_value (JObj [("a"%string, JUndefined)]) ["a"%string]
              (JObj []) ["b"%string; "c"%string] None) as [_ Hcopy].
  destruct (Hcopy eq_refl eq_refl ltac:(discriminate) ltac:(repeat constructor) _ eq_refl)
    as [Hget Hhas].
  split; [exact Hhas|exact Hget].
Defined.

(** ** object-utils: rename *)

Section Rename.
Import Lodash ObjectUtils.

Lemma walk_isObject (p : path) (object target : value) :
  walk object p = target -> isObject target = true -> isObject object = true.
Proof.
  intros Hwalk Htarget. destruct (isObject object) eqn:Hobj; [reflexivity|].
  pose proof (walk_scalar p object Hobj) as H. rewrite Hwalk, Htarget in H. discriminate H.
Qed.

Lemma walk_cons_own (object : value) (key : string) (rest : path) (target : value) :
  walk object (key :: rest) = target -> isObject target = true ->
  exists child, own object key = Some child /\ walk child rest = target
                /\ isObject child = true /\ isObject object = true
                /\ assignValue object key child = Some object.
Proof.
  intros Hwalk Htarget.
  pose proof (walk_isObject _ _ _ Hwalk Htarget) as Hobj.
  simpl in Hwalk. destruct (isNil object) eqn:Hnil;
    [rewrite <- Hwalk in Htarget; discriminate Htarget|].
  unfold prop in Hwalk. destruct (own object key) as [child|] eqn:Hown;
    [|simpl in Hwalk; rewrite walk_undefined in Hwalk; rewrite <- Hwalk in Htarget;
      discriminate Htarget].
  simpl in Hwalk. pose proof (walk_isObject _ _ _ Hwalk Htarget) as Hchild.
  exists child. split; [reflexivity|]. split; [exact Hwalk|]. split; [exact Hchild|].
  split; [exact Hobj|].
  destruct object as [| | | | |elems|props]; try discriminate; simpl in *.
  - destruct (parseIndex key) as [i|].
    + rewrite array_set_same by exact Hown. reflexivity.
    + destruct (String.eqb key "length"); [|discriminate Hown].
      injection Hown as <-. discriminate Hchild.
  - rewrite assoc_set_same by exact Hown. reflexivity.
Qed.

(** A change made in place to the container a path resolves to is what the
    path resolves to afterwards. *)
Lemma walk_modify_container (p : path) (f : value -> value) :
  forall object target,
    walk object p = target -> isObject target = true ->
    walk (modify object p f) p = f target.
Proof.
  induction p as [|key rest IH]; intros object target Hwalk Htarget.
  - simpl in *. rewrite Hwalk. reflexivity.
  - destruct (walk_cons_own object key rest target Hwalk Htarget)
      as (child & Hown & Hchild & Hobjc & Hobj & _).
    simpl modify. rewrite Hown.
    destruct (own_put object key child (modify child rest f) Hobj Hown) as [Hput|[Hscalar _]];
      [|congruence].
    assert (Hnil : isNil (put object key (modify child rest f)) = false).
    { destruct object; try discriminate; simpl; [destruct (parseIndex key)|]; reflexivity. }
    simpl. rewrite Hnil. unfold prop. rewrite Hput. simpl. apply IH; assumption.
Qed.

(** Writing a property of the object a path resolves to. *)
Lemma baseSet_extend (parentPath : path) (key : string) (v : value) :
  forall object props,
    walk object parentPath = JObj props ->
    Forall (fun k => unsafeKey k = false) parentPath ->
    unsafeKey key = false ->
    exists object1,
      baseSet object (parentPath ++ [key]) v = Some object1
      /\ walk object1 parentPath = JObj (assoc_set key v props).
Proof.
  induction parentPath as [|k rest IH]; intros object props Hwalk Hsafe Hkey.
  - simpl in Hwalk. subst object. simpl. rewrite Hkey. eexists. split; reflexivity.
  - apply Forall_cons in Hsafe as [Hk Hsafe].
    destruct (walk_cons_own object k rest (JObj props) Hwalk eq_refl)
      as (child & Hown & Hchild & Hobjc & Hobj & Hassign).
    destruct (IH child props Hchild Hsafe Hkey) as (child1 & Hset & Hwalk1).
    assert (Hbase : baseSet object ((k :: rest) ++ [key]) v
                    = match baseSet child (rest ++ [key]) v with
                      | Some c => assignValue object k c
                      | None => None
                      end).
    { simpl. rewrite Hk. unfold prop. rewrite Hown. simpl. rewrite Hobjc.
      destruct (rest ++ [key]) eqn:E; [destruct rest; discriminate E|reflexivity]. }
    rewrite Hbase, Hset.
    assert (Hsome : exists object1, assignValue object k child1 = Some object1).
    { destruct object as [| | | | |elems|ps]; try discriminate; simpl in *.
      - destruct (parseIndex k); [eexists; reflexivity|discriminate Hassign].
      - eexists; reflexivity. }
    destruct Hsome as [object1 Hassign1]. exists object1. split; [exact Hassign1|].
    pose proof (assignValue_isNil _ _ _ _ Hassign1) as Hnil.
    apply assignValue_own in Hassign1 as [Hown1 _].
    simpl. rewrite Hnil. unfold prop. rewrite Hown1. exact Hwalk1.
Qed.

Lemma walk_extend (parentPath : path) (key : string) :
  forall object props v,
    walk object parentPath = JObj props ->
    assoc key props = Some v ->
    has object (parentPath ++ [key]) = true /\ walk object (parentPath ++ [key]) = v.
Proof.
  induction parentPath as [|k rest IH]; intros object props v Hwalk Hassoc.
  - simpl in Hwalk. subst object. simpl. unfold prop. simpl. rewrite Hassoc.
    split; reflexivity.
  - destruct (walk_cons_own object k rest (JObj props) Hwalk eq_refl)
      as (child & Hown & Hchild & _ & Hobj & _).
    destruct (IH child props v Hchild Hassoc) as [Hhas Hw].
    split.
    + simpl. rewrite Hown.
      destruct (rest ++ [key]) eqn:E; [destruct rest; discriminate E|exact Hhas].
    + simpl. destruct object; try discriminate; simpl isNil; cbv iota;
        unfold prop; rewrite Hown; exact Hw.
Qed.

Lemma assoc_filter_ne (key k : string) (props : list (string * value)) :
  assoc k (filter (fun kv => fst kv <> key) props)
  = if String.eqb k key then None else assoc k props.
Proof.
  induction props as [|[k' w] rest IH]; simpl.
  - destruct (String.eqb k key); reflexivity.
  - rewrite filter_cons. simpl fst.
    destruct (decide (k' <> key)) as [Hne|Heq].
    + simpl. destruct (String.eqb k' k) eqn:E.
      * apply String.eqb_eq in E. subst k'.
        apply String.eqb_neq in Hne. rewrite Hne. reflexivity.
      * exact IH.
    + assert (k' = key) by (destruct (String.eqb_spec k' key); [assumption|contradiction]).
      subst k'. rewrite IH. destruct (String.eqb k key) eqn:E; [reflexivity|].
      rewrite String.eqb_sym, E. reflexivity.
Qed.

Lemma assoc_assoc_set_ne (key k : string) (v : value) (props : list (string * value)) :
  k <> key -> assoc k (assoc_set key v props) = assoc k props.
Proof.
  intros Hne. induction props as [|[k' w] rest IH]; simpl.
  - apply String.eqb_neq in Hne. rewrite String.eqb_sym, Hne. reflexivity.
  - destruct (String.eqb k' key) eqn:E; simpl.
    + apply String.eqb_eq in E. subst k'.
      apply String.eqb_neq in Hne. rewrite String.eqb_sym, Hne. reflexivity.
    + destruct (String.eqb k' k); [reflexivity|exact IH].
Qed.

End Rename.

(** X7. rename moves a property of an object to a sibling key: afterwards the
    parent object (the one the parent path resolves to, the object itself
    for the empty path) no longer has the old key, holds the old value under
    the new key and keeps its other properties.  Renaming a key to itself
    therefore only removes it. *)
Theorem rename_moves_to_sibling
    (object : value) (parentPath : Lodash.path) (props : list (string * value))
    (oldKey newKey : string) (v : value) :
  Lodash.walk object parentPath = JObj props ->
  Lodash.assoc oldKey props = Some v ->
  oldKey <> EmptyString ->
  Lodash.unsafeKey newKey = false ->
  Forall (fun k => Lodash.unsafeKey k = false) parentPath ->
  exists object' props',
    ObjectUtils.rename object (parentPath ++ [oldKey]) (parentPath ++ [newKey])
    = ObjectUtils.Normal object'
    /\ Lodash.walk object' parentPath = JObj props'
    /\ Lodash.assoc oldKey props' = None
    /\ (newKey <> oldKey -> Lodash.assoc newKey props' = Some v)
    /\ (forall k, k <> oldKey -> k <> newKey -> Lodash.assoc k props' = Lodash.assoc k props).
Proof.
  intros Hwalk Hassoc Hold Hnew Hsafe.
  destruct (walk_extend parentPath oldKey object props v Hwalk Hassoc) as [Hhas Hvalue].
  destruct (baseSet_extend parentPath newKey v object props Hwalk Hsafe Hnew)
    as (object1 & Hset & Hwalk1).
  pose proof (walk_isObject _ _ _ Hwalk eq_refl) as Hobj.
  set (props' := filter (fun kv => fst kv <> oldKey) (Lodash.assoc_set newKey v props)).
  assert (Hprops : Lodash.assoc oldKey props' = None
                   /\ (newKey <> oldKey -> Lodash.assoc newKey props' = Some v)
                   /\ (forall k, k <> oldKey -> k <> newKey ->
                         Lodash.assoc k props' = Lodash.assoc k props)).
  { unfold props'. split; [|split].
    - rewrite assoc_filter_ne, String.eqb_refl. reflexivity.
    - intros Hne. rewrite assoc_filter_ne.
      apply String.eqb_neq in Hne. rewrite Hne. apply assoc_assoc_set.
    - intros k Hk1 Hk2. rewrite assoc_filter_ne.
      apply String.eqb_neq in Hk1. rewrite Hk1. apply assoc_assoc_set_ne. exact Hk2. }
  assert (Hrename : ObjectUtils.rename object (parentPath ++ [oldKey]) (parentPath ++ [newKey])
                    = if 1 <? length (parentPath ++ [oldKey])
                      then match ObjectUtils.deleteKey
                                   (Lodash.get object1 (removelast (parentPath ++ [oldKey])))
                                   oldKey with
                           | ObjectUtils.Normal parent =>
                               ObjectUtils.Normal
                                 (ObjectUtils.modify object1
                                    (removelast (parentPath ++ [oldKey])) (fun _ => parent))
                           | ObjectUtils.ThrowsTypeError => ObjectUtils.ThrowsTypeError
                           | ObjectUtils.Unmodelled => ObjectUtils.Unmodelled
                           end
                      else ObjectUtils.deleteKey object1 oldKey).
  { unfold ObjectUtils.rename. rewrite Hhas.
    rewrite (get_walk object (parentPath ++ [oldKey])) by (destruct parentPath; discriminate).
    rewrite Hvalue. unfold Lodash.set. rewrite Hobj, Hset.
    rewrite last_snoc. apply String.eqb_neq in Hold. rewrite Hold. reflexivity. }
  rewrite Hrename, removelast_last, length_app. simpl length.
  destruct parentPath as [|k rest].
  - simpl in Hwalk1. subst object1. simpl.
    exists (JObj props'), props'. split; [reflexivity|]. split; [reflexivity|exact Hprops].
  - replace (1 <? length (k :: rest) + 1) with true
      by (symmetry; apply Nat.ltb_lt; simpl; lia).
    rewrite get_walk by discriminate. rewrite Hwalk1. simpl ObjectUtils.deleteKey.
    eexists. exists props'. split; [reflexivity|]. split; [|exact Hprops].
    apply (walk_modify_container (k :: rest) (fun _ => JObj props') object1
             (JObj (Lodash.assoc_set newKey v props)) Hwalk1 eq_refl).
Qed.

Lemma rename_moves_to_sibling_witness :
  exists object' props',
    ObjectUtils.rename
      (JObj [("a"%string, JObj [("b"%string, JNum 1); ("d"%string, JNum 2)])])
      ["a"%string; "b"%string] ["a"%string; "c"%string]
    = ObjectUtils.Normal object'
    /\ Lodash.walk object' ["a"%string] = JObj props'
    /\ Lodash.assoc "b" props' = None
    /\ Lodash.assoc "c" props' = Some (JNum 1).
Proof.
  destruct (rename_moves_to_sibling
              (JObj [("a"%string, JObj [("b"%string, JNum 1); ("d"%string, JNum 2)])])
              ["a"%string] [("b"%string, JNum 1); ("d"%string, JNum 2)]
              "b" "c" (JNum 1) eq_refl eq_refl ltac:(discriminate) eq_refl
              ltac:(repeat constructor))
    as (object' & props' & Hrename & Hparent & Hold & Hnew & _).
  exists object', props'. split; [exact Hrename|]. split; [exact Hparent|].
  split; [exact Hold|]. apply Hnew. discriminate.
Defined.

(** ** object-utils: mapDeep *)

Section MapDeepProofs.
Import ObjectUtils.
Context {St : Type}.
Variable iteratee : value -> list key -> list value -> St -> value * St.



Lemma depth_elem (elems : list value) (val : value) :
  val ∈ elems -> depth val < depth (JArr elems).
Proof.
  simpl. induction 1 as [val rest|val w rest _ IH]; simpl; lia.
Qed.

Lemma depth_prop (props : list (string * value)) (k : string) (val : value) :
  (k, val) ∈ props -> depth val < depth (JObj props).
Proof.
  simpl. intros H. apply Nat.lt_succ_r.
  induction props as [|[k' w] rest IH]; [inversion H|].
  apply elem_of_cons in H as [[= <- <-]|H]; [lia|].
  specialize (IH H). lia.
Qed.


End MapDeepProofs.

(** *** The calls below a node, child by child *)

Section MapDeepBlocks.
Import ObjectUtils.
Variable f : value -> list key -> list value -> value.
Variable opts : options.








End MapDeepBlocks.

Section MapDeepOrders.
Import ObjectUtils.
Variable f : value -> list key -> list value -> value.




End MapDeepOrders.



(** The examples of the documentation: multiplying the numbers by ten gives
    the same tree in both orders. *)
Example mapDeep_timesTen_both_orders :
  fst <$> ObjectUtils.mapDeep (ObjectUtils.logged ObjectUtils.timesTen) ObjectUtils.defaults
            3 ObjectUtils.sampleTree []
  = Some (JObj [("x"%string, JNum 10); ("y"%string, JArr [JNum 20; JNum 30])])
  /\ fst <$> ObjectUtils.mapDeep (ObjectUtils.logged ObjectUtils.timesTen)
               (ObjectUtils.mkOptions true true true) 3 ObjectUtils.sampleTree []
  = Some (JObj [("x"%string, JNum 10); ("y"%string, JArr [JNum 20; JNum 30])]).
Proof. split; reflexivity. Qed.

(** Replacing the array at [y] by [[99]]: pre-order goes on into the
    replacement and calls the iteratee on 99; post-order has mapped 2 and 3
    before and never sees 99. *)
Example mapDeep_replaceY_calls :
  map fst <$> (snd <$> ObjectUtils.mapDeep (ObjectUtils.logged ObjectUtils.replaceY)
                         ObjectUtils.defaults 3 ObjectUtils.sampleTree [])
  = Some [ObjectUtils.sampleTree; JNum 1; JArr [JNum 2; JNum 3]; JNum 99]
  /\ map fst <$> (snd <$> ObjectUtils.mapDeep (ObjectUtils.logged ObjectUtils.replaceY)
                            (ObjectUtils.mkOptions true true true) 3 ObjectUtils.sampleTree [])
  = Some [JNum 1; JNum 2; JNum 3; JArr [JNum 2; JNum 3];
          JObj [("x"%string, JNum 1); ("y"%string, JArr [JNum 99])]].
Proof. split; reflexivity. Qed.

(** ** object-utils: more on mapDeep *)

Section MapDeepLaws.
Import ObjectUtils.
Context {St : Type}.

Lemma mapFrom_ext (g g' : value -> nat -> St -> option (value * St)) (elems : list value) :
  (forall val i s, val ∈ elems -> g val i s = g' val i s) ->
  forall index s, mapFrom g index elems s = mapFrom g' index elems s.
Proof.
  induction elems as [|val rest IH]; intros Hg index s; [reflexivity|].
  simpl. rewrite (Hg val index s) by left.
  destruct (g' val index s) as [[val' s']|]; [|reflexivity].
  rewrite IH; [reflexivity|]. intros w i t Hw. apply Hg. right. exact Hw.
Qed.

Lemma mapValues_ext (g g' : value -> string -> St -> option (value * St))
    (props : list (string * value)) :
  (forall k val s, (k, val) ∈ props -> g val k s = g' val k s) ->
  forall s, mapValues g props s = mapValues g' props s.
Proof.
  induction props as [|[k val] rest IH]; intros Hg s; [reflexivity|].
  simpl. rewrite (Hg k val s) by left.
  destruct (g' val k s) as [[val' s']|]; [|reflexivity].
  rewrite IH; [reflexivity|]. intros k' w t Hw. apply Hg. right. exact Hw.
Qed.

Lemma mapFrom_id (g : value -> nat -> St -> option (value * St)) (elems : list value) :
  (forall val i s, val ∈ elems -> g val i s = Some (val, s)) ->
  forall index s, mapFrom g index elems s = Some (elems, s).
Proof.
  induction elems as [|val rest IH]; intros Hg index s; [reflexivity|].
  simpl. rewrite (Hg val index s) by left.
  rewrite IH; [reflexivity|]. intros w i t Hw. apply Hg. right. exact Hw.
Qed.

Lemma mapValues_id (g : value -> string -> St -> option (value * St))
    (props : list (string * value)) :
  (forall k val s, (k, val) ∈ props -> g val k s = Some (val, s)) ->
  forall s, mapValues g props s = Some (props, s).
Proof.
  induction props as [|[k val] rest IH]; intros Hg s; [reflexivity|].
  simpl. rewrite (Hg k val s) by left.
  rewrite IH; [reflexivity|]. intros k' w t Hw. apply Hg. right. exact Hw.
Qed.

End MapDeepLaws.

(** X8. With an iteratee that returns every value as it is, mapDeep returns
    a value equal to its input, whatever the options, once the fuel exceeds
    the depth of the value. *)
Theorem mapDeep_identity {St : Type} (opts : ObjectUtils.options) (fuel : nat) :
  forall (v : value) (keyPath : list ObjectUtils.key) (stack : list value) (s : St),
    ObjectUtils.depth v < fuel ->
    ObjectUtils._mapDeep (fun w _ _ t => (w, t)) opts fuel v keyPath stack s = Some (v, s).
Proof.
  induction fuel as [|fuel IH]; intros v keyPath stack s Hfuel; [lia|].
  cbn [ObjectUtils._mapDeep].
  set (invoke := if ObjectUtils.isPlainObject v || ObjectUtils.isArray v
                 then ObjectUtils.iterateCollections opts
                 else ObjectUtils.iteratePrimitives opts).
  replace (if invoke && negb (ObjectUtils.postOrder opts) then (v, s) else (v, s))
    with (v, s) by (destruct (invoke && negb (ObjectUtils.postOrder opts)); reflexivity).
  assert (Hchildren : ObjectUtils.mapChildren
                        (ObjectUtils._mapDeep (fun w _ _ t => (w, t)) opts fuel)
                        v keyPath stack s = Some (v, s)).
  { destruct v as [| | | | |elems|props]; try reflexivity.
    - unfold ObjectUtils.mapChildren. rewrite mapFrom_id; [reflexivity|].
      intros val i t Hval. apply IH. pose proof (depth_elem _ _ Hval). lia.
    - unfold ObjectUtils.mapChildren. rewrite mapValues_id; [reflexivity|].
      intros k val t Hval. apply IH. pose proof (depth_prop _ _ _ Hval). lia. }
  rewrite Hchildren. destruct (invoke && ObjectUtils.postOrder opts); reflexivity.
Qed.

Lemma mapDeep_identity_witness :
  ObjectUtils.mapDeep (fun w _ _ (t : unit) => (w, t))
    (ObjectUtils.mkOptions true true true) 3 ObjectUtils.sampleTree tt
  = Some (ObjectUtils.sampleTree, tt).
Proof.
  apply (mapDeep_identity (ObjectUtils.mkOptions true true true) 3).
  vm_compute. lia.
Defined.

(** X9. Pre-order and post-order give the same result for an iteratee
    without state that returns objects and arrays as they are and maps
    scalars to scalars. *)
Theorem mapDeep_orders_agree
    (f : value -> list ObjectUtils.key -> list value -> value)
    (collections primitives : bool) :
  (forall v keyPath stack,
      ObjectUtils.isPlainObject v || ObjectUtils.isArray v = true -> f v keyPath stack = v) ->
  (forall v keyPath stack,
      ObjectUtils.isPlainObject v || ObjectUtils.isArray v = false ->
      ObjectUtils.isPlainObject (f v keyPath stack)
      || ObjectUtils.isArray (f v keyPath stack) = false) ->
  forall (fuel : nat) (v : value) (keyPath : list ObjectUtils.key) (stack : list value),
    ObjectUtils._mapDeep (ObjectUtils.stateless f)
      (ObjectUtils.mkOptions false collections primitives) fuel v keyPath stack tt
    = ObjectUtils._mapDeep (ObjectUtils.stateless f)
        (ObjectUtils.mkOptions true collections primitives) fuel v keyPath stack tt.
Proof.
  intros Hcontainers Hscalars.
  induction fuel as [|fuel IH]; intros v keyPath stack; [reflexivity|].
  cbn [ObjectUtils._mapDeep]. simpl ObjectUtils.postOrder.
  simpl ObjectUtils.iterateCollections. simpl ObjectUtils.iteratePrimitives.
  rewrite !andb_true_r, !andb_false_r. simpl negb.
  assert (Hsame : forall w,
            ObjectUtils.mapChildren
              (ObjectUtils._mapDeep (ObjectUtils.stateless f)
                 (ObjectUtils.mkOptions false collections primitives) fuel) w keyPath stack tt
            = ObjectUtils.mapChildren
                (ObjectUtils._mapDeep (ObjectUtils.stateless f)
                   (ObjectUtils.mkOptions true collections primitives) fuel) w keyPath stack tt).
  { intros w. destruct w as [| | | | |elems|props]; try reflexivity.
    - unfold ObjectUtils.mapChildren.
      rewrite (mapFrom_ext _ (fun val i => ObjectUtils._mapDeep (ObjectUtils.stateless f)
                 (ObjectUtils.mkOptions true collections primitives) fuel val
                 (keyPath ++ [ObjectUtils.KeyIndex i]) (stack ++ [JArr elems])));
        [reflexivity|].
      intros val i [] _. apply IH.
    - unfold ObjectUtils.mapChildren.
      rewrite (mapValues_ext _ (fun val k => ObjectUtils._mapDeep (ObjectUtils.stateless f)
                 (ObjectUtils.mkOptions true collections primitives) fuel val
                 (keyPath ++ [ObjectUtils.KeyName k]) (stack ++ [JObj props])));
        [reflexivity|].
      intros k val [] _. apply IH. }
  destruct (ObjectUtils.isPlainObject v || ObjectUtils.isArray v) eqn:Hkind.
  - (* an object or an array *)
    assert (Hpre : (if collections then ObjectUtils.stateless f v keyPath stack tt else (v, tt))
                   = (v, tt)).
    { destruct collections; [|reflexivity].
      unfold ObjectUtils.stateless. rewrite Hcontainers by exact Hkind. reflexivity. }
    rewrite Hpre, Hsame.
    destruct (ObjectUtils.mapChildren _ v keyPath stack tt) as [[v2 []]|] eqn:Hchildren;
      [|reflexivity].
    destruct collections; [|reflexivity].
    unfold ObjectUtils.stateless. rewrite Hcontainers; [reflexivity|].
    destruct v as [| | | | |elems|props]; try discriminate Hkind;
      unfold ObjectUtils.mapChildren in Hchildren.
    + destruct (ObjectUtils.mapFrom _ 0 elems tt) as [[elems' u]|]; [|discriminate].
      injection Hchildren as <- _. reflexivity.
    + destruct (ObjectUtils.mapValues _ props tt) as [[props' u]|]; [|discriminate].
      injection Hchildren as <- _. reflexivity.
  - (* a scalar *)
    assert (Hleaf : forall w (g : value -> list ObjectUtils.key -> list value -> unit
                                  -> option (value * unit)),
              ObjectUtils.isPlainObject w || ObjectUtils.isArray w = false ->
              ObjectUtils.mapChildren g w keyPath stack tt = Some (w, tt)).
    { intros w g Hw. destruct w; try reflexivity; discriminate Hw. }
    rewrite (Hleaf v) by exact Hkind.
    destruct primitives.
    + unfold ObjectUtils.stateless. rewrite Hleaf by (apply Hscalars, Hkind). reflexivity.
    + rewrite Hleaf by exact Hkind. reflexivity.
Qed.

Lemma mapDeep_orders_agree_witness :
  ObjectUtils._mapDeep (ObjectUtils.stateless ObjectUtils.timesTen)
    (ObjectUtils.mkOptions false true true) 3 ObjectUtils.sampleTree [] [] tt
  = ObjectUtils._mapDeep (ObjectUtils.stateless ObjectUtils.timesTen)
      (ObjectUtils.mkOptions true true true) 3 ObjectUtils.sampleTree [] [] tt.
Proof.
  apply mapDeep_orders_agree.
  - intros v keyPath stack Hkind. destruct v; try discriminate Hkind; reflexivity.
  - intros v keyPath stack Hkind. destruct v; try discriminate Hkind; reflexivity.
Defined.

Section MapDeepFlags.
Import ObjectUtils.
Variable f : value -> list key -> list value -> value.
Variable opts : options.
Variable P : value * list key -> Prop.

Lemma extends_with_refl (log : list (value * list key)) : extends_with P log log.
Proof. exists []. rewrite app_nil_r. split; [reflexivity|constructor]. Qed.

Lemma extends_with_trans (a b c : list (value * list key)) :
  extends_with P a b -> extends_with P b c -> extends_with P a c.
Proof.
  intros (x & -> & Hx) (y & -> & Hy). exists (x ++ y).
  rewrite app_assoc. split; [reflexivity|]. apply Forall_app. split; assumption.
Qed.

Lemma mapFrom_extends_with (g : value -> nat -> list (value * list key)
                                 -> option (value * list (value * list key))) :
  (forall val i log r log', g val i log = Some (r, log') -> extends_with P log log') ->
  forall elems index log rs log',
    mapFrom g index elems log = Some (rs, log') -> extends_with P log log'.
Proof.
  intros Hg. induction elems as [|val rest IH]; intros index log rs log' H; simpl in H.
  - injection H as _ <-. apply extends_with_refl.
  - destruct (g val index log) as [[val' log1]|] eqn:Hval; [|discriminate H].
    destruct (mapFrom g (S index) rest log1) as [[rest' log2]|] eqn:Hrest; [|discriminate H].
    injection H as _ <-.
    eapply extends_with_trans; [eapply Hg, Hval|eapply IH, Hrest].
Qed.

Lemma mapValues_extends_with (g : value -> string -> list (value * list key)
                                   -> option (value * list (value * list key))) :
  (forall val k log r log', g val k log = Some (r, log') -> extends_with P log log') ->
  forall props log rs log',
    mapValues g props log = Some (rs, log') -> extends_with P log log'.
Proof.
  intros Hg. induction props as [|[k val] rest IH]; intros log rs log' H; simpl in H.
  - injection H as _ <-. apply extends_with_refl.
  - destruct (g val k log) as [[val' log1]|] eqn:Hval; [|discriminate H].
    destruct (mapValues g rest log1) as [[rest' log2]|] eqn:Hrest; [|discriminate H].
    injection H as _ <-.
    eapply extends_with_trans; [eapply Hg, Hval|eapply IH, Hrest].
Qed.

(** Mapping the children keeps the kind of the node and logs what the
    recursive calls log. *)
Lemma mapChildren_extends_with
    (recur : value -> list key -> list value -> list (value * list key)
             -> option (value * list (value * list key))) :
  (forall val keyPath stack log r log',
      recur val keyPath stack log = Some (r, log') -> extends_with P log log') ->
  forall v keyPath stack log r log',
    mapChildren recur v keyPath stack log = Some (r, log') ->
    extends_with P log log'
    /\ isPlainObject r || isArray r = isPlainObject v || isArray v.
Proof.
  intros Hrecur v keyPath stack log r log' H.
  destruct v as [| | | | |elems|props]; simpl in H;
    try (injection H as <- <-; split; [apply extends_with_refl|reflexivity]).
  - destruct (mapFrom _ 0 elems log) as [[elems' log1]|] eqn:E; [|discriminate H].
    injection H as <- <-. split; [|reflexivity].
    eapply mapFrom_extends_with; [|exact E].
    intros val i l r0 l' Hval. eapply Hrecur, Hval.
  - destruct (mapValues _ props log) as [[props' log1]|] eqn:E; [|discriminate H].
    injection H as <- <-. split; [|reflexivity].
    eapply mapValues_extends_with; [|exact E].
    intros val k l r0 l' Hval. eapply Hrecur, Hval.
Qed.

End MapDeepFlags.

(** X10. The options are respected: with iterateCollections false the
    iteratee is never called on an object or an array, with
    iteratePrimitives false never on a scalar, in pre-order and in
    post-order, also for what the iteratee itself put in the tree. *)
Theorem mapDeep_calls_respect_options
    (f : value -> list ObjectUtils.key -> list value -> value)
    (opts : ObjectUtils.options) (fuel : nat) :
  forall (v : value) (keyPath : list ObjectUtils.key) (stack : list value)
         (log : list (value * list ObjectUtils.key)) (result : value)
         (log' : list (value * list ObjectUtils.key)),
    ObjectUtils._mapDeep (ObjectUtils.logged f) opts fuel v keyPath stack log
    = Some (result, log') ->
    exists later,
      log' = log ++ later
      /\ Forall (fun call => ObjectUtils.allowed opts (fst call) = true) later.
Proof.
  induction fuel as [|fuel IH]; intros v keyPath stack log result log' H; [discriminate H|].
  cbn [ObjectUtils._mapDeep] in H.
  fold (ObjectUtils.allowed opts v) in H.
  destruct (if ObjectUtils.allowed opts v && negb (ObjectUtils.postOrder opts)
            then ObjectUtils.logged f v keyPath stack log else (v, log))
    as [v1 log1] eqn:Hpre.
  set (P := fun call : value * list ObjectUtils.key =>
              ObjectUtils.allowed opts (fst call) = true) in *.
  assert (Hlog1 : ObjectUtils.extends_with P log log1
                  /\ (ObjectUtils.postOrder opts = true -> v1 = v)).
  { destruct (ObjectUtils.allowed opts v) eqn:Hallowed;
      destruct (ObjectUtils.postOrder opts); simpl in Hpre.
    - injection Hpre as <- <-. split; [apply extends_with_refl|reflexivity].
    - unfold ObjectUtils.logged in Hpre. injection Hpre as <- <-.
      split; [|discriminate]. exists [(v, keyPath)]. split; [reflexivity|].
      constructor; [exact Hallowed|constructor].
    - injection Hpre as <- <-. split; [apply extends_with_refl|reflexivity].
    - injection Hpre as <- <-. split; [apply extends_with_refl|reflexivity]. }
  destruct Hlog1 as [Hlog1 Hsame].
  destruct (ObjectUtils.mapChildren (ObjectUtils._mapDeep (ObjectUtils.logged f) opts fuel)
              v1 keyPath stack log1) as [[v2 log2]|] eqn:Hchildren; [|discriminate H].
  destruct (mapChildren_extends_with P _ IH _ _ _ _ _ _ Hchildren) as [Hlog2 Hkind].
  injection H as H.
  destruct (ObjectUtils.allowed opts v && ObjectUtils.postOrder opts) eqn:Hpost.
  - unfold ObjectUtils.logged in H. injection H as _ <-.
    apply andb_true_iff in Hpost as [Hallowed Hpostorder].
    eapply extends_with_trans; [exact Hlog1|]. eapply extends_with_trans; [exact Hlog2|].
    exists [(v2, keyPath)]. split; [reflexivity|].
    constructor; [|constructor]. unfold P, ObjectUtils.allowed. simpl fst.
    rewrite Hkind, (Hsame Hpostorder). exact Hallowed.
  - injection H as _ <-. eapply extends_with_trans; eassumption.
Qed.

Lemma mapDeep_calls_respect_options_witness :
  exists result log,
    ObjectUtils._mapDeep (ObjectUtils.logged ObjectUtils.timesTen)
      (ObjectUtils.mkOptions false false true) 3 ObjectUtils.sampleTree [] [] []
    = Some (result, log)
    /\ Forall (fun call => ObjectUtils.allowed (ObjectUtils.mkOptions false false true)
                             (fst call) = true) log.
Proof.
  destruct (ObjectUtils._mapDeep (ObjectUtils.logged ObjectUtils.timesTen)
              (ObjectUtils.mkOptions false false true) 3 ObjectUtils.sampleTree [] [] [])
    as [[result log]|] eqn:Hrun; [|vm_compute in Hrun; discriminate Hrun].
  exists result, log. split; [reflexivity|].
  destruct (mapDeep_calls_respect_options _ _ _ _ _ _ _ _ _ Hrun) as (later & Hlog & Hall).
  simpl in Hlog. subst log. exact Hall.
Defined.

(** ** file-utils: parseMarkdownWithFrontMatter *)

Section FrontMatter.
Import FileUtils.
Local Open Scope string_scope.

Lemma tryFrontMatterType_no_match (s : string) (fmType : frontMatterType) (doc : document) :
  styleMatches s fmType = false -> tryFrontMatterType s fmType doc = Returns doc.
Proof.
  unfold styleMatches, tryFrontMatterType.
  destruct (startsWith (startDelimiter fmType) s); [|reflexivity].
  destruct (indexOf (endDelimiter fmType) s) as [index|]; [|reflexivity].
  destruct (matchAfterEndDelim _) as [matched|]; [|reflexivity].
  cbn [andb]. intros H. apply bool_decide_eq_false in H.
  exfalso. apply H. eexists; reflexivity.
Qed.

Lemma forEachType_no_match (s : string) (fmTypes : list frontMatterType) (doc : document) :
  Forall (fun fmType => styleMatches s fmType = false) fmTypes ->
  forEachType s fmTypes doc = Returns doc.
Proof.
  induction 1 as [|fmType rest Hhead _ IH]; simpl; [reflexivity|].
  rewrite tryFrontMatterType_no_match by exact Hhead. exact IH.
Qed.

Lemma replace_absent (pattern replacement s : string) :
  indexOf pattern s = None -> replace pattern replacement s = s.
Proof.
  unfold replace. intros ->. reflexivity.
Qed.

(** The sample document, whatever the YAML decoder does. *)
Lemma parse_sampleInput (c : codecs) :
  parseMarkdownWithFrontMatter c sampleInput
  = match yaml_load c "title: Hi" with
    | Returns fm => Returns {| frontmatter := fm; markdown := LF ++ "Body text" ++ LF |}
    | Throws error => Throws error
    end.
Proof.
  unfold parseMarkdownWithFrontMatter.
  change (replace CRLF LF sampleInput) with sampleInput.
  unfold frontMatterTypes, forEachType.
  change (tryFrontMatterType sampleInput
            {| type := "yaml"; startDelimiter := "---" ++ LF; endDelimiter := LF ++ "---";
               parse := yaml_load c |}
            {| frontmatter := JNull; markdown := sampleInput |})
    with (match yaml_load c "title: Hi" with
          | Returns fm => Returns {| frontmatter := fm; markdown := LF ++ "Body text" ++ LF |}
          | Throws error => Throws error
          end).
  destruct (yaml_load c "title: Hi") as [fm|error]; reflexivity.
Qed.

End FrontMatter.

(** C6, as stated, fails: whatever the decoders are, the markdown returned
    for the sample document is not the text [Body text] and a line feed. *)
Lemma parse_sampleInput_markdown_not_trimmed :
  ~ exists c : FileUtils.codecs,
      FileUtils.parseMarkdownWithFrontMatter c FileUtils.sampleInput
      = FileUtils.Returns
          {| FileUtils.frontmatter := JObj [("title"%string, JStr "Hi")];
             FileUtils.markdown := String.append "Body text" FileUtils.LF |}.
Proof.
  intros [c H]. rewrite parse_sampleInput in H.
  destruct (FileUtils.yaml_load c "title: Hi") as [fm|error]; [|discriminate H].
  injection H as _ H. vm_compute in H. discriminate H.
Qed.

(** C6, amended. With a YAML decoder that reads [title: Hi] as the object
    with the one property title = Hi, parseMarkdownWithFrontMatter returns
    that object as front matter, and as markdown the text after the line
    feed that ends the closing delimiter line: a line feed, [Body text], and
    a line feed. *)
Theorem parse_sampleInput_keeps_blank_line (c : FileUtils.codecs) :
  FileUtils.yaml_load c "title: Hi" = FileUtils.Returns (JObj [("title"%string, JStr "Hi")]) ->
  FileUtils.parseMarkdownWithFrontMatter c FileUtils.sampleInput
  = FileUtils.Returns
      {| FileUtils.frontmatter := JObj [("title"%string, JStr "Hi")];
         FileUtils.markdown :=
           String.append FileUtils.LF (String.append "Body text" FileUtils.LF) |}.
Proof.
  intros Hyaml. rewrite parse_sampleInput, Hyaml. reflexivity.
Qed.

Lemma parse_sampleInput_keeps_blank_line_witness :
  FileUtils.parseMarkdownWithFrontMatter FileUtils.sampleCodecs FileUtils.sampleInput
  = FileUtils.Returns
      {| FileUtils.frontmatter := JObj [("title"%string, JStr "Hi")];
         FileUtils.markdown :=
           String.append FileUtils.LF (String.append "Body text" FileUtils.LF) |}.
Proof.
  apply (parse_sampleInput_keeps_blank_line FileUtils.sampleCodecs). reflexivity.
Defined.

(** C7, as stated, fails: no front matter type matches the text a, carriage
    return, line feed, b (before or after the replacement), and the markdown
    returned is a, line feed, b, not the input; the pair replaced is not at
    the start of the text. *)
Lemma parse_crlf_not_verbatim :
  let input := String.append "a" (String.append FileUtils.CRLF "b") in
  Forall (fun fmType => FileUtils.styleMatches input fmType = false
                        /\ FileUtils.styleMatches
                             (FileUtils.replace FileUtils.CRLF FileUtils.LF input) fmType = false)
    (FileUtils.frontMatterTypes FileUtils.sampleCodecs)
  /\ FileUtils.parseMarkdownWithFrontMatter FileUtils.sampleCodecs input
     = FileUtils.Returns
         {| FileUtils.frontmatter := JNull;
            FileUtils.markdown := String.append "a" (String.append FileUtils.LF "b") |}
  /\ String.append "a" (String.append FileUtils.LF "b") <> input.
Proof.
  split; [|split].
  - repeat constructor.
  - reflexivity.
  - discriminate.
Qed.

(** C7, amended. When no front matter type matches the text obtained from
    the input by replacing its first carriage return + line feed pair,
    wherever it is, by a line feed, parseMarkdownWithFrontMatter returns null
    front matter and that text as markdown; it is the input itself when the
    input contains no such pair. *)
Theorem parse_without_front_matter (c : FileUtils.codecs) (input : string) :
  Forall (fun fmType =>
            FileUtils.styleMatches
              (FileUtils.replace FileUtils.CRLF FileUtils.LF input) fmType = false)
    (FileUtils.frontMatterTypes c) ->
  FileUtils.parseMarkdownWithFrontMatter c input
  = FileUtils.Returns
      {| FileUtils.frontmatter := JNull;
         FileUtils.markdown := FileUtils.replace FileUtils.CRLF FileUtils.LF input |}
  /\ (FileUtils.indexOf FileUtils.CRLF input = None ->
        FileUtils.parseMarkdownWithFrontMatter c input
        = FileUtils.Returns {| FileUtils.frontmatter := JNull; FileUtils.markdown := input |}).
Proof.
  intros Hnone.
  assert (Hparse : FileUtils.parseMarkdownWithFrontMatter c input
                   = FileUtils.Returns
                       {| FileUtils.frontmatter := JNull;
                          FileUtils.markdown :=
                            FileUtils.replace FileUtils.CRLF FileUtils.LF input |}).
  { unfold FileUtils.parseMarkdownWithFrontMatter.
    apply forEachType_no_match. exact Hnone. }
  split; [exact Hparse|].
  intros Habsent. rewrite Hparse, replace_absent by exact Habsent. reflexivity.
Qed.

Lemma parse_without_front_matter_witness :
  FileUtils.parseMarkdownWithFrontMatter FileUtils.sampleCodecs "No frontmatter here"
  = FileUtils.Returns
      {| FileUtils.frontmatter := JNull; FileUtils.markdown := "No frontmatter here" |}.
Proof.
  assert (Hnone : Forall (fun fmType =>
                    FileUtils.styleMatches
                      (FileUtils.replace FileUtils.CRLF FileUtils.LF "No frontmatter here")
                      fmType = false)
                    (FileUtils.frontMatterTypes FileUtils.sampleCodecs))
    by (repeat constructor).
  destruct (parse_without_front_matter FileUtils.sampleCodecs "No frontmatter here" Hnone)
    as [_ Hverbatim].
  apply Hverbatim. reflexivity.
Defined.

(** ** file-utils: what parseMarkdownWithFrontMatter returns and throws *)

Section Strings.
Import FileUtils.
Local Open Scope string_scope.

Lemma append_cons (x : ascii) (a b : string) : String x a ++ b = String x (a ++ b).
Proof. reflexivity. Qed.

Lemma append_assoc (a b c : string) : (a ++ b) ++ c = a ++ (b ++ c).
Proof.
  induction a as [|x a IH]; [reflexivity|].
  rewrite !append_cons, IH. reflexivity.
Qed.

Lemma length_append (a b : string) :
  String.length (a ++ b) = (String.length a + String.length b)%nat.
Proof.
  induction a as [|x a IH]; [reflexivity|].
  rewrite append_cons. simpl. rewrite IH. reflexivity.
Qed.

Lemma substring_whole (s : string) : String.substring 0 (String.length s) s = s.
Proof. induction s as [|x s IH]; simpl; [reflexivity|]. rewrite IH. reflexivity. Qed.

Lemma substring_prefix (a b : string) :
  String.substring 0 (String.length a) (a ++ b) = a.
Proof.
  induction a as [|x a IH].
  - destruct b; reflexivity.
  - rewrite append_cons. simpl. rewrite IH. reflexivity.
Qed.

Lemma substring_skip (a b : string) (n m : nat) :
  String.substring (String.length a + n) m (a ++ b) = String.substring n m b.
Proof.
  induction a as [|x a IH]; [reflexivity|].
  rewrite append_cons. simpl. exact IH.
Qed.

Lemma substringFrom_append (a b : string) : substringFrom (String.length a) (a ++ b) = b.
Proof.
  unfold substringFrom. rewrite length_append.
  replace (String.length a + String.length b - String.length a)%nat with (String.length b) by lia.
  pose proof (substring_skip a b 0 (String.length b)) as H.
  rewrite Nat.add_0_r in H. rewrite H. apply substring_whole.
Qed.

(** What is left of a text from some index on is an end of the text. *)
Lemma substringFrom_suffix (s : string) :
  forall n, exists before, s = before ++ substringFrom n s.
Proof.
  induction s as [|x s IH]; intros n.
  - exists EmptyString. destruct n; reflexivity.
  - destruct n as [|n].
    + exists EmptyString. unfold substringFrom. rewrite Nat.sub_0_r, substring_whole. reflexivity.
    + destruct (IH n) as [before Hbefore]. exists (String x before).
      rewrite append_cons. unfold substringFrom in *. simpl. f_equal. exact Hbefore.
Qed.

End Strings.

Section FrontMatterResults.
Import FileUtils.
Local Open Scope string_scope.
Variable c : codecs.

(** One front matter type either leaves the document alone; or it matches,
    its decoder returns, and the markdown is an end of the text; or it
    matches and its decoder throws. *)
Lemma tryFrontMatterType_cases (s : string) (fmType : frontMatterType) (doc : document) :
  tryFrontMatterType s fmType doc = Returns doc
  \/ (styleMatches s fmType = true
      /\ exists data,
           match parse fmType data with
           | Returns fm =>
               exists before,
                 tryFrontMatterType s fmType doc
                 = Returns {| frontmatter := fm; markdown := substringFrom before s |}
           | Throws error => tryFrontMatterType s fmType doc = Throws error
           end).
Proof.
  unfold tryFrontMatterType, styleMatches.
  destruct (startsWith (startDelimiter fmType) s); [|left; reflexivity].
  destruct (indexOf (endDelimiter fmType) s) as [index|]; [|left; reflexivity].
  destruct (matchAfterEndDelim _) as [matched|] eqn:Hmatch; [|left; reflexivity].
  right. split; [cbn [andb]; apply bool_decide_eq_true; eexists; reflexivity|].
  exists (substringBetween (String.length (startDelimiter fmType)) index s).
  destruct (parse fmType _) as [fm|error]; [|reflexivity].
  exists (index + String.length (endDelimiter fmType) + matched)%nat.
  do 2 f_equal. unfold substringFrom.
  remember (index + String.length (endDelimiter fmType))%nat as e.
  clear. revert e matched. induction s as [|x s IH]; intros e matched.
  - destruct e, matched; reflexivity.
  - destruct e as [|e].
    + simpl Nat.add. rewrite Nat.sub_0_r, substring_whole. reflexivity.
    + simpl. apply IH.
Qed.

Lemma forEachType_suffix (s : string) (fmTypes : list frontMatterType) :
  forall doc doc',
    (exists before, s = before ++ markdown doc) ->
    forEachType s fmTypes doc = Returns doc' ->
    exists before, s = before ++ markdown doc'.
Proof.
  induction fmTypes as [|fmType rest IH]; intros doc doc' Hdoc Hrun; simpl in Hrun.
  - injection Hrun as <-. exact Hdoc.
  - destruct (tryFrontMatterType_cases s fmType doc) as [Hsame|(_ & data & Hcase)].
    + rewrite Hsame in Hrun. apply (IH doc doc' Hdoc Hrun).
    + destruct (parse fmType data) as [fm|error].
      * destruct Hcase as [before Htry]. rewrite Htry in Hrun.
        apply (IH {| frontmatter := fm; markdown := substringFrom before s |} doc'
                 (substringFrom_suffix s before) Hrun).
      * rewrite Hcase in Hrun. discriminate Hrun.
Qed.

Lemma forEachType_throws (s : string) (fmTypes : list frontMatterType) :
  forall doc error,
    forEachType s fmTypes doc = Throws error ->
    exists fmType data,
      fmType ∈ fmTypes /\ styleMatches s fmType = true /\ parse fmType data = Throws error.
Proof.
  induction fmTypes as [|fmType rest IH]; intros doc error Hrun; simpl in Hrun;
    [discriminate Hrun|].
  destruct (tryFrontMatterType_cases s fmType doc) as [Hsame|(Hmatch & data & Hcase)].
  - rewrite Hsame in Hrun. destruct (IH doc error Hrun) as (t & data & Hin & H).
    exists t, data. split; [right; exact Hin|exact H].
  - destruct (parse fmType data) as [fm|error'] eqn:Hparse.
    + destruct Hcase as [before Htry]. rewrite Htry in Hrun.
      destruct (IH _ error Hrun) as (t & data' & Hin & H).
      exists t, data'. split; [right; exact Hin|exact H].
    + rewrite Hcase in Hrun. injection Hrun as <-.
      exists fmType, data. split; [left|]. split; [exact Hmatch|exact Hparse].
Qed.

Lemma forEachType_returns (s : string) (fmTypes : list frontMatterType) :
  (forall fmType data error, fmType ∈ fmTypes -> parse fmType data <> Throws error) ->
  forall doc, exists doc', forEachType s fmTypes doc = Returns doc'.
Proof.
  intros Htotal doc. destruct (forEachType s fmTypes doc) as [doc'|error] eqn:Hrun.
  - exists doc'. reflexivity.
  - destruct (forEachType_throws s fmTypes doc error Hrun) as (t & data & Hin & _ & Hthrow).
    exfalso. apply (Htotal t data error Hin Hthrow).
Qed.

(** A front matter type throws only when it matches, and what it throws
    is what its decoder threw on the text between the delimiters. *)
Lemma tryFrontMatterType_throws (s : string) (fmType : frontMatterType) (doc : document)
    (error : value) :
  tryFrontMatterType s fmType doc = Throws error ->
  styleMatches s fmType = true
  /\ exists index,
       indexOf (endDelimiter fmType) s = Some index
       /\ parse fmType (substringBetween (String.length (startDelimiter fmType)) index s)
          = Throws error.
Proof.
  unfold tryFrontMatterType, styleMatches.
  destruct (startsWith (startDelimiter fmType) s); [|discriminate].
  destruct (indexOf (endDelimiter fmType) s) as [index|]; [|discriminate].
  destruct (matchAfterEndDelim _) as [matched|] eqn:Hmatch; [|discriminate].
  destruct (parse fmType _) as [fm|error'] eqn:Hparse; [discriminate|].
  intros [= ->]. split.
  - cbn [andb]. apply bool_decide_eq_true. eexists. reflexivity.
  - exists index. split; [reflexivity|exact Hparse].
Qed.

Lemma forEachType_throws_between (s : string) (fmTypes : list frontMatterType) :
  forall doc error,
    forEachType s fmTypes doc = Throws error ->
    exists fmType index,
      fmType ∈ fmTypes
      /\ styleMatches s fmType = true
      /\ indexOf (endDelimiter fmType) s = Some index
      /\ parse fmType (substringBetween (String.length (startDelimiter fmType)) index s)
         = Throws error.
Proof.
  induction fmTypes as [|fmType rest IH]; intros doc error Hrun; simpl in Hrun;
    [discriminate Hrun|].
  destruct (tryFrontMatterType s fmType doc) as [doc'|error'] eqn:Htry.
  - destruct (IH doc' error Hrun) as (t & index & Hin & H).
    exists t, index. split; [right; exact Hin|exact H].
  - injection Hrun as ->.
    destruct (tryFrontMatterType_throws s fmType doc error Htry) as (Hmatch & index & H).
    exists fmType, index. split; [left|]. split; [exact Hmatch|exact H].
Qed.

End FrontMatterResults.

(** X11. The markdown that parseMarkdownWithFrontMatter returns is always an
    end of the text it works on (the input after the replacement of its
    first carriage return + line feed pair): the body is never rewritten,
    only a beginning is cut off. *)
Theorem parse_markdown_is_suffix (c : FileUtils.codecs) (input : string)
    (doc : FileUtils.document) :
  FileUtils.parseMarkdownWithFrontMatter c input = FileUtils.Returns doc ->
  exists before,
    FileUtils.replace FileUtils.CRLF FileUtils.LF input
    = String.append before (FileUtils.markdown doc).
Proof.
  unfold FileUtils.parseMarkdownWithFrontMatter. intros Hrun.
  eapply forEachType_suffix; [|exact Hrun].
  exists EmptyString. reflexivity.
Qed.

Lemma parse_markdown_is_suffix_witness :
  exists before,
    FileUtils.sampleInput
    = String.append before (String.append FileUtils.LF (String.append "Body text" FileUtils.LF)).
Proof.
  destruct (parse_markdown_is_suffix FileUtils.sampleCodecs FileUtils.sampleInput
              {| FileUtils.frontmatter := JObj [("title"%string, JStr "Hi")];
                 FileUtils.markdown :=
                   String.append FileUtils.LF (String.append "Body text" FileUtils.LF) |}
              eq_refl) as [before Hbefore].
  exists before. exact Hbefore.
Defined.

(** X12. parseMarkdownWithFrontMatter throws only what a decoder threw: the
    decoder of a front matter type that matches the text, called on the
    text between the start delimiter and the first end delimiter; with
    decoders that do not throw it always returns. *)
Theorem parse_throws_only_decoder_errors (c : FileUtils.codecs) (input : string) :
  let text := FileUtils.replace FileUtils.CRLF FileUtils.LF input in
  (forall error,
     FileUtils.parseMarkdownWithFrontMatter c input = FileUtils.Throws error ->
     exists fmType index,
       fmType ∈ FileUtils.frontMatterTypes c
       /\ FileUtils.styleMatches text fmType = true
       /\ FileUtils.indexOf (FileUtils.endDelimiter fmType) text = Some index
       /\ FileUtils.parse fmType
            (FileUtils.substringBetween
               (String.length (FileUtils.startDelimiter fmType)) index text)
          = FileUtils.Throws error)
  /\ ((forall fmType data error,
         fmType ∈ FileUtils.frontMatterTypes c ->
         FileUtils.parse fmType data <> FileUtils.Throws error) ->
      exists doc, FileUtils.parseMarkdownWithFrontMatter c input = FileUtils.Returns doc).
Proof.
  unfold FileUtils.parseMarkdownWithFrontMatter. split.
  - intros error Hrun. apply (forEachType_throws_between _ _ _ _ Hrun).
  - intros Htotal. apply forEachType_returns. exact Htotal.
Qed.

Lemma parse_throws_only_decoder_errors_witness :
  let input := String.append "+++" (String.append FileUtils.LF
                 (String.append "a = 1" (String.append FileUtils.LF "+++"))) in
  exists fmType index,
    fmType ∈ FileUtils.frontMatterTypes FileUtils.sampleCodecs
    /\ FileUtils.indexOf (FileUtils.endDelimiter fmType) input = Some index
    /\ FileUtils.parse fmType
         (FileUtils.substringBetween
            (String.length (FileUtils.startDelimiter fmType)) index input)
       = FileUtils.Throws (JStr "TomlError").
Proof.
  intros input.
  destruct (parse_throws_only_decoder_errors FileUtils.sampleCodecs input) as [Hthrows _].
  destruct (Hthrows (JStr "TomlError") eq_refl) as (fmType & index & Hin & _ & Hindex & Hparse).
  exists fmType, index. split; [exact Hin|]. split; [exact Hindex|exact Hparse].
Defined.

(** ** file-utils: stringify, then parse *)

Section RoundTrip.
Import FileUtils.
Local Open Scope string_scope.

Lemma prefix_append (a b : string) : String.prefix a (a ++ b) = true.
Proof.
  induction a as [|x a IH]; [destruct b; reflexivity|].
  rewrite append_cons. simpl. destruct (ascii_dec x x); [exact IH|congruence].
Qed.

Local Abbreviation stringified yamlText body :=
  ("---" ++ LF ++ (yamlText ++ LF) ++ "---" ++ LF ++ body) (only parsing).

Lemma stringified_head (yamlText body : string) :
  stringified yamlText body
  = ("---" ++ LF) ++ yamlText ++ (LF ++ "---") ++ LF ++ body.
Proof.
  change ("---" ++ LF ++ (yamlText ++ LF) ++ "---" ++ LF ++ body)
    with (("---" ++ LF) ++ (yamlText ++ LF) ++ "---" ++ LF ++ body).
  rewrite (append_assoc yamlText LF). reflexivity.
Qed.

Lemma stringified_tail (yamlText body : string) :
  stringified yamlText body
  = (("---" ++ LF) ++ yamlText ++ (LF ++ "---")) ++ LF ++ body.
Proof.
  rewrite stringified_head, !append_assoc. reflexivity.
Qed.

Lemma parse_stringified (c : codecs) (yamlText body : string) :
  indexOf CRLF (stringified yamlText body) = None ->
  indexOf (LF ++ "---") (stringified yamlText body) = Some (4 + String.length yamlText)%nat ->
  parseMarkdownWithFrontMatter c (stringified yamlText body)
  = match yaml_load c yamlText with
    | Returns fm => Returns {| frontmatter := fm; markdown := body |}
    | Throws error => Throws error
    end.
Proof.
  intros Hcrlf Hend. unfold parseMarkdownWithFrontMatter.
  rewrite replace_absent by exact Hcrlf.
  set (text := stringified yamlText body) in *.
  unfold frontMatterTypes, forEachType.
  assert (Hyaml : tryFrontMatterType text
                    {| type := "yaml"; startDelimiter := "---" ++ LF;
                       endDelimiter := LF ++ "---"; parse := yaml_load c |}
                    {| frontmatter := JNull; markdown := text |}
                  = match yaml_load c yamlText with
                    | Returns fm => Returns {| frontmatter := fm; markdown := body |}
                    | Throws error => Throws error
                    end).
  { unfold tryFrontMatterType. cbn [startDelimiter endDelimiter parse].
    assert (Hstart : startsWith ("---" ++ LF) text = true).
    { unfold text, startsWith. rewrite stringified_head. apply prefix_append. }
    rewrite Hstart, Hend.
    change (String.length (LF ++ "---")) with 4%nat.
    change (String.length ("---" ++ LF)) with 4%nat.
    assert (Hafter : substringFrom (4 + String.length yamlText + 4) text = LF ++ body).
    { unfold text. rewrite stringified_tail.
      replace (4 + String.length yamlText + 4)%nat
        with (String.length (("---" ++ LF) ++ yamlText ++ (LF ++ "---"))).
      - apply substringFrom_append.
      - rewrite !length_append. reflexivity. }
    rewrite Hafter.
    change (matchAfterEndDelim (LF ++ body)) with (Some 1%nat).
    assert (Hdata : substringBetween 4 (4 + String.length yamlText) text = yamlText).
    { unfold substringBetween, text. rewrite stringified_head.
      replace (Nat.min 4 (4 + String.length yamlText)) with 4%nat by lia.
      replace (Nat.max 4 (4 + String.length yamlText) - 4)%nat
        with (String.length yamlText) by lia.
      pose proof (substring_skip ("---" ++ LF) (yamlText ++ (LF ++ "---") ++ LF ++ body)
                    0 (String.length yamlText)) as H.
      change (String.length ("---" ++ LF) + 0)%nat with 4%nat in H.
      rewrite H. apply substring_prefix. }
    rewrite Hdata.
    destruct (yaml_load c yamlText) as [fm|error]; [|reflexivity].
    do 2 f_equal. pose proof (substringFrom_append LF body) as H. exact H. }
  rewrite Hyaml.
  destruct (yaml_load c yamlText) as [fm|error]; [|reflexivity].
  assert (Hother : forall fmType doc,
            startsWith (startDelimiter fmType) text = false ->
            tryFrontMatterType text fmType doc = Returns doc).
  { intros fmType doc H. unfold tryFrontMatterType. rewrite H. reflexivity. }
  rewrite Hother by reflexivity. rewrite Hother by reflexivity. reflexivity.
Qed.

Lemma markdown_extension (extension : string) :
  extension = "md" \/ extension = "mdx" \/ extension = "markdown" ->
  (String.eqb extension "yml" || String.eqb extension "yaml" = false)
  /\ String.eqb extension "json" = false
  /\ String.eqb extension "toml" = false
  /\ (String.eqb extension "md" || String.eqb extension "mdx"
      || String.eqb extension "markdown" = true).
Proof.
  intros [H | [H | H]]; subst extension; repeat split; reflexivity.
Qed.

End RoundTrip.

(** X13. A markdown file written by stringifyDataByFilePath reads back with
    parseDataByFilePath: the markdown is the body that was written, and the
    front matter is what the YAML decoder makes of the dumped text without
    its final line feed.  This holds when the text written contains no
    carriage return + line feed pair and its first line feed followed by
    [---] is the one that ends the dumped YAML (no line of the YAML text
    starts with [---]). *)
Theorem stringify_then_parse_markdown
    (c : FileUtils.codecs) (e : FileUtils.encoders) (extname : string -> string)
    (data : value) (filePath yamlText body : string) :
  let extension := FileUtils.substringFrom 1 (extname filePath) in
  let text :=
    String.append "---" (String.append FileUtils.LF
      (String.append (String.append yamlText FileUtils.LF)
         (String.append "---" (String.append FileUtils.LF body)))) in
  extension = "md"%string \/ extension = "mdx"%string \/ extension = "markdown"%string ->
  Lodash.isNil data = false ->
  Lodash.prop data "markdown" = JStr body ->
  FileUtils.yaml_dump e (Lodash.prop data "frontmatter")
  = FileUtils.Returns (String.append yamlText FileUtils.LF) ->
  FileUtils.indexOf FileUtils.CRLF text = None ->
  FileUtils.indexOf (String.append FileUtils.LF "---") text
  = Some (4 + String.length yamlText) ->
  FileUtils.stringifyDataByFilePath e extname data filePath = Some (FileUtils.Returns text)
  /\ FileUtils.parseDataByFilePath c extname text filePath
     = match FileUtils.yaml_load c yamlText with
       | FileUtils.Returns fm =>
           FileUtils.Returns
             (FileUtils.documentValue
                {| FileUtils.frontmatter := fm; FileUtils.markdown := body |})
       | FileUtils.Throws error => FileUtils.Throws error
       end.
Proof.
  cbv zeta. intros Hext Hdata Hbody Hdump Hcrlf Hend. split.
  - unfold FileUtils.stringifyDataByFilePath. cbv zeta.
    destruct (markdown_extension _ Hext) as (-> & -> & -> & ->).
    rewrite Hdata, Hdump, Hbody. reflexivity.
  - unfold FileUtils.parseDataByFilePath. cbv zeta.
    destruct (markdown_extension _ Hext) as (-> & -> & -> & ->).
    rewrite parse_stringified by assumption.
    destruct (FileUtils.yaml_load c yamlText); reflexivity.
Qed.

Lemma stringify_then_parse_markdown_witness :
  let data := JObj [("frontmatter"%string, JObj [("title"%string, JStr "Hi")]);
                    ("markdown"%string, JStr "Body")] in
  exists text,
    FileUtils.stringifyDataByFilePath FileUtils.sampleEncoders (fun _ => ".md"%string)
      data "post.md" = Some (FileUtils.Returns text)
    /\ FileUtils.parseDataByFilePath FileUtils.sampleCodecs (fun _ => ".md"%string)
         text "post.md" = FileUtils.Returns data.
Proof.
  intros data.
  destruct (stringify_then_parse_markdown FileUtils.sampleCodecs FileUtils.sampleEncoders
              (fun _ => ".md"%string) data "post.md" "title: Hi" "Body")
    as [Hwrite Hread]; try reflexivity.
  - left. reflexivity.
  - eexists. split; [exact Hwrite|exact Hread].
Defined.

(** ** task-queue: the nesting of calls is bounded by the queue *)

Section Fuel.
Import TaskQueue.

Lemma run_head_shorter (now : Z) (q q2 : queue) :
  run_head now q = Some q2 ->
  (length (taskQueue q2) < length (taskQueue q))%nat /\ _runTask q2 = _runTask q.
Proof.
  unfold run_head. destruct (taskQueue q) as [|task rest]; [discriminate|].
  intros [= <-]. simpl. split; [lia|].
  unfold clear_timeout. destruct (timeout q); reflexivity.
Qed.

Lemma invoke_fuel (r : runner) :
  forall (k : queue -> result) (now : Z) (q : queue),
    (forall q2, (length (taskQueue q2) < length (taskQueue q))%nat -> k q2 <> OutOfFuel) ->
    invoke r k now q <> OutOfFuel.
Proof.
  induction r as [|r IH|r IH]; intros k now q Hk; simpl.
  - destruct (run_head now q) as [q2|] eqn:Hrun; [|discriminate].
    apply Hk. apply (run_head_shorter now q q2 Hrun).
  - destruct (lastRunTime q); [|apply IH, Hk].
    destruct (timeout q); [discriminate|].
    destruct (_ >=? _)%Z; [apply IH, Hk|discriminate].
  - destruct (_ <? _)%Z; [apply IH, Hk|discriminate].
Qed.

Lemma executeNextTask_fuel (fuel : nat) :
  forall (now : Z) (q : queue),
    (length (taskQueue q) < fuel)%nat -> _executeNextTask fuel now q <> OutOfFuel.
Proof.
  induction fuel as [|fuel IH]; intros now q Hfuel; [lia|].
  simpl. destruct (taskQueue q) as [|task rest] eqn:Hqueue; [discriminate|].
  apply invoke_fuel. intros q2 Hshorter. apply IH.
  rewrite Hqueue in Hshorter. simpl in Hfuel, Hshorter. lia.
Qed.

(** Whatever the options, no event exhausts the bound the model puts on the
    nesting of calls. *)
Lemma step_fuel (e : event) (now : Z) (q : queue) : step e now q <> OutOfFuel.
Proof.
  destruct e as [task| |task|h]; simpl.
  - apply executeNextTask_fuel. unfold enough. lia.
  - discriminate.
  - apply executeNextTask_fuel. unfold enough. lia.
  - apply invoke_fuel. intros q2 Hshorter. apply executeNextTask_fuel.
    unfold enough. lia.
Qed.

(** A limit of 0 is no limit: the constructor tests [if (this.limit)], stores
    the method [_runTask] unguarded, and two submitted tasks both run. *)
Remark limit_zero_is_no_limit :
  _runTask (constructor (Some 0%Z) None) = Base
  /\ (runCount <$> run_events [(AddTask 1, 0%Z); (AddTask 2, 0%Z)]
                     (constructor (Some 0%Z) None)) = Some 2%Z.
Proof. split; reflexivity. Qed.

End Fuel.

(** ** task-queue: a limit and no interval *)

Section LimitOnly.
Import TaskQueue.
Local Open Scope Z_scope.
Variable N : Z.
Hypothesis N_positive : 0 < N.

Lemma constructor_limit_invariant : limit_invariant N (constructor (Some N) None).
Proof.
  unfold limit_invariant, constructor. simpl.
  replace (N =? 0) with false by (symmetry; apply Z.eqb_neq; lia). simpl.
  repeat split; try reflexivity; try lia.
Qed.

(** At the limit nothing starts. *)
Lemma executeNextTask_at_limit (fuel : nat) (now : Z) (q : queue) :
  _runTask q = LimitGate Base -> limit q = Some N -> N <= runCount q ->
  _executeNextTask (S fuel) now q = Ok q.
Proof.
  intros Hrunner Hlimit Hfull. simpl.
  destruct (taskQueue q); [reflexivity|].
  rewrite Hrunner. simpl. rewrite Hlimit. simpl.
  replace (runCount q <? N) with false by (symmetry; apply Z.ltb_ge; lia).
  reflexivity.
Qed.

Lemma executeNextTask_limit (now : Z) (fuel : nat) :
  forall q : queue,
    limit_invariant N q ->
    (length (taskQueue q) < fuel)%nat ->
    exists q', _executeNextTask fuel now q = Ok q'
      /\ limit_invariant N q'
      /\ limit_reached_when_waiting N q'
      /\ submitted q' = submitted q
      /\ map started_task (started q') ++ taskQueue q'
         = map started_task (started q) ++ taskQueue q.
Proof.
  induction fuel as [|fuel IH]; intros q Hinv Hfuel; [lia|].
  simpl. destruct (taskQueue q) as [|task rest] eqn:Hqueue.
  - exists q. rewrite Hqueue. split; [reflexivity|]. split; [exact Hinv|].
    split; [|split; reflexivity].
    intros Hne. rewrite Hqueue in Hne. congruence.
  - destruct Hinv as (Hrunner & Hlimit & Htimeout & Htimers & Hcount & Hle & Hfifo).
    rewrite Hrunner. simpl invoke. rewrite Hlimit. simpl toNumber.
    destruct (runCount q <? N) eqn:Hlt.
    + apply Z.ltb_lt in Hlt.
      unfold run_head. rewrite Hqueue. unfold clear_timeout. rewrite Htimeout.
      match goal with |- context [_executeNextTask fuel now ?q2] => set (started_q := q2) end.
      destruct (IH started_q) as (q' & Hexec & Hinv' & Hwait' & Hsub' & Hfifo').
      * unfold limit_invariant, started_q. simpl.
        split; [exact Hrunner|]. split; [exact Hlimit|]. split; [exact Htimeout|].
        split; [exact Htimers|].
        split; [rewrite length_app; simpl; lia|]. split; [lia|].
        rewrite map_app, <- app_assoc. simpl. rewrite Hqueue in Hfifo. exact Hfifo.
      * unfold started_q. simpl. simpl in Hfuel. lia.
      * exists q'. split; [exact Hexec|]. split; [exact Hinv'|]. split; [exact Hwait'|].
        split; [exact Hsub'|].
        rewrite Hfifo'. unfold started_q. simpl.
        rewrite map_app, <- app_assoc. reflexivity.
    + apply Z.ltb_ge in Hlt. exists q. rewrite Hqueue.
      split; [reflexivity|].
      split; [unfold limit_invariant; rewrite Hqueue in Hfifo; rewrite Hqueue; tauto|].
      split; [intros _; lia|]. split; reflexivity.
Qed.

Lemma length_remove_task (task : Task) (tasks : list Task) :
  task ∈ tasks -> length tasks = S (length (remove_task task tasks)).
Proof.
  induction tasks as [|t rest IH]; intros Hin; [inversion Hin|].
  simpl. destruct (Nat.eqb t task) eqn:E; [reflexivity|].
  apply elem_of_cons in Hin as [->|Hin].
  - rewrite Nat.eqb_refl in E. discriminate E.
  - simpl. rewrite <- IH by exact Hin. reflexivity.
Qed.

(** Every event that can happen leaves the queue within the invariant, and
    the code does not throw. *)
Lemma step_limit (e : event) (now : Z) (q : queue) :
  limit_invariant N q ->
  enabled e now q = true ->
  exists q', step e now q = Ok q'
    /\ limit_invariant N q'
    /\ limit_reached_when_waiting N q'
    /\ (e <> ClearQueue ->
        map started_task (started q) ++ taskQueue q = submitted q ->
        map started_task (started q') ++ taskQueue q' = submitted q').
Proof.
  intros Hinv Henabled.
  pose proof Hinv as (Hrunner & Hlimit & Htimeout & Htimers & Hcount & Hle & Hfifo).
  destruct e as [task| |task|h]; simpl step.
  - unfold addTask.
    match goal with |- context [_executeNextTask _ now ?q1] => set (pushed := q1) end.
    destruct (executeNextTask_limit now (enough pushed) pushed)
      as (q' & Hexec & Hinv' & Hwait' & Hsub' & Hfifo').
    + unfold limit_invariant, pushed. simpl.
      repeat (split; [assumption|]).
      rewrite app_assoc. apply sublist_app; [exact Hfifo|reflexivity].
    + unfold enough. lia.
    + exists q'. split; [exact Hexec|]. split; [exact Hinv'|]. split; [exact Hwait'|].
      intros _ Hall. rewrite Hfifo', Hsub'. unfold pushed. simpl.
      rewrite app_assoc, Hall. reflexivity.
  - exists (clearQueue q). split; [reflexivity|].
    unfold clearQueue, clear_timeout. rewrite Htimeout.
    split; [|split].
    + unfold limit_invariant. simpl.
      repeat (split; [assumption|]).
      rewrite app_nil_r. etransitivity; [|exact Hfifo].
      apply sublist_inserts_r. reflexivity.
    + intros Hne. simpl in Hne. congruence.
    + intros Hne. congruence.
  - simpl in Henabled. apply bool_decide_eq_true in Henabled.
    unfold task_settled.
    match goal with |- context [_executeNextTask _ now ?q1] => set (freed := q1) end.
    destruct (executeNextTask_limit now (enough freed) freed)
      as (q' & Hexec & Hinv' & Hwait' & Hsub' & Hfifo').
    + unfold limit_invariant, freed. simpl.
      repeat (split; [assumption|]).
      pose proof (length_remove_task task (running q) Henabled).
      split; [lia|]. split; [lia|exact Hfifo].
    + unfold enough. lia.
    + exists q'. split; [exact Hexec|]. split; [exact Hinv'|]. split; [exact Hwait'|].
      intros _ Hall. rewrite Hfifo', Hsub'. unfold freed. simpl. exact Hall.
  - simpl in Henabled. apply andb_true_iff in Henabled as [Hin _].
    apply bool_decide_eq_true in Hin. rewrite Htimers in Hin. inversion Hin.
Qed.

Lemma run_events_limit (es : list (event * Z)) :
  forall q0 q : queue,
    limit_invariant N q0 ->
    limit_reached_when_waiting N q0 ->
    run_events es q0 = Some q ->
    limit_invariant N q
    /\ limit_reached_when_waiting N q
    /\ (ClearQueue ∉ map fst es ->
        map started_task (started q0) ++ taskQueue q0 = submitted q0 ->
        map started_task (started q) ++ taskQueue q = submitted q).
Proof.
  induction es as [|[e now] es IH]; intros q0 q Hinv Hwait Hrun.
  - simpl in Hrun. injection Hrun as <-. tauto.
  - simpl in Hrun. destruct (enabled e now q0) eqn:Henabled; [|discriminate Hrun].
    destruct (step_limit e now q0 Hinv Henabled) as (q1 & Hstep & Hinv1 & Hwait1 & Hall1).
    rewrite Hstep in Hrun.
    destruct (IH q1 q Hinv1 Hwait1 Hrun) as (Hinvq & Hwaitq & Hallq).
    split; [exact Hinvq|]. split; [exact Hwaitq|].
    intros Hnoclear Hall0. simpl in Hnoclear.
    apply not_elem_of_cons in Hnoclear as [Hne Hnoclear].
    apply Hallq; [exact Hnoclear|]. apply Hall1; [congruence|exact Hall0].
Qed.

(** Below the limit the head of the queue is started. *)
Lemma executeNextTask_below_limit (fuel : nat) (now : Z) (q : queue)
    (head : Task) (rest : list Task) :
  _runTask q = LimitGate Base -> limit q = Some N -> timeout q = None ->
  taskQueue q = head :: rest -> runCount q < N ->
  exists q2, _executeNextTask (S fuel) now q = _executeNextTask fuel now q2
    /\ _runTask q2 = LimitGate Base /\ limit q2 = Some N
    /\ taskQueue q2 = rest
    /\ runCount q2 = runCount q + 1
    /\ running q2 = running q ++ [head]
    /\ map started_task (started q2) = map started_task (started q) ++ [head].
Proof.
  intros Hrunner Hlimit Htimeout Hqueue Hlt. simpl.
  rewrite Hqueue, Hrunner. simpl invoke. rewrite Hlimit. simpl toNumber.
  apply Z.ltb_lt in Hlt. rewrite Hlt.
  unfold run_head. rewrite Hqueue. unfold clear_timeout. rewrite Htimeout.
  eexists. split; [reflexivity|]. simpl. rewrite map_app.
  repeat split; assumption.
Qed.

(** When a running task settles while tasks wait, the head of the queue is
    started in its place. *)
Lemma settled_starts_head (task head : Task) (rest : list Task) (now : Z) (q : queue) :
  limit_invariant N q ->
  limit_reached_when_waiting N q ->
  taskQueue q = head :: rest ->
  exists q', step (Settled task) now q = Ok q'
    /\ taskQueue q' = rest
    /\ map started_task (started q') = map started_task (started q) ++ [head]
    /\ running q' = remove_task task (running q) ++ [head].
Proof.
  intros (Hrunner & Hlimit & Htimeout & Htimers & Hcount & Hle & Hfifo) Hwait Hqueue.
  assert (Hfull : runCount q = N) by (apply Hwait; rewrite Hqueue; discriminate).
  simpl step. unfold task_settled.
  match goal with |- context [_executeNextTask _ now ?q1] => set (freed := q1) end.
  destruct (executeNextTask_below_limit (length (taskQueue q)) now freed head rest)
    as (q2 & Hexec & Hrunner2 & Hlimit2 & Hqueue2 & Hcount2 & Hrunning2 & Hstarted2);
    try assumption.
  { unfold freed. simpl. lia. }
  unfold enough. change (taskQueue freed) with (taskQueue q).
  rewrite Hexec. exists q2. split.
  - rewrite Hqueue. simpl length. apply executeNextTask_at_limit; try assumption.
    rewrite Hcount2. unfold freed. simpl. lia.
  - split; [exact Hqueue2|]. split; [exact Hstarted2|exact Hrunning2].
Qed.

End LimitOnly.

(** C1. A queue built with a limit N (at least 1) and no interval: after any
    history of submissions, settlements and clearQueue calls the running
    tasks are those counted by runCount and are at most N; a task waits only
    while N tasks run; tasks are started in the order of submission (the
    tasks started followed by the tasks waiting are the tasks submitted, in
    order, less those a clearQueue dropped); when a running task settles
    while tasks wait, the head of the queue is started in its place; and no
    event makes the code throw. *)
Theorem limit_bounds_running_tasks_fifo
    (N : Z) (es : list (TaskQueue.event * Z)) (q : TaskQueue.queue) :
  (0 < N)%Z ->
  TaskQueue.run_events es (TaskQueue.constructor (Some N) None) = Some q ->
  Z.of_nat (length (TaskQueue.running q)) = TaskQueue.runCount q
  /\ (Z.of_nat (length (TaskQueue.running q)) <= N)%Z
  /\ (TaskQueue.taskQueue q <> [] -> Z.of_nat (length (TaskQueue.running q)) = N)
  /\ sublist (map TaskQueue.started_task (TaskQueue.started q) ++ TaskQueue.taskQueue q)
       (TaskQueue.submitted q)
  /\ (TaskQueue.ClearQueue ∉ map fst es ->
        map TaskQueue.started_task (TaskQueue.started q) ++ TaskQueue.taskQueue q
        = TaskQueue.submitted q)
  /\ (forall task head rest now,
        task ∈ TaskQueue.running q ->
        TaskQueue.taskQueue q = head :: rest ->
        exists q', TaskQueue.step (TaskQueue.Settled task) now q = TaskQueue.Ok q'
          /\ TaskQueue.taskQueue q' = rest
          /\ map TaskQueue.started_task (TaskQueue.started q')
             = map TaskQueue.started_task (TaskQueue.started q) ++ [head]
          /\ TaskQueue.running q' = TaskQueue.remove_task task (TaskQueue.running q) ++ [head])
  /\ (forall e now, TaskQueue.enabled e now q = true ->
        exists q', TaskQueue.step e now q = TaskQueue.Ok q').
Proof.
  intros HN Hrun.
  pose proof (constructor_limit_invariant N HN) as Hinv0.
  assert (Hwait0 : TaskQueue.limit_reached_when_waiting N (TaskQueue.constructor (Some N) None)).
  { intros Hne. exfalso. apply Hne. reflexivity. }
  destruct (run_events_limit N es _ q Hinv0 Hwait0 Hrun) as (Hinv & Hwait & Hall).
  pose proof Hinv as (Hrunner & Hlimit & Htimeout & Htimers & Hcount & Hle & Hfifo).
  split; [symmetry; exact Hcount|]. split; [rewrite <- Hcount; exact Hle|].
  split; [intros Hne; rewrite <- Hcount; apply Hwait, Hne|].
  split; [exact Hfifo|].
  split; [intros Hnoclear; apply Hall; [exact Hnoclear|reflexivity]|].
  split.
  - intros task head rest now _ Hqueue.
    apply (settled_starts_head N task head rest now q Hinv Hwait Hqueue).
  - intros e now Henabled.
    destruct (step_limit N e now q Hinv Henabled) as (q' & Hstep & _).
    exists q'. exact Hstep.
Qed.

Lemma limit_bounds_running_tasks_fifo_witness :
  exists q,
    TaskQueue.run_events
      [(TaskQueue.AddTask 1, 0%Z); (TaskQueue.AddTask 2, 1%Z); (TaskQueue.AddTask 3, 2%Z);
       (TaskQueue.AddTask 4, 3%Z); (TaskQueue.AddTask 5, 4%Z); (TaskQueue.Settled 2, 9%Z)]
      (TaskQueue.constructor (Some 2%Z) None) = Some q
    /\ (Z.of_nat (length (TaskQueue.running q)) <= 2)%Z
    /\ map TaskQueue.started_task (TaskQueue.started q) = [1; 2; 3]
    /\ TaskQueue.taskQueue q = [4; 5].
Proof.
  eexists. split; [vm_compute; reflexivity|].
  split; [|split; reflexivity].
  refine (proj1 (proj2 (limit_bounds_running_tasks_fifo 2
    [(TaskQueue.AddTask 1, 0%Z); (TaskQueue.AddTask 2, 1%Z); (TaskQueue.AddTask 3, 2%Z);
     (TaskQueue.AddTask 4, 3%Z); (TaskQueue.AddTask 5, 4%Z); (TaskQueue.Settled 2, 9%Z)]
    _ _ _))).
  - reflexivity.
  - vm_compute. reflexivity.
Defined.

(** ** task-queue: a limit and an interval *)

Section BothGates.
Import TaskQueue.
Local Open Scope Z_scope.
Variables L I : Z.
Hypothesis L_truthy : L <> 0.
Hypothesis I_truthy : I <> 0.

Lemma constructor_both_gates :
  _runTask (constructor (Some L) (Some I)) = LimitGate (IntervalGate Base).
Proof.
  unfold constructor. simpl.
  replace (L =? 0) with false by (symmetry; apply Z.eqb_neq; assumption).
  replace (I =? 0) with false by (symmetry; apply Z.eqb_neq; assumption).
  reflexivity.
Qed.

Lemma constructor_gates_invariant : gates_invariant L I (constructor (Some L) (Some I)).
Proof.
  split; [apply constructor_both_gates|].
  repeat split. constructor.
Qed.

Lemma remove_timer_self (h : timer) : remove_timer h [h] = [].
Proof.
  unfold remove_timer. rewrite filter_cons, decide_False by (intros H; apply H; reflexivity).
  reflexivity.
Qed.

Lemma clear_timeout_fields (q : queue) :
  _runTask (clear_timeout q) = _runTask q
  /\ limit (clear_timeout q) = limit q
  /\ interval (clear_timeout q) = interval q
  /\ started (clear_timeout q) = started q
  /\ timeout (clear_timeout q) = None.
Proof.
  unfold clear_timeout. destruct (timeout q) eqn:E; simpl; rewrite ?E; tauto.
Qed.

(** The method [_runTask] on a queue with a waiting task: the start is
    recorded with what the gates saw, and no timer remains. *)
Lemma run_head_gates (now : Z) (q : queue) (task : Task) (rest : list Task) :
  _runTask q = LimitGate (IntervalGate Base) ->
  limit q = Some L ->
  interval q = Some I ->
  Forall (gates_passed L I) (started q) ->
  timers (clear_timeout q) = [] ->
  taskQueue q = task :: rest ->
  runCount q < L ->
  match lastRunTime q with None => True | Some last => I <= now - last end ->
  exists q2, run_head now q = Some q2
    /\ gates_invariant L I q2
    /\ taskQueue q2 = rest.
Proof.
  intros Hrunner Hlimit Hinterval Hstarted Htimers Hqueue Hlt Hlast.
  destruct (clear_timeout_fields q) as (Hr & Hl & Hi & Hs & Ht).
  unfold run_head. rewrite Hqueue.
  eexists. split; [reflexivity|]. split; [|reflexivity].
  unfold gates_invariant, timer_invariant. simpl.
  rewrite Hr, Hl, Hi, Hs, Ht.
  repeat (split; [assumption|]). split; [|exact Htimers].
  apply Forall_app. split; [exact Hstarted|].
  constructor; [|constructor]. split; [exact Hlt|exact Hlast].
Qed.

Lemma executeNextTask_gates (now : Z) (fuel : nat) :
  forall q : queue,
    gates_invariant L I q ->
    (length (taskQueue q) < fuel)%nat ->
    exists q', _executeNextTask fuel now q = Ok q' /\ gates_invariant L I q'.
Proof.
  induction fuel as [|fuel IH]; intros q Hinv Hfuel; [lia|].
  simpl. destruct (taskQueue q) as [|task rest] eqn:Hqueue; [exists q; tauto|].
  pose proof Hinv as (Hrunner & Hlimit & Hinterval & Hstarted & Htimer).
  rewrite Hrunner. simpl invoke. rewrite Hlimit, Hinterval. simpl toNumber.
  destruct (runCount q <? L) eqn:Hlt; [|exists q; tauto].
  apply Z.ltb_lt in Hlt.
  assert (Hstart : timeout q = None ->
            match lastRunTime q with None => True | Some last => I <= now - last end ->
            exists q', match run_head now q with
                       | Some q2 => _executeNextTask fuel now q2
                       | None => TypeError
                       end = Ok q' /\ gates_invariant L I q').
  { intros Htimeout Hlast.
    destruct (run_head_gates now q task rest Hrunner Hlimit Hinterval Hstarted)
      as (q2 & -> & Hinv2 & Hqueue2); try assumption.
    { unfold clear_timeout. rewrite Htimeout. unfold timer_invariant in Htimer.
      rewrite Htimeout in Htimer. exact Htimer. }
    apply IH; [exact Hinv2|]. rewrite Hqueue2. simpl in Hfuel. lia. }
  unfold timer_invariant in Htimer.
  destruct (lastRunTime q) as [last|] eqn:Hlast.
  - destruct (timeout q) as [h|] eqn:Htimeout; [exists q; tauto|].
    destruct (now - last >=? I) eqn:Hdiff.
    + apply Hstart; [reflexivity|]. apply Z.geb_le in Hdiff. exact Hdiff.
    + eexists. split; [reflexivity|].
      unfold gates_invariant, timer_invariant, set_timeout. simpl.
      repeat (split; [assumption|]).
      rewrite Htimer. split; [reflexivity|]. split; [reflexivity|]. split; [exact Hlt|].
      split; [rewrite Hqueue; discriminate|].
      exists last. split; [exact Hlast|]. lia.
  - destruct (timeout q) as [h|] eqn:Htimeout.
    + destruct Htimer as (_ & _ & _ & _ & last & Hsome & _). discriminate Hsome.
    + apply Hstart; [reflexivity|exact Logic.I].
Qed.

Lemma step_gates (e : event) (now : Z) (q : queue) :
  gates_invariant L I q ->
  enabled e now q = true ->
  exists q', step e now q = Ok q' /\ gates_invariant L I q'.
Proof.
  intros Hinv Henabled.
  pose proof Hinv as (Hrunner & Hlimit & Hinterval & Hstarted & Htimer).
  unfold timer_invariant in Htimer.
  destruct e as [task| |task|h]; simpl step.
  - unfold addTask. apply executeNextTask_gates; [|unfold enough; lia].
    unfold gates_invariant, timer_invariant. simpl.
    repeat (split; [assumption|]).
    destruct (timeout q) as [h|]; [|exact Htimer].
    destruct Htimer as (Htimers & Hcallback & Hlt & Hne & Hdue).
    repeat (split; [assumption|]). split; [|exact Hdue].
    intros Hnil. apply app_eq_nil in Hnil as [_ Hnil]. discriminate Hnil.
  - eexists. split; [reflexivity|].
    unfold clearQueue, clear_timeout, gates_invariant, timer_invariant.
    destruct (timeout q) as [h|] eqn:Htimeout; simpl.
    + destruct Htimer as (Htimers & _).
      repeat (split; [assumption|]). rewrite Htimers. apply remove_timer_self.
    + rewrite Htimeout. repeat (split; [assumption|]). exact Htimer.
  - unfold task_settled. apply executeNextTask_gates; [|unfold enough; lia].
    unfold gates_invariant, timer_invariant. simpl.
    repeat (split; [assumption|]).
    destruct (timeout q) as [h|]; [|exact Htimer].
    destruct Htimer as (Htimers & Hcallback & Hlt & Hne & Hdue).
    repeat (split; [assumption|]). split; [lia|]. split; assumption.
  - simpl in Henabled. apply andb_true_iff in Henabled as [Hin Hdue].
    apply bool_decide_eq_true in Hin. apply Z.leb_le in Hdue.
    destruct (timeout q) as [h0|] eqn:Htimeout;
      [|rewrite Htimer in Hin; inversion Hin].
    destruct Htimer as (Htimers & Hcallback & Hlt & Hne & last & Hlast & Hdue0).
    rewrite Htimers in Hin. apply list_elem_of_singleton in Hin. subst h0.
    destruct (taskQueue q) as [|task rest] eqn:Hqueue; [congruence|].
    unfold timer_fired.
    match goal with |- context [invoke _ _ now ?q1] => set (fired := q1) end.
    rewrite Hcallback.
    change (invoke Base (_executeNextTask (enough fired) now) now fired)
      with (match run_head now fired with
            | None => TypeError
            | Some q2 => _executeNextTask (enough fired) now q2
            end).
    destruct (run_head_gates now fired task rest) as (q2 & -> & Hinv2 & Hqueue2);
      try assumption.
    + unfold clear_timeout, fired. simpl. rewrite Htimeout. simpl.
      rewrite Htimers, remove_timer_self. reflexivity.
    + unfold fired. simpl. rewrite Hlast. lia.
    + apply executeNextTask_gates; [exact Hinv2|].
      rewrite Hqueue2. unfold enough, fired. simpl. rewrite Hqueue. simpl. lia.
Qed.

Lemma run_events_gates (es : list (event * Z)) :
  forall q0 q : queue,
    gates_invariant L I q0 -> run_events es q0 = Some q -> gates_invariant L I q.
Proof.
  induction es as [|[e now] es IH]; intros q0 q Hinv Hrun.
  - simpl in Hrun. injection Hrun as <-. exact Hinv.
  - simpl in Hrun. destruct (enabled e now q0) eqn:Henabled; [|discriminate Hrun].
    destruct (step_gates e now q0 Hinv Henabled) as (q1 & Hstep & Hinv1).
    rewrite Hstep in Hrun. apply (IH q1 q Hinv1 Hrun).
Qed.

End BothGates.

(** C2, as stated, fails on the order of the gates.  With a limit of 1 and
    an interval of 100 ms, a second task submitted 10 ms after the first
    started is stopped by the limit gate and the interval gate is not
    consulted: no timer is set.  Had the interval gate come first, as the
    claim words it, it would have set a timer for the remaining 90 ms. *)
Lemma second_task_sets_no_timer :
  let q0 := TaskQueue.constructor (Some 1%Z) (Some 100%Z) in
  let es := [(TaskQueue.AddTask 1, 0%Z); (TaskQueue.AddTask 2, 10%Z)] in
  TaskQueue._runTask q0 <> TaskQueue.intervalFirst
  /\ TaskQueue.timeout <$> TaskQueue.run_events es q0 = Some None
  /\ TaskQueue.timeout <$> TaskQueue.run_events es
                              (TaskQueue.with_runner TaskQueue.intervalFirst q0)
     = Some (Some (TaskQueue.mkTimer 0 100 (TaskQueue.LimitGate TaskQueue.Base))).
Proof.
  split; [|split].
  - discriminate.
  - reflexivity.
  - reflexivity.
Qed.

(** C2, amended. A queue built with a limit and an interval stores in
    _runTask the limit gate wrapped around the interval gate: a start
    attempt evaluates the limit gate first, stops there when the limit is
    reached (nothing starts, no timer is set), and consults the interval
    gate only below the limit.  After any history of events, every task that
    was started found both gates open at its start: fewer running tasks than
    the limit, and no earlier start or one at least the interval ago; and no
    event makes the code throw. *)
Theorem limit_gate_then_interval_gate
    (L I : Z) (es : list (TaskQueue.event * Z)) (q : TaskQueue.queue) :
  L <> 0%Z -> I <> 0%Z ->
  TaskQueue.run_events es (TaskQueue.constructor (Some L) (Some I)) = Some q ->
  TaskQueue._runTask q = TaskQueue.LimitGate (TaskQueue.IntervalGate TaskQueue.Base)
  /\ Forall (TaskQueue.gates_passed L I) (TaskQueue.started q)
  /\ (forall k now, (L <= TaskQueue.runCount q)%Z ->
        TaskQueue.invoke (TaskQueue._runTask q) k now q = TaskQueue.Ok q)
  /\ (forall k now, (TaskQueue.runCount q < L)%Z ->
        TaskQueue.invoke (TaskQueue._runTask q) k now q
        = TaskQueue.invoke (TaskQueue.IntervalGate TaskQueue.Base) k now q)
  /\ (forall e now, TaskQueue.enabled e now q = true ->
        exists q', TaskQueue.step e now q = TaskQueue.Ok q').
Proof.
  intros HL HI Hrun.
  pose proof (run_events_gates L I es _ q (constructor_gates_invariant L I HL HI) Hrun) as Hinv.
  pose proof Hinv as (Hrunner & Hlimit & Hinterval & Hstarted & Htimer).
  split; [exact Hrunner|]. split; [exact Hstarted|]. split; [|split].
  - intros k now Hfull. rewrite Hrunner. simpl TaskQueue.invoke. rewrite Hlimit.
    simpl TaskQueue.toNumber.
    replace (TaskQueue.runCount q <? L)%Z with false by (symmetry; apply Z.ltb_ge; lia).
    reflexivity.
  - intros k now Hbelow. rewrite Hrunner. simpl TaskQueue.invoke. rewrite Hlimit.
    simpl TaskQueue.toNumber.
    replace (TaskQueue.runCount q <? L)%Z with true by (symmetry; apply Z.ltb_lt; lia).
    reflexivity.
  - intros e now Henabled.
    destruct (step_gates L I e now q Hinv Henabled) as (q' & Hstep & _).
    exists q'. exact Hstep.
Qed.

Lemma limit_gate_then_interval_gate_witness :
  exists q,
    TaskQueue.run_events
      [(TaskQueue.AddTask 1, 0%Z); (TaskQueue.AddTask 2, 10%Z); (TaskQueue.AddTask 3, 10%Z);
       (TaskQueue.Fired (TaskQueue.mkTimer 0 100 TaskQueue.Base), 100%Z)]
      (TaskQueue.constructor (Some 2%Z) (Some 100%Z)) = Some q
    /\ map TaskQueue.started_task (TaskQueue.started q) = [1; 2]
    /\ Forall (TaskQueue.gates_passed 2 100) (TaskQueue.started q).
Proof.
  eexists. split; [vm_compute; reflexivity|].
  split; [reflexivity|].
  refine (proj1 (proj2 (limit_gate_then_interval_gate 2 100
    [(TaskQueue.AddTask 1, 0%Z); (TaskQueue.AddTask 2, 10%Z); (TaskQueue.AddTask 3, 10%Z);
     (TaskQueue.Fired (TaskQueue.mkTimer 0 100 TaskQueue.Base), 100%Z)]
    _ _ _ _))).
  - discriminate.
  - discriminate.
  - vm_compute. reflexivity.
Defined.

(** ** task-queue: any options *)

Section AnyOptions.
Import TaskQueue.
Local Open Scope Z_scope.
Variables l i : option Z.

Lemma constructor_runner :
  _runTask (constructor l i)
  = if truthyNumber l
    then LimitGate (if truthyNumber i then IntervalGate Base else Base)
    else if truthyNumber i then IntervalGate Base else Base.
Proof. reflexivity. Qed.

Lemma constructor_queue_invariant :
  queue_invariant l i (constructor l i) /\ waits_for_reason l (constructor l i)
  /\ all_accounted (constructor l i).
Proof.
  split; [|split].
  - split; [|reflexivity].
    unfold history_invariant. simpl.
    repeat (split; [reflexivity|]).
    split; [intros; lia|]. split; [reflexivity|]. split; [reflexivity|].
    split; [constructor|].
    intros _ k s1 s2 H. rewrite lookup_nil in H. discriminate H.
  - intros H. exfalso. apply H. reflexivity.
  - reflexivity.
Qed.

Lemma clear_timeout_same (q : queue) :
  _runTask (clear_timeout q) = _runTask q
  /\ limit (clear_timeout q) = limit q
  /\ interval (clear_timeout q) = interval q
  /\ runCount (clear_timeout q) = runCount q
  /\ lastRunTime (clear_timeout q) = lastRunTime q
  /\ taskQueue (clear_timeout q) = taskQueue q
  /\ running (clear_timeout q) = running q
  /\ submitted (clear_timeout q) = submitted q
  /\ started (clear_timeout q) = started q
  /\ timeout (clear_timeout q) = None.
Proof.
  unfold clear_timeout. destruct (timeout q) eqn:E; simpl; rewrite ?E; tauto.
Qed.

Lemma spaced_snoc (I : Z) (starts : list start_record) (s : start_record) :
  spaced I starts ->
  match last starts with
  | None => True
  | Some previous => I <= started_at s - started_at previous
  end ->
  spaced I (starts ++ [s]).
Proof.
  intros Hspaced Hlast k s1 s2 H1 H2.
  destruct (decide (S k < length starts)%nat) as [Hlt|Hge].
  - rewrite lookup_app_l in H1 by lia. rewrite lookup_app_l in H2 by lia.
    apply (Hspaced k s1 s2 H1 H2).
  - pose proof (lookup_lt_Some _ _ _ H2) as Hk. rewrite length_app in Hk. simpl in Hk.
    assert (Hlen : S k = length starts) by lia.
    rewrite lookup_app_r in H2 by lia.
    replace (S k - length starts)%nat with 0%nat in H2 by lia.
    simpl in H2. injection H2 as <-.
    rewrite lookup_app_l in H1 by lia.
    rewrite last_lookup in Hlast.
    replace (Nat.pred (length starts)) with k in Hlast by lia.
    rewrite H1 in Hlast. exact Hlast.
Qed.

Lemma flow_refl (q : queue) : flow q q.
Proof. split; reflexivity. Qed.

Lemma flow_trans (q1 q2 q3 : queue) : flow q1 q2 -> flow q2 q3 -> flow q1 q3.
Proof. intros [H1 H2] [H3 H4]. split; congruence. Qed.

(** The method [_runTask] on a queue with a waiting task, called when the
    gates of the options allow a start. *)
Lemma run_head_invariant (now : Z) (q : queue) (task : Task) (rest : list Task) :
  history_invariant l i q ->
  timers (clear_timeout q) = [] ->
  taskQueue q = task :: rest ->
  (truthyNumber l = true -> runCount q < toNumber l) ->
  (truthyNumber i = true ->
   match lastRunTime q with None => True | Some last => toNumber i <= now - last end) ->
  exists q2, run_head now q = Some q2
    /\ queue_invariant l i q2
    /\ taskQueue q2 = rest
    /\ flow q q2.
Proof.
  intros (Hrunner & Hlimit & Hinterval & Hcount & Hbound & Hfifo & Hlast & Hwithin & Hspaced)
         Htimers Hqueue Hlim Hint.
  destruct (clear_timeout_same q)
    as (Hc1 & Hc2 & Hc3 & Hc4 & Hc5 & Hc6 & Hc7 & Hc8 & Hc9 & Hc10).
  unfold run_head. rewrite Hqueue.
  remember (clear_timeout q) as c eqn:Hc. clear Hc.
  eexists. split; [reflexivity|].
  unfold queue_invariant, history_invariant, timer_ok, flow. simpl.
  rewrite Hc1, Hc2, Hc3, Hc4, Hc7, Hc8, Hc9, Hc10.
  split; [split|split; [reflexivity|split; [reflexivity|]]].
  - split; [exact Hrunner|]. split; [exact Hlimit|]. split; [exact Hinterval|].
    split; [rewrite length_app; simpl; lia|].
    split; [intros Hl _; specialize (Hlim Hl); lia|].
    split.
    { rewrite map_app. simpl. rewrite <- app_assoc. simpl. rewrite <- Hqueue. exact Hfifo. }
    split; [rewrite last_snoc; reflexivity|].
    split.
    { apply Forall_app. split; [exact Hwithin|].
      constructor; [|constructor]. split; simpl; [lia|exact Hlim]. }
    intros Hi. apply spaced_snoc; [apply Hspaced, Hi|].
    specialize (Hint Hi). rewrite Hlast in Hint. simpl.
    destruct (last (started q)); exact Hint.
  - exact Htimers.
  - rewrite map_app. simpl. rewrite <- app_assoc. simpl. rewrite Hqueue. reflexivity.
Qed.

(** What the continuation of a start has to give. *)
Local Abbreviation continues k rest :=
  (forall q2 : queue,
     queue_invariant l i q2 -> taskQueue q2 = rest ->
     exists q', k q2 = Ok q' /\ queue_invariant l i q' /\ waits_for_reason l q' /\ flow q2 q').

Lemma invoke_Base_invariant (k : queue -> result) (now : Z) (q : queue)
    (task : Task) (rest : list Task) :
  history_invariant l i q ->
  timers (clear_timeout q) = [] ->
  taskQueue q = task :: rest ->
  (truthyNumber l = true -> runCount q < toNumber l) ->
  (truthyNumber i = true ->
   match lastRunTime q with None => True | Some last => toNumber i <= now - last end) ->
  continues k rest ->
  exists q', invoke Base k now q = Ok q'
    /\ queue_invariant l i q' /\ waits_for_reason l q' /\ flow q q'.
Proof.
  intros Hhist Htimers Hqueue Hlim Hint Hk.
  destruct (run_head_invariant now q task rest Hhist Htimers Hqueue Hlim Hint)
    as (q2 & Hrun & Hinv2 & Hqueue2 & Hflow2).
  simpl. rewrite Hrun.
  destruct (Hk q2 Hinv2 Hqueue2) as (q' & Hq' & Hinv' & Hwaits' & Hflow').
  exists q'. split; [exact Hq'|]. split; [exact Hinv'|]. split; [exact Hwaits'|].
  apply (flow_trans q q2 q' Hflow2 Hflow').
Qed.

Lemma invoke_inner_invariant (k : queue -> result) (now : Z) (q : queue)
    (task : Task) (rest : list Task) :
  queue_invariant l i q ->
  taskQueue q = task :: rest ->
  (truthyNumber l = true -> runCount q < toNumber l) ->
  continues k rest ->
  exists q', invoke (if truthyNumber i then IntervalGate Base else Base) k now q = Ok q'
    /\ queue_invariant l i q' /\ waits_for_reason l q' /\ flow q q'.
Proof.
  intros Hinv Hqueue Hlim Hk.
  pose proof Hinv as [Hhist Htimer].
  pose proof Hhist as (_ & _ & Hinterval & _).
  unfold timer_ok in Htimer.
  assert (Hidle : timeout q = None -> timers (clear_timeout q) = []).
  { intros Hnone. unfold clear_timeout. rewrite Hnone. rewrite Hnone in Htimer. exact Htimer. }
  destruct (truthyNumber i) eqn:Hi.
  - cbn [invoke]. rewrite Hinterval.
    destruct (lastRunTime q) as [last|] eqn:Hlast.
    + destruct (timeout q) as [h|] eqn:Htimeout.
      * exists q. split; [reflexivity|]. split; [exact Hinv|].
        split; [|apply flow_refl].
        intros _. right. rewrite Htimeout. discriminate.
      * destruct (now - last >=? toNumber i) eqn:Hdiff.
        { apply (invoke_Base_invariant k now q task rest); try assumption.
          - apply Hidle. reflexivity.
          - intros _. rewrite Hlast. apply Z.geb_le in Hdiff. exact Hdiff. }
        { eexists. split; [reflexivity|]. split; [split|split].
          - exact Hhist.
          - unfold timer_ok, set_timeout. simpl. rewrite Htimer.
            split; [reflexivity|]. split; [reflexivity|]. split; [exact Hi|].
            split; [exact Hlim|]. split; [rewrite Hqueue; discriminate|].
            exists last. split; [exact Hlast|]. lia.
          - intros _. right. discriminate.
          - split; reflexivity. }
    + destruct (timeout q) as [h|] eqn:Htimeout.
      { destruct Htimer as (_ & _ & _ & _ & _ & last & Hsome & _). discriminate Hsome. }
      apply (invoke_Base_invariant k now q task rest); try assumption.
      * apply Hidle. reflexivity.
      * intros _. rewrite Hlast. exact Logic.I.
  - destruct (timeout q) as [h|] eqn:Htimeout.
    { destruct Htimer as (_ & _ & Hfalse & _). discriminate Hfalse. }
    apply (invoke_Base_invariant k now q task rest); try assumption.
    + apply Hidle. reflexivity.
    + intros Hfalse. congruence.
Qed.

Lemma invoke_runner_invariant (k : queue -> result) (now : Z) (q : queue)
    (task : Task) (rest : list Task) :
  queue_invariant l i q ->
  taskQueue q = task :: rest ->
  continues k rest ->
  exists q', invoke (_runTask q) k now q = Ok q'
    /\ queue_invariant l i q' /\ waits_for_reason l q' /\ flow q q'.
Proof.
  intros Hinv Hqueue Hk.
  pose proof Hinv as ((Hrunner & Hlimit & _) & _).
  rewrite Hrunner, constructor_runner.
  destruct (truthyNumber l) eqn:Hl.
  - cbn [invoke]. rewrite Hlimit.
    destruct (runCount q <? toNumber l) eqn:Hlt.
    + apply Z.ltb_lt in Hlt.
      apply (invoke_inner_invariant k now q task rest Hinv Hqueue); [|exact Hk].
      intros _. exact Hlt.
    + apply Z.ltb_ge in Hlt.
      exists q. split; [reflexivity|]. split; [exact Hinv|]. split; [|apply flow_refl].
      intros _. left. split; [exact Hl|exact Hlt].
  - apply (invoke_inner_invariant k now q task rest Hinv Hqueue); [|exact Hk].
    intros Hfalse. congruence.
Qed.

Lemma executeNextTask_invariant (now : Z) (fuel : nat) :
  forall q : queue,
    queue_invariant l i q ->
    (length (taskQueue q) < fuel)%nat ->
    exists q', _executeNextTask fuel now q = Ok q'
      /\ queue_invariant l i q' /\ waits_for_reason l q' /\ flow q q'.
Proof.
  induction fuel as [|fuel IH]; intros q Hinv Hfuel; [lia|].
  simpl. destruct (taskQueue q) as [|task rest] eqn:Hqueue.
  - exists q. split; [reflexivity|]. split; [exact Hinv|]. split; [|apply flow_refl].
    intros Hne. rewrite Hqueue in Hne. congruence.
  - apply (invoke_runner_invariant _ now q task rest Hinv Hqueue).
    intros q2 Hinv2 Hqueue2. apply IH; [exact Hinv2|].
    rewrite Hqueue2. simpl in Hfuel. lia.
Qed.

(** Every event that can happen leaves the queue in order, and the code
    does not throw. *)
Lemma step_invariant (e : event) (now : Z) (q : queue) :
  queue_invariant l i q ->
  enabled e now q = true ->
  exists q', step e now q = Ok q'
    /\ queue_invariant l i q'
    /\ waits_for_reason l q'
    /\ ((e = ClearQueue -> taskQueue q = []) -> all_accounted q -> all_accounted q').
Proof.
  intros Hinv Henabled.
  pose proof Hinv as [Hhist Htimer].
  pose proof Hhist
    as (Hrunner & Hlimit & Hinterval & Hcount & Hbound & Hfifo & Hlast & Hwithin & Hspaced).
  unfold timer_ok in Htimer.
  destruct e as [task| |task|h]; simpl step.
  - unfold addTask.
    match goal with |- context [_executeNextTask _ now ?q1] => set (added := q1) end.
    destruct (executeNextTask_invariant now (enough added) added)
      as (q' & Hq' & Hinv' & Hwaits' & Hsub' & Hflow'); [|unfold enough; lia|].
    + split.
      * unfold history_invariant, added. simpl.
        repeat (split; [assumption|]).
        split; [|repeat (split; [assumption|]); assumption].
        rewrite app_assoc. apply sublist_app; [exact Hfifo|reflexivity].
      * unfold timer_ok, added. simpl.
        destruct (timeout q) as [h|]; [|exact Htimer].
        destruct Htimer as (Htimers & Hcallback & Hi & Hlt & Hne & Hdue).
        repeat (split; [assumption|]). split; [|exact Hdue].
        intros Hnil. apply app_eq_nil in Hnil as [_ Hnil]. discriminate Hnil.
    + exists q'. split; [exact Hq'|]. split; [exact Hinv'|]. split; [exact Hwaits'|].
      intros _ Hall. unfold all_accounted in *. rewrite Hflow', Hsub'.
      unfold added. simpl. rewrite app_assoc, Hall. reflexivity.
  - eexists. split; [reflexivity|].
    destruct (clear_timeout_same q)
      as (Hc1 & Hc2 & Hc3 & Hc4 & Hc5 & Hc6 & Hc7 & Hc8 & Hc9 & Hc10).
    assert (Hcleared : timers (clear_timeout q) = []).
    { unfold clear_timeout. destruct (timeout q) as [h|]; [|exact Htimer]. simpl.
      destruct Htimer as (-> & _). apply remove_timer_self. }
    unfold clearQueue. remember (clear_timeout q) as c eqn:Hc. clear Hc.
    split; [split|split].
    + unfold history_invariant. simpl.
      rewrite Hc1, Hc2, Hc3, Hc4, Hc5, Hc7, Hc8, Hc9.
      repeat (split; [assumption|]).
      split; [|repeat (split; [assumption|]); assumption].
      rewrite app_nil_r. etransitivity; [|exact Hfifo]. apply sublist_inserts_r. reflexivity.
    + unfold timer_ok. simpl. rewrite Hc10. exact Hcleared.
    + intros Hne. exfalso. apply Hne. reflexivity.
    + intros Hempty Hall. unfold all_accounted in *. simpl.
      rewrite Hc8, Hc9, <- Hall, (Hempty eq_refl). reflexivity.
  - simpl in Henabled. apply bool_decide_eq_true in Henabled.
    unfold task_settled.
    match goal with |- context [_executeNextTask _ now ?q1] => set (settled := q1) end.
    destruct (executeNextTask_invariant now (enough settled) settled)
      as (q' & Hq' & Hinv' & Hwaits' & Hsub' & Hflow'); [|unfold enough; lia|].
    + pose proof (length_remove_task task (running q) Henabled) as Hlen.
      split.
      * unfold history_invariant, settled. simpl.
        repeat (split; [assumption|]).
        split; [lia|]. split; [intros Hl Hpos; specialize (Hbound Hl Hpos); lia|].
        repeat (split; [assumption|]). assumption.
      * unfold timer_ok, settled. simpl.
        destruct (timeout q) as [h|]; [|exact Htimer].
        destruct Htimer as (Htimers & Hcallback & Hi & Hlt & Hne & Hdue).
        repeat (split; [assumption|]).
        split; [intros Hl; specialize (Hlt Hl); lia|]. split; assumption.
    + exists q'. split; [exact Hq'|]. split; [exact Hinv'|]. split; [exact Hwaits'|].
      intros _ Hall. unfold all_accounted in *. rewrite Hflow', Hsub'. exact Hall.
  - simpl in Henabled. apply andb_true_iff in Henabled as [Hin Hdue].
    apply bool_decide_eq_true in Hin. apply Z.leb_le in Hdue.
    destruct (timeout q) as [h0|] eqn:Htimeout;
      [|rewrite Htimer in Hin; inversion Hin].
    destruct Htimer as (Htimers & Hcallback & Hi & Hlt & Hne & last & Hlast0 & Hdue0).
    rewrite Htimers in Hin. apply list_elem_of_singleton in Hin. subst h0.
    destruct (taskQueue q) as [|task rest] eqn:Hqueue; [congruence|].
    unfold timer_fired.
    match goal with |- context [invoke _ _ now ?q1] => set (fired := q1) end.
    rewrite Hcallback.
    destruct (invoke_Base_invariant (_executeNextTask (enough fired) now) now fired task rest)
      as (q' & Hq' & Hinv' & Hwaits' & Hsub' & Hflow').
    + unfold history_invariant, fired. simpl. rewrite Hqueue.
      repeat (split; [assumption|]). assumption.
    + unfold clear_timeout, fired. simpl. rewrite Htimeout. simpl.
      rewrite Htimers, remove_timer_self. reflexivity.
    + unfold fired. simpl. exact Hqueue.
    + exact Hlt.
    + intros _. unfold fired. simpl. rewrite Hlast0. lia.
    + intros q2 Hinv2 Hqueue2. apply executeNextTask_invariant; [exact Hinv2|].
      rewrite Hqueue2. unfold enough, fired. simpl. rewrite Hqueue. simpl. lia.
    + exists q'. split; [exact Hq'|]. split; [exact Hinv'|]. split; [exact Hwaits'|].
      intros _ Hall. unfold all_accounted in *. rewrite Hflow', Hsub'.
      unfold fired. simpl. rewrite Hqueue. rewrite Hqueue in Hall. exact Hall.
Qed.

Lemma run_events_invariant (es : list (event * Z)) :
  forall q0 q : queue,
    queue_invariant l i q0 -> waits_for_reason l q0 ->
    run_events es q0 = Some q ->
    queue_invariant l i q /\ waits_for_reason l q
    /\ (ClearQueue ∉ map fst es -> all_accounted q0 -> all_accounted q).
Proof.
  induction es as [|[e now] es IH]; intros q0 q Hinv Hwaits Hrun.
  - simpl in Hrun. injection Hrun as <-. tauto.
  - simpl in Hrun. destruct (enabled e now q0) eqn:Henabled; [|discriminate Hrun].
    destruct (step_invariant e now q0 Hinv Henabled) as (q1 & Hstep & Hinv1 & Hwaits1 & Hall1).
    rewrite Hstep in Hrun.
    destruct (IH q1 q Hinv1 Hwaits1 Hrun) as (Hinv' & Hwaits' & Hall').
    split; [exact Hinv'|]. split; [exact Hwaits'|].
    intros Hnoclear Hall. simpl in Hnoclear. apply not_elem_of_cons in Hnoclear as [Hne Hrest].
    apply Hall'; [exact Hrest|]. apply Hall1; [|exact Hall].
    intros ->. congruence.
Qed.

Lemma reachable_invariant (es : list (event * Z)) (q : queue) :
  run_events es (constructor l i) = Some q ->
  queue_invariant l i q /\ waits_for_reason l q
  /\ (ClearQueue ∉ map fst es -> all_accounted q).
Proof.
  intros Hrun.
  destruct constructor_queue_invariant as (Hinv0 & Hwaits0 & Hall0).
  destruct (run_events_invariant es _ q Hinv0 Hwaits0 Hrun) as (Hinv & Hwaits & Hall).
  split; [exact Hinv|]. split; [exact Hwaits|]. intros Hnoclear. apply Hall; assumption.
Qed.

(** Without a limit and without an interval nothing ever waits, so a
    clearQueue drops nothing. *)
Lemma run_events_no_gates (es : list (event * Z)) :
  truthyNumber l = false -> truthyNumber i = false ->
  forall q0 q : queue,
    queue_invariant l i q0 -> waits_for_reason l q0 -> all_accounted q0 ->
    run_events es q0 = Some q ->
    taskQueue q = [] /\ all_accounted q /\ timers q = [].
Proof.
  intros Hl Hi.
  assert (Hidle : forall q, queue_invariant l i q -> waits_for_reason l q ->
                    taskQueue q = [] /\ timers q = []).
  { intros q [_ Htimer] Hwaits. unfold timer_ok in Htimer.
    destruct (timeout q) as [h|] eqn:Htimeout.
    { destruct Htimer as (_ & _ & Hfalse & _). congruence. }
    split; [|exact Htimer].
    destruct (taskQueue q) as [|task rest] eqn:Hqueue; [reflexivity|].
    destruct Hwaits as [[Hfalse _]|Hfalse];
      [rewrite Hqueue; discriminate|congruence|congruence]. }
  induction es as [|[e now] es IH]; intros q0 q Hinv Hwaits Hall Hrun.
  - simpl in Hrun. injection Hrun as <-.
    destruct (Hidle q0 Hinv Hwaits) as [Hqueue Htimers]. tauto.
  - simpl in Hrun. destruct (enabled e now q0) eqn:Henabled; [|discriminate Hrun].
    destruct (step_invariant e now q0 Hinv Henabled) as (q1 & Hstep & Hinv1 & Hwaits1 & Hall1).
    rewrite Hstep in Hrun.
    apply (IH q1 q Hinv1 Hwaits1); [|exact Hrun].
    apply Hall1; [|exact Hall]. intros _. apply (Hidle q0 Hinv Hwaits).
Qed.

End AnyOptions.

Section Idle.
Import TaskQueue.

(** With nothing waiting and no timer set, only addTask starts a task. *)
Lemma step_idle (e : event) (now : Z) (q : queue) :
  taskQueue q = [] -> timers q = [] ->
  (forall task, e <> AddTask task) ->
  enabled e now q = true ->
  exists q', step e now q = Ok q'
    /\ taskQueue q' = [] /\ timers q' = [] /\ started q' = started q.
Proof.
  intros Hqueue Htimers Hnoadd Henabled.
  destruct e as [task| |task|h]; simpl step.
  - exfalso. apply (Hnoadd task). reflexivity.
  - eexists. split; [reflexivity|].
    unfold clearQueue, clear_timeout. destruct (timeout q); simpl; rewrite ?Htimers; tauto.
  - unfold task_settled, enough. simpl. rewrite Hqueue. simpl.
    eexists. split; [reflexivity|]. simpl. tauto.
  - simpl in Henabled. rewrite Htimers in Henabled.
    apply andb_true_iff in Henabled as [Hin _].
    apply bool_decide_eq_true in Hin. inversion Hin.
Qed.

Lemma run_events_idle (es : list (event * Z)) :
  (forall task, AddTask task ∉ map fst es) ->
  forall q q' : queue,
    taskQueue q = [] -> timers q = [] ->
    run_events es q = Some q' ->
    taskQueue q' = [] /\ timers q' = [] /\ started q' = started q.
Proof.
  induction es as [|[e now] es IH]; intros Hnoadd q q' Hqueue Htimers Hrun.
  - simpl in Hrun. injection Hrun as <-. tauto.
  - simpl in Hrun. destruct (enabled e now q) eqn:Henabled; [|discriminate Hrun].
    destruct (step_idle e now q Hqueue Htimers) as (q1 & Hstep & Hqueue1 & Htimers1 & Hstarted1);
      [|exact Henabled|].
    + intros task ->. apply (Hnoadd task). simpl. apply elem_of_cons. left. reflexivity.
    + rewrite Hstep in Hrun.
      destruct (IH (fun task Hin => Hnoadd task (proj2 (elem_of_cons _ _ _) (or_intror Hin)))
                  q1 q' Hqueue1 Htimers1 Hrun) as (H1 & H2 & H3).
      split; [exact H1|]. split; [exact H2|]. congruence.
Qed.

End Idle.

(** X14. Whatever the options, after any history of events: runCount counts
    the running tasks, the tasks started followed by the tasks waiting are
    submitted tasks in submission order (all of them when clearQueue was
    never called), at most one timer is set and it is the one stored in
    timeout, and no event that can happen makes the code throw. *)
Theorem queue_counts_running_and_keeps_order
    (l i : option Z) (es : list (TaskQueue.event * Z)) (q : TaskQueue.queue) :
  TaskQueue.run_events es (TaskQueue.constructor l i) = Some q ->
  TaskQueue.runCount q = Z.of_nat (length (TaskQueue.running q))
  /\ sublist (map TaskQueue.started_task (TaskQueue.started q) ++ TaskQueue.taskQueue q)
       (TaskQueue.submitted q)
  /\ (TaskQueue.ClearQueue ∉ map fst es ->
        map TaskQueue.started_task (TaskQueue.started q) ++ TaskQueue.taskQueue q
        = TaskQueue.submitted q)
  /\ TaskQueue.timers q = match TaskQueue.timeout q with Some h => [h] | None => [] end
  /\ (forall e now, TaskQueue.enabled e now q = true ->
        exists q', TaskQueue.step e now q = TaskQueue.Ok q').
Proof.
  intros Hrun.
  destruct (reachable_invariant l i es q Hrun) as (Hinv & _ & Hall).
  pose proof Hinv as ((_ & _ & _ & Hcount & _ & Hfifo & _) & Htimer).
  split; [exact Hcount|]. split; [exact Hfifo|]. split; [exact Hall|]. split.
  - unfold TaskQueue.timer_ok in Htimer.
    destruct (TaskQueue.timeout q); [apply Htimer|exact Htimer].
  - intros e now Henabled.
    destruct (step_invariant l i e now q Hinv Henabled) as (q' & Hstep & _).
    exists q'. exact Hstep.
Qed.

Lemma queue_counts_running_and_keeps_order_witness :
  exists q,
    TaskQueue.run_events
      [(TaskQueue.AddTask 1, 0%Z); (TaskQueue.AddTask 2, 10%Z); (TaskQueue.Settled 1, 20%Z)]
      (TaskQueue.constructor None (Some 100%Z)) = Some q
    /\ TaskQueue.runCount q = 0%Z
    /\ TaskQueue.taskQueue q = [2]
    /\ TaskQueue.timers q = [TaskQueue.mkTimer 0 100 TaskQueue.Base]
    /\ TaskQueue.runCount q = Z.of_nat (length (TaskQueue.running q)).
Proof.
  eexists. split; [vm_compute; reflexivity|].
  split; [reflexivity|]. split; [reflexivity|]. split; [reflexivity|].
  refine (proj1 (queue_counts_running_and_keeps_order None (Some 100%Z)
    [(TaskQueue.AddTask 1, 0%Z); (TaskQueue.AddTask 2, 10%Z); (TaskQueue.Settled 1, 20%Z)]
    _ _)).
  vm_compute. reflexivity.
Defined.

(** X15. With an interval option (a number other than 0), with or without a
    limit, any two consecutive starts are at least the interval apart,
    timers firing no earlier than they are due. *)
Theorem interval_spaces_starts
    (l : option Z) (I : Z) (es : list (TaskQueue.event * Z)) (q : TaskQueue.queue) :
  I <> 0%Z ->
  TaskQueue.run_events es (TaskQueue.constructor l (Some I)) = Some q ->
  forall k s1 s2,
    TaskQueue.started q !! k = Some s1 ->
    TaskQueue.started q !! S k = Some s2 ->
    (I <= TaskQueue.started_at s2 - TaskQueue.started_at s1)%Z.
Proof.
  intros HI Hrun.
  destruct (reachable_invariant l (Some I) es q Hrun) as ((Hhist & _) & _).
  destruct Hhist as (_ & _ & _ & _ & _ & _ & _ & _ & Hspaced).
  apply Hspaced. simpl. apply negb_true_iff, Z.eqb_neq, HI.
Qed.

Lemma interval_spaces_starts_witness :
  exists q,
    TaskQueue.run_events
      [(TaskQueue.AddTask 1, 0%Z); (TaskQueue.AddTask 2, 10%Z);
       (TaskQueue.Fired (TaskQueue.mkTimer 0 100 TaskQueue.Base), 120%Z)]
      (TaskQueue.constructor None (Some 100%Z)) = Some q
    /\ map TaskQueue.started_at (TaskQueue.started q) = [0%Z; 120%Z]
    /\ forall k s1 s2,
         TaskQueue.started q !! k = Some s1 ->
         TaskQueue.started q !! S k = Some s2 ->
         (100 <= TaskQueue.started_at s2 - TaskQueue.started_at s1)%Z.
Proof.
  eexists. split; [vm_compute; reflexivity|]. split; [reflexivity|].
  refine (interval_spaces_starts None 100
    [(TaskQueue.AddTask 1, 0%Z); (TaskQueue.AddTask 2, 10%Z);
     (TaskQueue.Fired (TaskQueue.mkTimer 0 100 TaskQueue.Base), 120%Z)] _ _ _).
  - discriminate.
  - vm_compute. reflexivity.
Defined.

(** X16. Whatever the options, after any history of events a task waits in
    the queue only for one of two reasons: the queue has a limit and at
    least that many tasks are counted as running, or the queue has an
    interval and the one timer is set, for the method _runTask, one interval
    after the last start. *)
Theorem task_waits_for_limit_or_timer
    (l i : option Z) (es : list (TaskQueue.event * Z)) (q : TaskQueue.queue) :
  TaskQueue.run_events es (TaskQueue.constructor l i) = Some q ->
  TaskQueue.taskQueue q <> [] ->
  (TaskQueue.truthyNumber l = true /\ (TaskQueue.toNumber l <= TaskQueue.runCount q)%Z)
  \/ (TaskQueue.truthyNumber i = true
      /\ exists h last,
           TaskQueue.timeout q = Some h
           /\ TaskQueue.timers q = [h]
           /\ TaskQueue.callback h = TaskQueue.Base
           /\ TaskQueue.lastRunTime q = Some last
           /\ TaskQueue.due h = (last + TaskQueue.toNumber i)%Z).
Proof.
  intros Hrun Hne.
  destruct (reachable_invariant l i es q Hrun) as ((_ & Htimer) & Hwaits & _).
  destruct (Hwaits Hne) as [Hlimit|Htimeout]; [left; exact Hlimit|right].
  unfold TaskQueue.timer_ok in Htimer.
  destruct (TaskQueue.timeout q) as [h|]; [|congruence].
  destruct Htimer as (Htimers & Hcallback & Hi & _ & _ & last & Hlast & Hdue).
  split; [exact Hi|]. exists h, last. tauto.
Qed.

Lemma task_waits_for_limit_or_timer_witness :
  exists q,
    TaskQueue.run_events
      [(TaskQueue.AddTask 1, 0%Z); (TaskQueue.AddTask 2, 10%Z); (TaskQueue.Settled 1, 20%Z)]
      (TaskQueue.constructor (Some 1%Z) (Some 100%Z)) = Some q
    /\ TaskQueue.taskQueue q = [2]
    /\ ((TaskQueue.truthyNumber (Some 1%Z) = true
         /\ (TaskQueue.toNumber (Some 1%Z) <= TaskQueue.runCount q)%Z)
        \/ (TaskQueue.truthyNumber (Some 100%Z) = true
            /\ exists h last,
                 TaskQueue.timeout q = Some h
                 /\ TaskQueue.timers q = [h]
                 /\ TaskQueue.callback h = TaskQueue.Base
                 /\ TaskQueue.lastRunTime q = Some last
                 /\ TaskQueue.due h = (last + TaskQueue.toNumber (Some 100%Z))%Z)).
Proof.
  eexists. split; [vm_compute; reflexivity|]. split; [reflexivity|].
  refine (task_waits_for_limit_or_timer (Some 1%Z) (Some 100%Z)
    [(TaskQueue.AddTask 1, 0%Z); (TaskQueue.AddTask 2, 10%Z); (TaskQueue.Settled 1, 20%Z)]
    _ _ _).
  - vm_compute. reflexivity.
  - discriminate.
Defined.

(** X17. A queue built without a limit and without an interval (each null,
    undefined or 0) starts every task inside the addTask call that submits
    it: after any history of events nothing waits, the tasks started are
    the tasks submitted, in order, and no timer is set. *)
Theorem no_options_start_every_task
    (l i : option Z) (es : list (TaskQueue.event * Z)) (q : TaskQueue.queue) :
  TaskQueue.truthyNumber l = false ->
  TaskQueue.truthyNumber i = false ->
  TaskQueue.run_events es (TaskQueue.constructor l i) = Some q ->
  TaskQueue.taskQueue q = []
  /\ map TaskQueue.started_task (TaskQueue.started q) = TaskQueue.submitted q
  /\ TaskQueue.timers q = [].
Proof.
  intros Hl Hi Hrun.
  destruct (constructor_queue_invariant l i) as (Hinv0 & Hwaits0 & Hall0).
  destruct (run_events_no_gates l i es Hl Hi _ q Hinv0 Hwaits0 Hall0 Hrun)
    as (Hqueue & Hall & Htimers).
  split; [exact Hqueue|]. split; [|exact Htimers].
  unfold TaskQueue.all_accounted in Hall. rewrite Hqueue, app_nil_r in Hall. exact Hall.
Qed.

Lemma no_options_start_every_task_witness :
  exists q,
    TaskQueue.run_events
      [(TaskQueue.AddTask 1, 0%Z); (TaskQueue.AddTask 2, 0%Z); (TaskQueue.ClearQueue, 1%Z);
       (TaskQueue.AddTask 3, 2%Z)]
      (TaskQueue.constructor (Some 0%Z) None) = Some q
    /\ TaskQueue.submitted q = [1; 2; 3]
    /\ map TaskQueue.started_task (TaskQueue.started q) = TaskQueue.submitted q.
Proof.
  eexists. split; [vm_compute; reflexivity|]. split; [reflexivity|].
  refine (proj1 (proj2 (no_options_start_every_task (Some 0%Z) None
    [(TaskQueue.AddTask 1, 0%Z); (TaskQueue.AddTask 2, 0%Z); (TaskQueue.ClearQueue, 1%Z);
     (TaskQueue.AddTask 3, 2%Z)] _ _ _ _))).
  - reflexivity.
  - reflexivity.
  - vm_compute. reflexivity.
Defined.

(** X18. clearQueue drops the waiting tasks and cancels the timer: whatever
    the options and the history before it, after clearQueue no task is
    started and no timer is set until addTask is called again, whichever
    tasks settle in between. *)
Theorem clearQueue_stops_starts
    (l i : option Z) (es es' : list (TaskQueue.event * Z)) (q q' : TaskQueue.queue) :
  TaskQueue.run_events es (TaskQueue.constructor l i) = Some q ->
  (forall task, TaskQueue.AddTask task ∉ map fst es') ->
  TaskQueue.run_events es' (TaskQueue.clearQueue q) = Some q' ->
  TaskQueue.started q' = TaskQueue.started q
  /\ TaskQueue.taskQueue q' = []
  /\ TaskQueue.timers q' = [].
Proof.
  intros Hrun Hnoadd Hrun'.
  destruct (reachable_invariant l i es q Hrun) as (Hinv & _).
  destruct (step_invariant l i TaskQueue.ClearQueue 0%Z q Hinv eq_refl)
    as (q1 & Hstep & [_ Htimer1] & _).
  simpl in Hstep. injection Hstep as <-.
  destruct (clear_timeout_same q) as (_ & _ & _ & _ & _ & _ & _ & _ & Hstarted & Htimeout).
  assert (Htimers : TaskQueue.timers (TaskQueue.clearQueue q) = []).
  { unfold TaskQueue.timer_ok in Htimer1.
    change (TaskQueue.timeout (TaskQueue.clearQueue q))
      with (TaskQueue.timeout (TaskQueue.clear_timeout q)) in Htimer1.
    rewrite Htimeout in Htimer1. exact Htimer1. }
  destruct (run_events_idle es' Hnoadd (TaskQueue.clearQueue q) q' eq_refl Htimers Hrun')
    as (Hqueue' & Htimers' & Hstarted').
  split; [|split; assumption].
  rewrite Hstarted'. exact Hstarted.
Qed.

Lemma clearQueue_stops_starts_witness :
  exists q q',
    TaskQueue.run_events
      [(TaskQueue.AddTask 1, 0%Z); (TaskQueue.AddTask 2, 10%Z); (TaskQueue.Settled 1, 20%Z)]
      (TaskQueue.constructor (Some 1%Z) (Some 100%Z)) = Some q
    /\ TaskQueue.taskQueue q = [2]
    /\ TaskQueue.timers q = [TaskQueue.mkTimer 0 100 TaskQueue.Base]
    /\ TaskQueue.run_events [(TaskQueue.ClearQueue, 30%Z)] (TaskQueue.clearQueue q) = Some q'
    /\ TaskQueue.started q' = TaskQueue.started q
    /\ TaskQueue.taskQueue q' = []
    /\ TaskQueue.timers q' = [].
Proof.
  eexists. eexists. split; [vm_compute; reflexivity|].
  split; [reflexivity|]. split; [reflexivity|]. split; [vm_compute; reflexivity|].
  refine (clearQueue_stops_starts (Some 1%Z) (Some 100%Z)
    [(TaskQueue.AddTask 1, 0%Z); (TaskQueue.AddTask 2, 10%Z); (TaskQueue.Settled 1, 20%Z)]
    [(TaskQueue.ClearQueue, 30%Z)] _ _ _ _ _).
  - vm_compute. reflexivity.
  - intros task Hin. simpl in Hin. apply list_elem_of_singleton in Hin. discriminate Hin.
  - vm_compute. reflexivity.
Defined.

(** X19. With a positive limit, with or without an interval, the running
    tasks never exceed the limit, and every start found fewer tasks
    running than the limit. *)
Theorem limit_bounds_running_for_any_interval
    (L : Z) (i : option Z) (es : list (TaskQueue.event * Z)) (q : TaskQueue.queue) :
  (0 < L)%Z ->
  TaskQueue.run_events es (TaskQueue.constructor (Some L) i) = Some q ->
  (Z.of_nat (length (TaskQueue.running q)) <= L)%Z
  /\ Forall (fun s => (0 <= TaskQueue.runCount_before s < L)%Z) (TaskQueue.started q).
Proof.
  intros HL Hrun.
  destruct (reachable_invariant (Some L) i es q Hrun) as ((Hhist & _) & _).
  destruct Hhist as (_ & _ & _ & Hcount & Hbound & _ & _ & Hwithin & _).
  assert (Htruthy : TaskQueue.truthyNumber (Some L) = true).
  { simpl. apply negb_true_iff, Z.eqb_neq. lia. }
  split.
  - rewrite <- Hcount. apply Hbound; [exact Htruthy|exact HL].
  - eapply Forall_impl; [exact Hwithin|].
    intros s [Hge Hlt]. split; [exact Hge|apply Hlt, Htruthy].
Qed.

Lemma limit_bounds_running_for_any_interval_witness :
  exists q,
    TaskQueue.run_events
      [(TaskQueue.AddTask 1, 0%Z); (TaskQueue.AddTask 2, 10%Z); (TaskQueue.AddTask 3, 10%Z);
       (TaskQueue.Fired (TaskQueue.mkTimer 0 100 TaskQueue.Base), 100%Z);
       (TaskQueue.Settled 1, 150%Z)]
      (TaskQueue.constructor (Some 2%Z) (Some 100%Z)) = Some q
    /\ TaskQueue.running q = [2]
    /\ (Z.of_nat (length (TaskQueue.running q)) <= 2)%Z.
Proof.
  eexists. split; [vm_compute; reflexivity|]. split; [reflexivity|].
  refine (proj1 (limit_bounds_running_for_any_interval 2 (Some 100%Z)
    [(TaskQueue.AddTask 1, 0%Z); (TaskQueue.AddTask 2, 10%Z); (TaskQueue.AddTask 3, 10%Z);
     (TaskQueue.Fired (TaskQueue.mkTimer 0 100 TaskQueue.Base), 100%Z);
     (TaskQueue.Settled 1, 150%Z)] _ _ _)).
  - lia.
  - vm_compute. reflexivity.
Defined.

(** X20. A negative limit is truthy, so the limit gate is installed, and
    runCount is never below it: the queue starts no task at all, and while
    clearQueue is not called every submitted task stays in the queue. *)
Theorem negative_limit_starts_nothing
    (L : Z) (i : option Z) (es : list (TaskQueue.event * Z)) (q : TaskQueue.queue) :
  (L < 0)%Z ->
  TaskQueue.run_events es (TaskQueue.constructor (Some L) i) = Some q ->
  TaskQueue.started q = []
  /\ (TaskQueue.ClearQueue ∉ map fst es -> TaskQueue.taskQueue q = TaskQueue.submitted q).
Proof.
  intros HL Hrun.
  destruct (reachable_invariant (Some L) i es q Hrun) as ((Hhist & _) & _ & Hall).
  destruct Hhist as (_ & _ & _ & _ & _ & _ & _ & Hwithin & _).
  assert (Htruthy : TaskQueue.truthyNumber (Some L) = true).
  { simpl. apply negb_true_iff, Z.eqb_neq. lia. }
  assert (Hnone : TaskQueue.started q = []).
  { destruct (TaskQueue.started q) as [|s rest]; [reflexivity|].
    apply Forall_cons in Hwithin as [[Hge Hlt] _].
    specialize (Hlt Htruthy). simpl in Hlt. lia. }
  split; [exact Hnone|].
  intros Hnoclear. specialize (Hall Hnoclear).
  unfold TaskQueue.all_accounted in Hall. rewrite Hnone in Hall. exact Hall.
Qed.

Lemma negative_limit_starts_nothing_witness :
  exists q,
    TaskQueue.run_events [(TaskQueue.AddTask 1, 0%Z); (TaskQueue.AddTask 2, 5%Z)]
      (TaskQueue.constructor (Some (-1)%Z) None) = Some q
    /\ TaskQueue.taskQueue q = [1; 2]
    /\ TaskQueue.started q = [].
Proof.
  eexists. split; [vm_compute; reflexivity|]. split; [reflexivity|].
  refine (proj1 (negative_limit_starts_nothing (-1) None
    [(TaskQueue.AddTask 1, 0%Z); (TaskQueue.AddTask 2, 5%Z)] _ _ _)).
  - lia.
  - vm_compute. reflexivity.
Defined.

(** ** Field paths *)

Section FieldPaths.
Import FieldPath.
Local Open Scope string_scope.

Lemma reduceFrom_names (names : list string) :
  Forall (fun name => hasNonWordChar name = false) names ->
  forall (index : nat) (accumulator : string),
    reduceFrom (S index) accumulator (map Name names)
    = match names with
      | [] => accumulator
      | _ => accumulator ++ "." ++ String.concat "." names
      end.
Proof.
  induction 1 as [|name rest Hname _ IH]; intros index accumulator; [reflexivity|].
  cbn [map reduceFrom addFieldName]. rewrite Hname.
  change (0 <? S index)%nat with true. cbn iota. rewrite IH.
  destruct rest as [|next rest].
  - simpl. rewrite append_assoc. reflexivity.
  - change (String.concat "." (name :: next :: rest))
      with (name ++ "." ++ String.concat "." (next :: rest)).
    rewrite !append_assoc. reflexivity.
Qed.

End FieldPaths.

(** X21. A field path whose elements are all strings without a non-word
    character (letters, digits and the underscore only) is rendered as the
    names joined by dots, with no dot before the first. *)
Theorem fieldPathToString_joins_names (names : list string) :
  Forall (fun name => FieldPath.hasNonWordChar name = false) names ->
  FieldPath.fieldPathToString (map FieldPath.Name names) = String.concat "." names.
Proof.
  intros Hnames. unfold FieldPath.fieldPathToString.
  destruct Hnames as [|name rest Hname Hrest]; [reflexivity|].
  cbn [map FieldPath.reduceFrom FieldPath.addFieldName]. rewrite Hname.
  change (0 <? 0)%nat with false. cbn iota.
  change (String.append EmptyString name) with name.
  rewrite (reduceFrom_names rest Hrest).
  destruct rest as [|next rest]; reflexivity.
Qed.

Lemma fieldPathToString_joins_names_witness :
  FieldPath.fieldPathToString
    [FieldPath.Name "sections"; FieldPath.Name "title_1"; FieldPath.Name "en"]
  = "sections.title_1.en"%string.
Proof.
  refine (fieldPathToString_joins_names ["sections"; "title_1"; "en"]%string _).
  repeat constructor.
Defined.

